(** * The 2bit codec of mendelics/twobit, embedded in Rocq

    A shallow embedding of the Go package [twobit]: the pack/unpack
    primitives, run detection, the writer ([Add], [WriteTo]) and the
    reader ([NewReader], [parseRecord], [ReadRange]) over a seekable byte
    stream, followed by the properties the specification states about them.

    Conventions of the embedding.
    - Go's [int] is the 64-bit signed integer of the supported platforms.
      It is modelled by [Z]; every value the code computes from a 32-bit
      field of the file stays far inside the 64-bit range, so no
      wrap-around of [int] is written out.  The conversions to [uint32] and
      [uint8] do wrap and are written out ([uint32], [uint8]).
    - A Go [byte] is a [Z] in [0, 256); a Go [string] or [[]byte] is a
      [list Z] of such values.
    - A function that returns [(T, error)] returns a [result T]; a run-time
      panic (index or slice bound out of range) is the third outcome. *)

From Stdlib Require Import ZArith Lia List Bool String Ascii.
From stdpp Require Import base option list sorting gmap.
Import ListNotations.
Local Open Scope Z_scope.

(** ** Outcomes *)

(** The errors the package builds with [fmt.Errorf] / [errors.New], one
    constructor per message, carrying the values the message prints. *)
Inductive error : Type :=
| UnsupportedBase (c : Z)              (* "Unsupported base: %c" *)
| NameTooLong                          (* "Name string cannot be longer than 255 characters" *)
| InvalidRange (start end_ : Z)        (* "Invalid range: %d-%d" *)
| InvalidSequenceName (name : list Z)  (* "Invalid sequence name: %s" *)
| StreamEOF                            (* io.EOF returned as is by parseHeader *)
| InvalidSig                           (* "Invalid sig. Not a 2bit file?" *)
| UnsupportedVersion (v : Z)           (* "Unsupported version %d" *)
| HeaderReserved (v : Z)               (* "Reserved != 0. got %d" *)
| FailedReadIndex                      (* "Failed to read file index: %s" *)
| FailedReadBlockCount                 (* "Failed to read blockCount: %s" *)
| FailedReadBlockStart                 (* "Failed to block start: %s" *)
| FailedReadBlockSize                  (* "Failed to block size: %s" *)
| FailedReadDnaSize                    (* "Failed to read dnaSize: %s" *)
| FailedReadNBlocks (e : error)        (* "Failed to read nBlocks: %s" *)
| FailedReadMBlocks (e : error)        (* "Failed to read mBlocks: %s" *)
| FailedReadReserved                   (* "Failed to read reserved: %s" *)
| InvalidReserved                      (* "Invalid reserved" *)
| FailedReadDna (sz : Z)               (* "Failed to read %d dna bytes: %s" *)
| BlankChromosome.                     (* "GenomicInterval can't accept blank chromosome" *)

Inductive result (A : Type) : Type :=
| Ok (a : A)
| Err (e : error)
| Panic.
Arguments Ok {A} a.
Arguments Err {A} e.
Arguments Panic {A}.

Definition rbind {A B} (r : result A) (k : A -> result B) : result B :=
  match r with
  | Ok a => k a
  | Err e => Err e
  | Panic => Panic
  end.

Declare Scope result_scope.
Delimit Scope result_scope with res.
Notation "x <-r c ; k" := (rbind c (fun x => k))
  (at level 20, c at level 100, k at level 200, right associativity,
   only parsing) : result_scope.
Local Open Scope result_scope.

(** ** Integers, bytes and slices *)

Definition len {A} (l : list A) : Z := Z.of_nat (length l).

Definition uint8 (z : Z) : Z := z mod 256.
Definition uint32 (z : Z) : Z := z mod 4294967296.

Definition is_byte (b : Z) : Prop := 0 <= b < 256.

(** [s[i]] on a slice or string: panics outside [0, len s). *)
Definition index (s : list Z) (i : Z) : result Z :=
  if (0 <=? i) && (i <? len s) then
    match s !! Z.to_nat i with
    | Some x => Ok x
    | None => Panic
    end
  else Panic.

(** [s[i] = x] on a slice: panics outside [0, len s). *)
Definition assign (s : list Z) (i : Z) (x : Z) : result (list Z) :=
  if (0 <=? i) && (i <? len s) then Ok (<[Z.to_nat i := x]> s) else Panic.

(** [s[lo:hi]] on a slice whose capacity is its length: panics unless
    [0 <= lo <= hi <= len s]. *)
Definition slice (s : list Z) (lo hi : Z) : result (list Z) :=
  if (0 <=? lo) && (lo <=? hi) && (hi <=? len s)
  then Ok (take (Z.to_nat (hi - lo)) (drop (Z.to_nat lo) s))
  else Panic.

(** The bytes of a literal, for the concrete examples. *)
Definition bytes_of (s : string) : list Z :=
  map (fun c => Z.of_N (N_of_ascii c)) (list_ascii_of_string s).

(** ** const.go *)

Definition SIG : Z := 440477507. (* 0x1A412743 *)
Definition defaultBufSize : Z := 4096.
Definition BASE_N : Z := 78.
Definition BASE_T : Z := 84.
Definition BASE_C : Z := 67.
Definition BASE_A : Z := 65.
Definition BASE_G : Z := 71.

Definition BYTES2NT : list Z := [BASE_T; BASE_C; BASE_A; BASE_G].

(** Modelled from the spec: the table [NT2BYTES] in the form [Pack] uses it.
    [Pack] reads it with the two-valued lookup [v, ok := NT2BYTES[c]], that
    is as a Go map from base character to 2-bit code; that declaration is
    not among the sources (const.go declares a byte slice).  Its entries are
    the ten that [init] of twobit.go assigns, which are the spec's
    case-insensitive base to code table over {A,C,G,T,N}. *)
Definition NT2BYTES (c : Z) : option Z :=
  if c =? BASE_N then Some 0
  else if c =? BASE_T then Some 0
  else if c =? BASE_C then Some 1
  else if c =? BASE_A then Some 2
  else if c =? BASE_G then Some 3
  else if c =? BASE_N + 32 then Some 0
  else if c =? BASE_T + 32 then Some 0
  else if c =? BASE_C + 32 then Some 1
  else if c =? BASE_A + 32 then Some 2
  else if c =? BASE_G + 32 then Some 3
  else None.

(** ** twobit.go: sizes *)

Definition packedSize (dnaSize : Z) : Z := Z.shiftr (dnaSize + 3) 2.

(** ** Unpack *)

(** The inner loop [for j := 3; j >= 0; j--] of [Unpack] and [ReadRange]:
    [buf[off+j] = BYTES2NT[int(base&0x3)]; base >>= 2], with [off = 0] in
    [Unpack] and [off = i*4] in [ReadRange].  [j1] counts the iterations
    left, so the index written is [off + (j1 - 1)]. *)
Fixpoint unpackLoop (j1 : nat) (base : Z) (buf : list Z) (off : Z) : result (list Z) :=
  match j1 with
  | O => Ok buf
  | S j =>
      nt <-r index BYTES2NT (Z.land base 3);
      buf' <-r assign buf (off + Z.of_nat j) nt;
      unpackLoop j (uint8 (Z.shiftr base 2)) buf' off
  end.

(** [make([]byte, n)] *)
Definition make (n : Z) : list Z := replicate (Z.to_nat n) 0.

Definition unpackByte (base : Z) : result (list Z) :=
  unpackLoop 4 base (make 4) 0.

(** [for _, base := range raw { ...; dna.Write(buf) }]: the contents of the
    buffer [dna] after the loop. *)
Fixpoint unpackAll (raw : list Z) : result (list Z) :=
  match raw with
  | [] => Ok []
  | base :: rest =>
      buf <-r unpackByte base;
      dna <-r unpackAll rest;
      Ok (buf ++ dna)
  end.

(** [Unpack(raw, sz)].  The result is [dna.Bytes()[0:sz]]; a Go slice
    expression is bounded by the capacity of its operand, not by its length,
    and the capacity of a [bytes.Buffer] is chosen by the library.  [spare]
    stands for the part of the buffer's backing array past the bytes
    written: the capacity is [len dna + len spare]. *)
Definition Unpack (spare : list Z) (raw : list Z) (sz : Z) : result (list Z) :=
  dna <-r unpackAll raw;
  if (0 <=? sz) && (sz <=? len dna + len spare)
  then Ok (take (Z.to_nat sz) (dna ++ spare))
  else Panic.

(** ** Pack (the writer's half of the package) *)

(** The inner loop [for j := 0; j < 4; j++] of [Pack]; [n] counts the
    iterations left.  Returns the byte built and the advanced [idx]. *)
Fixpoint packLoop (s : list Z) (sz : Z) (n : nat) (b idx : Z) : result (Z * Z) :=
  match n with
  | O => Ok (b, idx)
  | S n' =>
      let val := default 0 (NT2BYTES BASE_T) in
      val' <-r (if idx <? sz then
                  c <-r index s idx;
                  match NT2BYTES c with
                  | Some v => Ok v
                  | None => Err (UnsupportedBase c)
                  end
                else Ok val);
      let b := uint8 (Z.shiftl b 2) in
      let b := uint8 (b + val') in
      packLoop s sz n' b (idx + 1)
  end.

(** The outer loop [for i := range out]; [n] counts the bytes left. *)
Fixpoint packBytes (s : list Z) (sz : Z) (n : nat) (idx : Z) : result (list Z) :=
  match n with
  | O => Ok []
  | S n' =>
      r <-r packLoop s sz 4 0 idx;
      out <-r packBytes s sz n' (snd r);
      Ok (fst r :: out)
  end.

Definition Pack (s : list Z) : result (list Z) :=
  let sz := len s in
  packBytes s sz (Z.to_nat (packedSize sz)) 0.

(** ** Blocks and records *)

Module Block.
Record t : Type := mk { start : Z; count : Z }.

(** [Length] returns the end of the block, not its size. *)
Definition Length (b : t) : Z := start b + count b.
Definition Start (b : t) : Z := start b.
Definition Count (b : t) : Z := count b.
End Block.

Record seqRecord : Type := mkSeqRecord {
  dnaSize : Z;                 (* uint32 *)
  nBlocks : list Block.t;
  mBlocks : list Block.t;
  reserved : Z;                (* uint32 *)
  sequence : list Z
}.

(** [rec.size()]: the bytes the record takes in the file. *)
Definition size (rec : seqRecord) : Z :=
  16 + 2 * 4 * len (nBlocks rec) + 2 * 4 * len (mBlocks rec) + len (sequence rec).

(** ** mapBlocks *)

(** The loop [for i := 0; i < n; i++] of [mapBlocks], on the characters
    [seq[i..]] still to scan; the state is [blocks], [start], [isLast]. *)
Fixpoint mapBlocksLoop (check : Z -> bool) (rest : list Z) (i : Z)
    (blocks : list Block.t) (start : Z) (isLast : bool)
    : list Block.t * Z * bool :=
  match rest with
  | [] => (blocks, start, isLast)
  | c :: rest' =>
      let match_ := check c in
      let start' := if match_ then (if negb isLast then i else start) else start in
      let blocks' :=
        if match_ then blocks
        else if isLast then blocks ++ [Block.mk start (i - start)] else blocks in
      mapBlocksLoop check rest' (i + 1) blocks' start' match_
  end.

Definition mapBlocks (seq : list Z) (check : Z -> bool) : list Block.t :=
  let n := len seq in
  let '(blocks, start, isLast) := mapBlocksLoop check seq 0 [] 0 false in
  if isLast then blocks ++ [Block.mk start (n - start)] else blocks.

(** The two predicates [Add] passes to [mapBlocks]. *)
Definition isN (r : Z) : bool := (r =? 78) || (r =? 110).          (* 'N', 'n' *)
Definition isLower (r : Z) : bool := (97 <=? r) && (r <=? 122).    (* 'a'..'z' *)

(** ** Writer *)

(** The writer's state is its map [records]. *)
Definition Writer : Type := gmap (list Z) seqRecord.

Definition NewWriter : Writer := ∅.

Definition Add (w : Writer) (name seq : list Z) : result Writer :=
  if len name >? 255 then Err NameTooLong
  else
    let dna := uint32 (len seq) in
    let nb := mapBlocks seq isN in
    let mb := mapBlocks seq isLower in
    pack <-r Pack seq;
    Ok (<[name := mkSeqRecord dna nb mb 0 pack]> w).

(** [binary.LittleEndian.PutUint32] and [binary.BigEndian.PutUint32]. *)
Definition putUint32LE (v : Z) : list Z :=
  [uint8 v; uint8 (Z.shiftr v 8); uint8 (Z.shiftr v 16); uint8 (Z.shiftr v 24)].

(** The bytes [WriteTo] builds for one record. *)
Definition recordBytes (rec : seqRecord) : list Z :=
  putUint32LE (dnaSize rec)
  ++ putUint32LE (uint32 (len (nBlocks rec)))
  ++ flat_map (fun b => putUint32LE (uint32 (Block.start b))) (nBlocks rec)
  ++ flat_map (fun b => putUint32LE (uint32 (Block.count b))) (nBlocks rec)
  ++ putUint32LE (uint32 (len (mBlocks rec)))
  ++ flat_map (fun b => putUint32LE (uint32 (Block.start b))) (mBlocks rec)
  ++ flat_map (fun b => putUint32LE (uint32 (Block.count b))) (mBlocks rec)
  ++ putUint32LE (uint32 0)
  ++ sequence rec.

(** [w.records[name]] followed by a use of the record: a name that is not
    a key yields a nil record, whose use panics. *)
Definition getRecord (w : Writer) (name : list Z) : result seqRecord :=
  match w !! name with
  | Some rec => Ok rec
  | None => Panic
  end.

(** The index loop of [WriteTo]: one [(length, name, offset)] entry per
    name, the offset advanced by the size of the record. *)
Fixpoint indexBytes (w : Writer) (names : list (list Z)) (offset : Z)
    : result (list Z) :=
  match names with
  | [] => Ok []
  | name :: rest =>
      rec <-r getRecord w name;
      tl <-r indexBytes w rest (offset + size rec);
      Ok ([uint8 (len name)] ++ name ++ putUint32LE (uint32 offset) ++ tl)
  end.

(** The record loop of [WriteTo]. *)
Fixpoint recordsBytes (w : Writer) (names : list (list Z)) : result (list Z) :=
  match names with
  | [] => Ok []
  | name :: rest =>
      rec <-r getRecord w name;
      tl <-r recordsBytes w rest;
      Ok (recordBytes rec ++ tl)
  end.

(** [names] is an order in which [for name, rec := range w.records] can
    visit the map: every key once. *)
Definition rangeOrder (w : Writer) (names : list (list Z)) : Prop :=
  NoDup names /\ forall name, name ∈ names <-> is_Some (w !! name).

(** [WriteTo], given the order [names] in which the range loop visits the
    map; the result is the bytes written to [out] (an in-memory writer,
    which does not fail). *)
Definition WriteTo (w : Writer) (names : list (list Z)) : result (list Z) :=
  let hdr := putUint32LE SIG ++ putUint32LE (uint32 0)
             ++ putUint32LE (uint32 (Z.of_nat (base.size w)))
             ++ putUint32LE (uint32 0) in
  let idxSize := fold_left (fun acc name => acc + (5 + len name)) names 0 in
  let offset := 16 + idxSize in
  idx <-r indexBytes w names offset;
  recs <-r recordsBytes w names;
  Ok (hdr ++ idx ++ recs).

(** ** The stream under a Reader *)

(** The [io.ReadSeeker] the package's callers and tests hand to [NewReader]
    is a [bytes.Reader]: the bytes [s] and the cursor [i]. *)
Module Stream.
Record t : Type := mk { s : list Z; i : Z }.

(** [Read(b)]: at or past the end it reads nothing and reports [io.EOF];
    otherwise it copies as many bytes as fit, advances the cursor by that
    count and reports no error, also when fewer than [len b] were left.
    Returns the buffer after the call, the count and whether the error is
    [io.EOF]. *)
Definition Read (r : t) (b : list Z) : (list Z * Z * bool) * t :=
  if i r >=? len (s r) then ((b, 0, true), r)
  else
    let src := drop (Z.to_nat (i r)) (s r) in
    let n := Z.min (len b) (len src) in
    let b' := take (Z.to_nat n) src ++ drop (Z.to_nat n) b in
    ((b', n, false), mk (s r) (i r + n)).

(** [Seek(offset, whence)] for [whence] 0 (from the start) and 1 (from
    the cursor); a negative target is refused and the cursor stays. *)
Definition Seek (r : t) (offset : Z) (whence : Z) : t :=
  let abs := if whence =? 0 then offset else i r + offset in
  if abs <? 0 then r else mk (s r) abs.
End Stream.

Inductive ByteOrder : Type := BigEndian | LittleEndian.

(** [byteOrder.Uint32(b)] on a slice of at least four bytes. *)
Definition Uint32 (bo : ByteOrder) (b : list Z) : Z :=
  match b with
  | b0 :: b1 :: b2 :: b3 :: _ =>
      match bo with
      | LittleEndian => b0 + 256 * b1 + 65536 * b2 + 16777216 * b3
      | BigEndian => b3 + 256 * b2 + 65536 * b1 + 16777216 * b0
      end
  | _ => 0
  end.

Record header : Type := mkHeader {
  sig : Z;
  version : Z;
  hcount : Z;
  hreserved : Z;
  byteOrder : ByteOrder
}.

(** The [twoBit] struct as a Reader uses it. *)
Record Reader : Type := mkReader {
  reader : Stream.t;
  hdr : header;
  index_ : gmap (list Z) Z
}.

(** ** The Reader's methods: state passing over [Reader] *)

Definition M (A : Type) : Type := Reader -> result A * Reader.

Definition ret {A} (a : A) : M A := fun r => (Ok a, r).
Definition fail {A} (e : error) : M A := fun r => (Err e, r).
Definition panic {A} : M A := fun r => (Panic, r).
Definition bind {A B} (c : M A) (k : A -> M B) : M B :=
  fun r =>
    match c r with
    | (Ok a, r') => k a r'
    | (Err e, r') => (Err e, r')
    | (Panic, r') => (Panic, r')
    end.
Definition lift {A} (c : result A) : M A := fun r => (c, r).

Notation "'do' x <- c ; k" := (bind c (fun x => k))
  (at level 10, x name, c at level 100, k at level 200, only parsing).
Notation "'do' ' p <- c ; k" := (bind c (fun x => let 'p := x in k))
  (at level 10, p strict pattern, c at level 100, k at level 200, only parsing).

(** [r.reader.Read(b)] *)
Definition read (b : list Z) : M (list Z * Z * bool) :=
  fun r =>
    let '(out, st) := Stream.Read (reader r) b in
    (Ok out, mkReader st (hdr r) (index_ r)).

(** [r.reader.Seek(offset, whence)] (its results are dropped by the code) *)
Definition seek (offset whence : Z) : M unit :=
  fun r => (Ok tt, mkReader (Stream.Seek (reader r) offset whence) (hdr r) (index_ r)).

Definition getHdr : M header := fun r => (Ok (hdr r), r).
Definition setHdr (h : header) : M unit :=
  fun r => (Ok tt, mkReader (reader r) h (index_ r)).
Definition getIndex : M (gmap (list Z) Z) := fun r => (Ok (index_ r), r).
Definition setIndex (ix : gmap (list Z) Z) : M unit :=
  fun r => (Ok tt, mkReader (reader r) (hdr r) ix).

(** [r.Count()] *)
Definition Count : M Z := do h <- getHdr; ret (hcount h).

(** The loop of [parseIndex]; [n] counts the entries left. *)
Fixpoint parseIndexLoop (n : nat) : M unit :=
  match n with
  | O => ret tt
  | S n' =>
      do '(size_, _, eof) <- read (make 1);
      if eof : bool then fail FailedReadIndex else
      do '(name, _, eof) <- read (make (hd 0 size_));
      if eof : bool then fail FailedReadIndex else
      do '(offset, _, eof) <- read (make 4);
      if eof : bool then fail FailedReadIndex else
      do h <- getHdr;
      do ix <- getIndex;
      do _ <- setIndex (<[name := Uint32 (byteOrder h) offset]> ix);
      parseIndexLoop n'
  end.

Definition parseIndex : M unit :=
  do _ <- setIndex ∅;
  do c <- Count;
  parseIndexLoop (Z.to_nat c).

Definition parseHeader : M unit :=
  do '(b, _, eof) <- read (make 16);
  if eof : bool then fail StreamEOF else
  do h <- getHdr;
  let sigBE := Uint32 BigEndian (take 4 b) in
  let h := mkHeader sigBE (version h) (hcount h) (hreserved h) BigEndian in
  do _ <- setHdr h;
  do h <- (if negb (sig h =? SIG) then
             let sigLE := Uint32 LittleEndian (take 4 b) in
             let h := mkHeader sigLE (version h) (hcount h) (hreserved h) LittleEndian in
             do _ <- setHdr h;
             if negb (sig h =? SIG) then fail InvalidSig else ret h
           else ret h);
  let v := Uint32 (byteOrder h) (take 4 (drop 4 b)) in
  let h := mkHeader (sig h) v (hcount h) (hreserved h) (byteOrder h) in
  do _ <- setHdr h;
  if negb (v =? 0) then fail (UnsupportedVersion v) else
  let c := Uint32 (byteOrder h) (take 4 (drop 8 b)) in
  let rs := Uint32 (byteOrder h) (take 4 (drop 12 b)) in
  let h := mkHeader (sig h) (version h) c rs (byteOrder h) in
  do _ <- setHdr h;
  if negb (rs =? 0) then fail (HeaderReserved rs) else ret tt.

(** The two read loops of [parseBlockCoords], [for i := range starts] and
    [for i := range sizes]: [n] values left to read into the slice, through
    the one 4-byte buffer [buf] the function reuses. *)
Fixpoint readUint32s (e : error) (n : nat) (buf : list Z) : M (list Z * list Z) :=
  match n with
  | O => ret ([], buf)
  | S n' =>
      do '(buf', _, eof) <- read buf;
      if eof : bool then fail e else
      do h <- getHdr;
      let v := Uint32 (byteOrder h) buf' in
      do '(vs, buf'') <- readUint32s e n' buf';
      ret (v :: vs, buf'')
  end.

(** [blocks[i] = &Block{start: int(starts[i]), count: int(sizes[i])}] *)
Fixpoint zipBlocks (starts sizes : list Z) : list Block.t :=
  match starts, sizes with
  | st :: starts', sz :: sizes' => Block.mk st sz :: zipBlocks starts' sizes'
  | _, _ => []
  end.

Definition parseBlockCoords : M (list Block.t) :=
  do '(buf, _, eof) <- read (make 4);
  if eof : bool then fail FailedReadBlockCount else
  do h <- getHdr;
  let count := Uint32 (byteOrder h) buf in
  do '(starts, buf) <- readUint32s FailedReadBlockStart (Z.to_nat count) buf;
  do '(sizes, buf) <- readUint32s FailedReadBlockSize (Z.to_nat count) buf;
  ret (zipBlocks starts sizes).

(** Wrap the error of a callee, as [fmt.Errorf("...: %s", err)] does. *)
Definition wrapErr {A} (f : error -> error) (c : M A) : M A :=
  fun r =>
    match c r with
    | (Err e, r') => (Err (f e), r')
    | other => other
    end.

Definition parseRecord (name : list Z) (coords : bool) : M seqRecord :=
  do ix <- getIndex;
  match ix !! name with
  | None => fail (InvalidSequenceName name)
  | Some offset =>
      do _ <- seek offset 0;
      do '(buf, _, eof) <- read (make 4);
      if eof : bool then fail FailedReadDnaSize else
      do h <- getHdr;
      let dna := Uint32 (byteOrder h) buf in
      if coords then
        do nb <- wrapErr FailedReadNBlocks parseBlockCoords;
        do mb <- wrapErr FailedReadMBlocks parseBlockCoords;
        do '(buf, _, eof) <- read buf;
        if eof : bool then fail FailedReadReserved else
        let rs := Uint32 (byteOrder h) buf in
        if negb (rs =? 0) then fail InvalidReserved
        else ret (mkSeqRecord dna nb mb rs [])
      else ret (mkSeqRecord dna [] [] 0 [])
  end.

(** [NBlocks(name)] *)
Definition NBlocks (name : list Z) : M (list Block.t) :=
  do rec <- parseRecord name true;
  ret (nBlocks rec).

(** ** ReadRange *)

(** [for k := 0; k < n; k++]: unpack [buf[k]] into [dna[i*4 .. i*4+3]] and
    advance [i]; [kleft] counts the iterations left. *)
Fixpoint decodeLoop (kleft : nat) (k : Z) (buf dna : list Z) (i : Z)
    : result (list Z * Z) :=
  match kleft with
  | O => Ok (dna, i)
  | S kleft' =>
      base <-r index buf k;
      dna' <-r unpackLoop 4 base dna (i * 4);
      decodeLoop kleft' (k + 1) buf dna' (i + 1)
  end.

(** [for c := 0; c < chunks; c++]; [cleft] counts the chunks left.  The
    stream's only error is [io.EOF], so the branch
    [err != nil && err != io.EOF] is never taken and is left out. *)
Fixpoint readChunks (cleft : nat) (size : Z) (buf dna : list Z) (i : Z)
    : M (list Z) :=
  match cleft with
  | O => ret dna
  | S cleft' =>
      let sz := if i + defaultBufSize >? size
                then Z.rem size defaultBufSize else defaultBufSize in
      do window <- lift (slice buf 0 sz);
      do '(window', n, _) <- read window;
      let buf' := window' ++ drop (Z.to_nat sz) buf in
      if negb (n =? sz) then fail (FailedReadDna sz) else
      do '(dna', i') <- lift (decodeLoop (Z.to_nat n) 0 buf' dna i);
      readChunks cleft' size buf' dna' i'
  end.

(** The loop [for i := 0; i < cnt; i++] of the nBlocks overlay; [fuel]
    counts the iterations left. *)
Fixpoint nLoop (fuel : nat) (seq : list Z) (idx : Z) : result (list Z) :=
  match fuel with
  | O => Ok seq
  | S fuel' =>
      if idx >=? len seq then Ok seq
      else
        seq' <-r assign seq idx BASE_N;
        nLoop fuel' seq' (idx + 1)
  end.

(** The loop [for i := 0; i < cnt; i++] of the mBlocks overlay. *)
Fixpoint mLoop (fuel : nat) (seq : list Z) (idx : Z) : result (list Z) :=
  match fuel with
  | O => Ok seq
  | S fuel' =>
      c <-r index seq idx;
      seq' <-r assign seq idx (uint8 (c + 32));
      let idx' := idx + 1 in
      if idx' >=? len seq' then Ok seq' else mLoop fuel' seq' idx'
  end.

(** One pass [for _, b := range blocks] of [ReadRange], with the inner
    loop [body] ([nLoop] or [mLoop]). *)
Fixpoint overlay (body : nat -> list Z -> Z -> result (list Z))
    (blocks : list Block.t) (start end_ : Z) (seq : list Z) : result (list Z) :=
  match blocks with
  | [] => Ok seq
  | b :: blocks' =>
      if (Block.Length b <? start) || (Block.start b >? end_)
      then overlay body blocks' start end_ seq
      else
        let idx := Block.start b - start in
        let cnt := Block.count b in
        let cnt' := if idx <? 0 then cnt + idx else cnt in
        let idx' := if idx <? 0 then 0 else idx in
        seq' <-r body (Z.to_nat cnt') seq idx';
        overlay body blocks' start end_ seq'
  end.

(** The clamping of [start] and [end] at the head of [ReadRange]. *)
Definition clampStart (start : Z) : Z := if start <? 0 then 0 else start.
Definition clampEnd (bases end_ : Z) : Z :=
  let end_ := if end_ >? bases then bases else end_ in
  if (end_ =? 0) || (end_ <? 0) then bases else end_.

(** [ReadRange] from the range check on, for the record [rec] and the
    clamped [start] and [end]. *)
Definition readWindow (rec : seqRecord) (start end_ : Z) : M (list Z) :=
  if end_ <=? start then fail (InvalidRange start end_) else
  let bases := end_ - start in
  let size := packedSize bases in
  do size <- (if start >? 0 then
                let shift := packedSize start in
                let adj := negb (Z.rem start 4 =? 0) in
                let shift := if adj then shift - 1 else shift in
                let size := if adj then size + 1 else size in
                do _ <- seek shift 1;
                ret size
              else ret size);
  let dna := make (size * 4) in
  let chunks := Z.quot size defaultBufSize in
  let chunks := if Z.rem size defaultBufSize >? 0 then chunks + 1 else chunks in
  let buf := make defaultBufSize in
  do dna <- readChunks (Z.to_nat chunks) size buf dna 0;
  do seq <- lift (slice dna (Z.rem start 4) (Z.rem start 4 + bases));
  do seq <- lift (overlay nLoop (nBlocks rec) start end_ seq);
  do seq <- lift (overlay mLoop (mBlocks rec) start end_ seq);
  ret seq.

Definition ReadRange (name : list Z) (start end_ : Z) : M (list Z) :=
  do rec <- parseRecord name true;
  let bases := dnaSize rec in
  let start := clampStart start in
  let end_ := clampEnd bases end_ in
  readWindow rec start end_.

(** [Read(name)]: the entire sequence. *)
Definition Read (name : list Z) : M (list Z) := ReadRange name 0 0.

(** [NewReader(r)]: the Reader over stream [st], or the error. *)
Definition NewReader (st : Stream.t) : result Reader :=
  let tb := mkReader st (mkHeader 0 0 0 0 BigEndian) ∅ in
  match (do _ <- parseHeader; parseIndex) tb with
  | (Ok _, tb') => Ok tb'
  | (Err e, _) => Err e
  | (Panic, _) => Panic
  end.

(** [Length(name)] *)
Definition Length (name : list Z) : M Z :=
  do rec <- parseRecord name false;
  ret (dnaSize rec).

(** [LengthNoN(name)] *)
Definition LengthNoN (name : list Z) : M Z :=
  do rec <- parseRecord name true;
  let n := fold_left (fun n b => n + Block.count b) (nBlocks rec) 0 in
  ret (dnaSize rec - n).

(** ** The service layer: GenomicInterval *)

Definition chr_ : list Z := [99; 104; 114].          (* "chr" *)
Definition chrMT : list Z := [99; 104; 114; 77; 84].  (* "chrMT" *)
Definition chrM : list Z := [99; 104; 114; 77].       (* "chrM" *)

(** [strings.HasPrefix(s, prefix)] *)
Definition HasPrefix (s prefix : list Z) : bool :=
  bool_decide (take (length prefix) s = prefix).

(** [GenomicInterval(chr, start, end)], on the service's Reader [tb]. *)
Definition GenomicInterval (chr : list Z) (start end_ : Z) : M (list Z) :=
  if bool_decide (chr = []) then fail BlankChromosome else
  let chrName := if negb (HasPrefix chr chr_) then chr_ ++ chr else chr in
  let chrName := if bool_decide (chrName = chrMT) then chrM else chrName in
  if start =? end_ then ret []
  else ReadRange chrName start end_.

(** Run a method on a Reader and keep its result. *)
Definition run {A} (c : M A) (r : Reader) : result A := fst (c r).

(** [Version()] *)
Definition Version : M Z := do h <- getHdr; ret (version h).

(** [GetGenomicIntervalWindow]: the reference and the alternate allele, each
    with [windowL] bases before [start] and [windowR] bases after [end]. *)
Definition GetGenomicIntervalWindow (chr : list Z) (start end_ : Z)
    (ref alt : list Z) (windowL windowR : Z) : M (list Z * list Z) :=
  do seqL <- GenomicInterval chr (start - windowL) start;
  do seqR <- GenomicInterval chr end_ (end_ + windowR);
  ret (seqL ++ ref ++ seqR, seqL ++ alt ++ seqR).

(** [GetGenomicIntervalBound]: the reference and the alternate allele
    inside the interval [intervalStart, intervalEnd); [mathutil.Max] and
    [mathutil.Min] are the larger and the smaller of two ints. *)
Definition GetGenomicIntervalBound (chr : list Z) (start end_ : Z)
    (refInExon alt : list Z) (intervalStart intervalEnd : Z)
    : M (list Z * list Z) :=
  let boundL := Z.max intervalStart start in
  do seqL <- GenomicInterval chr intervalStart boundL;
  let boundR := Z.min intervalEnd end_ in
  do seqR <- GenomicInterval chr boundR intervalEnd;
  ret (seqL ++ refInExon ++ seqR, seqL ++ alt ++ seqR).

(** ** Vocabulary of the specification *)

(** The accepted alphabet {A,C,G,T,N} in either case. *)
Definition baseChar (c : Z) : bool :=
  existsb (Z.eqb c) [65; 67; 71; 84; 78; 97; 99; 103; 116; 110].

(** ASCII upper-casing, and the image of a character under pack then
    unpack: upper-cased, with N rendered as T. *)
Definition toUpper (c : Z) : Z := if isLower c then c - 32 else c.
Definition upperT (c : Z) : Z :=
  let u := toUpper c in if u =? BASE_N then BASE_T else u.

(** The 2-bit code [Pack] uses at position [idx] of [s]: the table's code
    inside the string, the code of T past its end. *)
Definition codeAt (s : list Z) (idx : Z) : Z :=
  if (0 <=? idx) && (idx <? len s)
  then default 0 (NT2BYTES (s !!! Z.to_nat idx))
  else 0.

(** Four codes packed first-base-highest into one byte. *)
Definition packed4 (s : list Z) (idx : Z) : Z :=
  64 * codeAt s idx + 16 * codeAt s (idx + 1) + 4 * codeAt s (idx + 2)
  + codeAt s (idx + 3).

(** The four characters a byte decodes to. *)
Definition decode4 (base : Z) : list Z :=
  map (fun k => BYTES2NT !!! Z.to_nat (Z.land (Z.shiftr base k) 3)) [6; 4; 2; 0].

(** [b] covers the absolute position [p]. *)
Definition covers (b : Block.t) (p : Z) : Prop :=
  Block.start b <= p < Block.start b + Block.count b.
Definition coversb (b : Block.t) (p : Z) : bool :=
  (Block.start b <=? p) && (p <? Block.start b + Block.count b).

(** The ceiling of [n / 4]. *)
Definition ceilDiv4 (n : Z) : Z := - ((- n) / 4).

(** A Reader over no data, and the Reader over the 2bit file of one
    sequence, for the concrete examples. *)
Definition emptyReader : Reader :=
  mkReader (Stream.mk [] 0) (mkHeader 0 0 0 0 BigEndian) ∅.

Definition fileOf (name : list Z) (rec : seqRecord) : list Z :=
  putUint32LE SIG ++ putUint32LE 0 ++ putUint32LE 1 ++ putUint32LE 0
  ++ [uint8 (len name)] ++ name ++ putUint32LE (16 + 5 + len name)
  ++ recordBytes rec.

(** [c] run on the Reader that [NewReader] builds over [file]. *)
Definition onFile {A} (file : list Z) (c : M A) : result A :=
  r <-r NewReader (Stream.mk file 0); run c r.

(** [cleft] chunks are left for [left] bytes: the ceiling of [left] over
    the chunk size. *)
Definition chunksLeft (cleft : nat) (left : Z) : Prop :=
  defaultBufSize * (Z.of_nat cleft - 1) < left <= defaultBufSize * Z.of_nat cleft.

(** The Reader [NewReader] builds over [file] (the empty one if it fails). *)
Definition readerOf (file : list Z) : Reader :=
  match NewReader (Stream.mk file 0) with
  | Ok r => r
  | _ => emptyReader
  end.

(** The file of the overlay example: "chr1", ten bases all A in the packed
    payload, one unknown-base block [{start: 2, count: 3}], no masked block. *)
Definition chr1 : list Z := [99; 104; 114; 49].
Definition tenA : seqRecord := mkSeqRecord 10 [Block.mk 2 3] [] 0 [170; 170; 160].
Definition tenAFile : list Z := fileOf chr1 tenA.

(** The number of blocks that cover the absolute position [p]. *)
Definition covering (blocks : list Block.t) (p : Z) : Z :=
  fold_right (fun b n => (if coversb b p then 1 else 0) + n) 0 blocks.

(** A character after [k] additions of 32 in [uint8] arithmetic. *)
Definition bump (k c : Z) : Z := if k =? 0 then c else uint8 (c + 32 * k).

(** Blocks as they come back from the file: each field through [uint32]. *)
Definition wrapBlocks (blocks : list Block.t) : list Block.t :=
  (fun b => Block.mk (uint32 (Block.start b)) (uint32 (Block.count b))) <$> blocks.

(** The bytes of an index: one [(length, name, offset)] entry per pair. *)
Definition entryBytes (entries : list (list Z * Z)) : list Z :=
  flat_map (fun e => [uint8 (len (fst e))] ++ fst e ++ putUint32LE (uint32 (snd e)))
           entries.

(** The index a Reader builds from the entries, starting from [ix]. *)
Definition indexOf (entries : list (list Z * Z)) (ix : gmap (list Z) Z)
    : gmap (list Z) Z :=
  fold_left (fun ix e => <[fst e := uint32 (snd e)]> ix) entries ix.

(** The index entries [WriteTo] writes for [names], the first record at
    [offset]: each name with the offset of its record. *)
Fixpoint entriesOf (w : Writer) (names : list (list Z)) (offset : Z)
    : list (list Z * Z) :=
  match names with
  | [] => []
  | name :: rest =>
      (name, offset)
      :: entriesOf w rest (offset + match w !! name with
                                    | Some rec => size rec
                                    | None => 0
                                    end)
  end.

(** The writers a program can build: [NewWriter] followed by successful
    calls of [Add]. *)
Inductive built : Writer -> Prop :=
| built_new : built NewWriter
| built_add w name seq w' : built w -> Add w name seq = Ok w' -> built w'.

(** The number of elements of [l] that satisfy [f]. *)
Definition countIf {A} (f : A -> bool) (l : list A) : Z :=
  fold_right (fun x n => (if f x then 1 else 0) + n) 0 l.

(** The 16-byte buffer [parseHeader] works on after its read of a
    non-empty stream: the first bytes of the stream, and the zeros of the
    fresh buffer where the stream had fewer than 16. *)
Definition headerBuf (data : list Z) : list Z :=
  take 16 (data ++ replicate 16 0).

(** Two Readers over the same bytes, with the same header and index: they
    differ at most in the cursor of the stream. *)
Definition sameFile (r r' : Reader) : Prop :=
  Stream.s (reader r) = Stream.s (reader r')
  /\ hdr r = hdr r' /\ index_ r = index_ r'.

(** A method that moves nothing but the cursor. *)
Definition keepsFile {A} (c : M A) : Prop :=
  forall r, sameFile r (snd (c r)).

(** Every offset of the index is a [uint32], hence not negative. *)
Definition offsetsOk (r : Reader) : Prop :=
  forall name off, index_ r !! name = Some off -> 0 <= off.

(** The bytes of a block list in a record: the count, the starts and the
    sizes, each a little-endian 32-bit value. *)
Definition coordBytes (blocks : list Block.t) : list Z :=
  putUint32LE (uint32 (len blocks))
  ++ flat_map (fun b => putUint32LE (uint32 (Block.start b))) blocks
  ++ flat_map (fun b => putUint32LE (uint32 (Block.count b))) blocks.

(** The bytes a record takes in a file under [name]: its index entry and
    the record itself. *)
Definition entrySize (w : Writer) (name : list Z) : Z :=
  5 + len name + match w !! name with Some rec => size rec | None => 0 end.

(** The size of the file for the records under [names]: the header, the
    index entries and the records. *)
Definition fileSize (w : Writer) (names : list (list Z)) : Z :=
  16 + fold_right (fun name n => entrySize w name + n) 0 names.

(** [b] is a non-empty block that starts exactly at [end_]. *)
Definition startsAtEnd (end_ : Z) (b : Block.t) : bool :=
  (Block.start b =? end_) && (0 <? Block.count b).

(** The record [Add] stores for [seq] when [Pack seq] gives [packed]. *)
Definition recordOf (seq packed : list Z) : seqRecord :=
  mkSeqRecord (uint32 (len seq)) (mapBlocks seq isN) (mapBlocks seq isLower) 0 packed.

(** The canonical sequence name [GenomicInterval] reads for [chr]. *)
Definition chrName (chr : list Z) : list Z :=
  let name := if negb (HasPrefix chr chr_) then chr_ ++ chr else chr in
  if bool_decide (name = chrMT) then chrM else name.

(** The bytes of a header in byte order [bo]: signature, version 0, the
    sequence count and reserved 0. *)
Definition putUint32 (bo : ByteOrder) (v : Z) : list Z :=
  match bo with
  | LittleEndian => putUint32LE v
  | BigEndian => rev (putUint32LE v)
  end.
Definition headerBytes (bo : ByteOrder) (count : Z) : list Z :=
  putUint32 bo SIG ++ putUint32 bo 0 ++ putUint32 bo count ++ putUint32 bo 0.

(** [b] ends before [b'] starts, at least one position apart. *)
Definition apart (b b' : Block.t) : Prop :=
  Block.start b + Block.count b < Block.start b'.

(** [b] is a maximal run of characters of [s] that satisfy [check]:
    non-empty, inside [s], all of its characters satisfy [check], and the
    characters just before and just after it (if any) do not. *)
Definition maximalRun (check : Z -> bool) (s : list Z) (b : Block.t) : Prop :=
  0 <= Block.start b /\ 0 < Block.count b
  /\ Block.start b + Block.count b <= len s
  /\ (forall p, covers b p -> check (s !!! Z.to_nat p) = true)
  /\ (Block.start b = 0 \/ check (s !!! Z.to_nat (Block.start b - 1)) = false)
  /\ (Block.start b + Block.count b = len s
      \/ check (s !!! Z.to_nat (Block.start b + Block.count b)) = false).

(** The state of the scan of [mapBlocks] before it looks at position [i]. *)
Definition scanInv (check : Z -> bool) (s : list Z) (i : Z)
    (blocks : list Block.t) (start : Z) (isLast : bool) : Prop :=
  0 <= i <= len s
  /\ Forall (maximalRun check s) blocks
  /\ Forall (fun b => Block.start b + Block.count b < (if isLast then start else i)) blocks
  /\ StronglySorted apart blocks
  /\ (forall p, 0 <= p < (if isLast then start else i) ->
        check (s !!! Z.to_nat p) = true -> Exists (fun b => covers b p) blocks)
  /\ (if isLast
      then 0 <= start < i
           /\ (forall p, start <= p < i -> check (s !!! Z.to_nat p) = true)
           /\ (start = 0 \/ check (s !!! Z.to_nat (start - 1)) = false)
      else i = 0 \/ check (s !!! Z.to_nat (i - 1)) = false).

(** ** Basic facts *)

Lemma len_nil {A} : len (@nil A) = 0.
Proof. reflexivity. Qed.

Lemma len_cons {A} (x : A) l : len (x :: l) = 1 + len l.
Proof. unfold len; simpl; lia. Qed.

Lemma len_app {A} (l1 l2 : list A) : len (l1 ++ l2) = len l1 + len l2.
Proof. unfold len; rewrite length_app; lia. Qed.

Lemma len_nonneg {A} (l : list A) : 0 <= len l.
Proof. unfold len; lia. Qed.

Lemma packedSize_div n : packedSize n = (n + 3) / 4.
Proof. unfold packedSize. rewrite Z.shiftr_div_pow2 by lia. reflexivity. Qed.

(** [packedSize] is the ceiling of [n / 4]. *)
Lemma packedSize_ceil n : 4 * (packedSize n - 1) < n <= 4 * packedSize n.
Proof. rewrite packedSize_div. pose proof (Z.div_mod (n + 3) 4).
  pose proof (Z.mod_pos_bound (n + 3) 4). lia. Qed.

Lemma index_ok s i x :
  0 <= i -> s !! Z.to_nat i = Some x -> index s i = Ok x.
Proof.
  intros Hi Hx. unfold index.
  pose proof (lookup_lt_Some _ _ _ Hx) as Hlt.
  replace ((0 <=? i) && (i <? len s)) with true; [now rewrite Hx|].
  symmetry; apply andb_true_iff; unfold len; split; [apply Z.leb_le|apply Z.ltb_lt]; lia.
Qed.

Lemma index_total s i :
  0 <= i < len s -> index s i = Ok (s !!! Z.to_nat i).
Proof.
  intros Hi. unfold len in Hi.
  destruct (lookup_lt_is_Some_2 s (Z.to_nat i)) as [x Hx]; [lia|].
  rewrite (index_ok _ _ x) by (lia || done).
  now rewrite (list_lookup_total_correct _ _ _ Hx).
Qed.

Lemma assign_ok s i x :
  0 <= i < len s -> assign s i x = Ok (<[Z.to_nat i := x]> s).
Proof.
  intros Hi. unfold assign.
  replace ((0 <=? i) && (i <? len s)) with true; [done|].
  symmetry; apply andb_true_iff; split; [apply Z.leb_le|apply Z.ltb_lt]; lia.
Qed.

Lemma assign_panic s i x : ~ (0 <= i < len s) -> assign s i x = Panic.
Proof.
  intros Hi. unfold assign.
  destruct (Z.leb_spec 0 i), (Z.ltb_spec i (len s)); simpl; try done; lia.
Qed.

Lemma index_panic s i : ~ (0 <= i < len s) -> index s i = Panic.
Proof.
  intros Hi. unfold index.
  destruct (Z.leb_spec 0 i), (Z.ltb_spec i (len s)); simpl; try done; lia.
Qed.


(** ** Pack and Unpack *)

Ltac fold_consts :=
  unfold BASE_N, BASE_T, BASE_C, BASE_A, BASE_G in *;
  repeat match goal with
         | |- context [Z.add (Zpos ?a) (Zpos ?b)] =>
             let v := eval vm_compute in (Z.add (Zpos a) (Zpos b)) in
             change (Z.add (Zpos a) (Zpos b)) with v
         end.

Lemma baseChar_NT2BYTES c :
  baseChar c = match NT2BYTES c with Some _ => true | None => false end.
Proof.
  unfold NT2BYTES, baseChar; fold_consts; simpl existsb.
  repeat match goal with
         | |- context [c =? ?k] => destruct (Z.eqb_spec c k) as [->|?]; [reflexivity|]
         end.
  reflexivity.
Qed.

Lemma NT2BYTES_range c v : NT2BYTES c = Some v -> 0 <= v < 4.
Proof.
  unfold NT2BYTES.
  repeat (destruct (_ =? _); [intros [= <-]; lia|]). discriminate.
Qed.

Lemma codeAt_range s idx : 0 <= codeAt s idx < 4.
Proof.
  unfold codeAt. destruct (_ && _); [|lia].
  destruct (NT2BYTES _) eqn:E; simpl; [eapply NT2BYTES_range; eauto|lia].
Qed.

(** A byte decodes to four characters, written last-to-first. *)
Lemma unpackLoop_decode4 base dna off :
  0 <= base < 256 -> 0 <= off -> off + 4 <= len dna ->
  unpackLoop 4 base dna off
  = Ok (take (Z.to_nat off) dna ++ decode4 base ++ drop (Z.to_nat off + 4) dna).
Proof.
  intros Hb Hoff Hlen.
  assert (Hsplit : dna = take (Z.to_nat off) dna ++ drop (Z.to_nat off) dna)
    by now rewrite take_drop.
  assert (Hl : length (take (Z.to_nat off) dna) = Z.to_nat off)
    by (rewrite length_take; unfold len in Hlen; lia).
  destruct (drop (Z.to_nat off) dna) as [|d0 [|d1 [|d2 [|d3 rest]]]] eqn:Hd;
    try (apply (f_equal length) in Hd; rewrite length_drop in Hd;
         unfold len in Hlen; simpl in Hd; lia).
  assert (Hrest : drop (Z.to_nat off + 4) dna = rest).
  { rewrite <- drop_drop, Hd. reflexivity. }
  rewrite Hrest. clear Hrest.
  set (pre := take (Z.to_nat off) dna) in *. clearbody pre.
  subst dna. clear Hd.
  assert (Hins : forall (j : nat) x a b c d, (j < 4)%nat ->
     assign (pre ++ a :: b :: c :: d :: rest) (off + Z.of_nat j) x
     = Ok (pre ++ <[j := x]> [a; b; c; d] ++ rest)).
  { intros j x a b c d Hj. rewrite assign_ok.
    - f_equal. replace (Z.to_nat (off + Z.of_nat j)) with (length pre + j)%nat by lia.
      rewrite insert_app_r.
      change (a :: b :: c :: d :: rest) with ([a; b; c; d] ++ rest).
      rewrite insert_app_l by (simpl; lia). reflexivity.
    - rewrite len_app. unfold len. simpl length. lia. }
  assert (Hnt : forall b, exists x, index BYTES2NT (Z.land b 3) = Ok x
                         /\ x = BYTES2NT !!! Z.to_nat (Z.land b 3)).
  { intros b. eexists; split; [|reflexivity]. apply index_total.
    change 3 with (Z.ones 2). rewrite Z.land_ones by lia.
    pose proof (Z.mod_pos_bound b (2 ^ 2)). unfold len; simpl. lia. }
  simpl unpackLoop.
  destruct (Hnt base) as (x3 & -> & Hx3). simpl rbind.
  rewrite Hins by lia. simpl.
  destruct (Hnt (uint8 (Z.shiftr base 2))) as (x2 & -> & Hx2). simpl rbind.
  rewrite Hins by lia. simpl.
  destruct (Hnt (uint8 (Z.shiftr (uint8 (Z.shiftr base 2)) 2))) as (x1 & -> & Hx1).
  simpl rbind. rewrite Hins by lia. simpl.
  destruct (Hnt (uint8 (Z.shiftr (uint8 (Z.shiftr (uint8 (Z.shiftr base 2)) 2)) 2)))
    as (x0 & -> & Hx0).
  simpl rbind. rewrite Hins by lia. simpl.
  f_equal. f_equal. simpl. unfold decode4. simpl map.
  assert (Hu : forall z, 0 <= z < 256 -> uint8 (Z.shiftr z 2) = Z.shiftr z 2
                                         /\ 0 <= Z.shiftr z 2 < 256).
  { intros z Hz. rewrite Z.shiftr_div_pow2 by lia. unfold uint8.
    assert (0 <= z / 2 ^ 2 < 256).
    { split; [apply Z.div_pos; lia|]. apply Z.div_lt_upper_bound; lia. }
    rewrite Z.mod_small by lia. lia. }
  destruct (Hu base Hb) as [E1 B1]. rewrite E1 in *.
  destruct (Hu _ B1) as [E2 B2]. rewrite E2 in *.
  destruct (Hu _ B2) as [E3 B3]. rewrite E3 in *.
  rewrite !Z.shiftr_shiftr in * by lia. simpl Z.add in *.
  rewrite Z.shiftr_0_r. subst. reflexivity.
Qed.

Lemma unpackByte_decode4 base : 0 <= base < 256 -> unpackByte base = Ok (decode4 base).
Proof.
  intros Hb. unfold unpackByte.
  rewrite unpackLoop_decode4 by (unfold len; simpl; lia).
  reflexivity.
Qed.

Lemma decode4_length base : length (decode4 base) = 4%nat.
Proof. reflexivity. Qed.

Lemma unpackAll_decode raw :
  Forall is_byte raw -> unpackAll raw = Ok (flat_map decode4 raw).
Proof.
  induction 1 as [|b raw Hb _ IH]; [reflexivity|].
  simpl. rewrite unpackByte_decode4 by exact Hb. simpl. rewrite IH. reflexivity.
Qed.

Lemma flat_map_decode4_length raw : len (flat_map decode4 raw) = 4 * len raw.
Proof.
  induction raw as [|b raw IH]; [reflexivity|].
  change (flat_map decode4 (b :: raw)) with (decode4 b ++ flat_map decode4 raw).
  rewrite len_app, IH, len_cons. unfold len at 1. rewrite decode4_length. lia.
Qed.

(** The character a 2-bit code decodes to. *)
Lemma decode4_packed4 s idx :
  decode4 (packed4 s idx)
  = map (fun k => BYTES2NT !!! Z.to_nat (codeAt s k)) [idx; idx + 1; idx + 2; idx + 3].
Proof.
  unfold packed4. simpl map.
  pose proof (codeAt_range s idx). pose proof (codeAt_range s (idx + 1)).
  pose proof (codeAt_range s (idx + 2)). pose proof (codeAt_range s (idx + 3)).
  generalize dependent (codeAt s idx). generalize dependent (codeAt s (idx + 1)).
  generalize dependent (codeAt s (idx + 2)). generalize dependent (codeAt s (idx + 3)).
  intros c3 H3 c2 H2 c1 H1 c0 H0.
  assert (E0 : c0 = 0 \/ c0 = 1 \/ c0 = 2 \/ c0 = 3) by lia.
  assert (E1 : c1 = 0 \/ c1 = 1 \/ c1 = 2 \/ c1 = 3) by lia.
  assert (E2 : c2 = 0 \/ c2 = 1 \/ c2 = 2 \/ c2 = 3) by lia.
  assert (E3 : c3 = 0 \/ c3 = 1 \/ c3 = 2 \/ c3 = 3) by lia.
  clear H0 H1 H2 H3.
  destruct E0 as [->|[->|[->| ->]]], E1 as [->|[->|[->| ->]]],
           E2 as [->|[->|[->| ->]]], E3 as [->|[->|[->| ->]]]; reflexivity.
Qed.

Lemma packed4_byte s idx : is_byte (packed4 s idx).
Proof.
  unfold packed4, is_byte.
  pose proof (codeAt_range s idx). pose proof (codeAt_range s (idx + 1)).
  pose proof (codeAt_range s (idx + 2)). pose proof (codeAt_range s (idx + 3)). lia.
Qed.

(** The value one iteration of [packLoop] adds, for an accepted character or
    past the end of the string. *)
Lemma packLoop_step s n b idx :
  0 <= idx ->
  (idx < len s -> baseChar (s !!! Z.to_nat idx) = true) ->
  packLoop s (len s) (S n) b idx
  = packLoop s (len s) n (uint8 (uint8 (Z.shiftl b 2) + codeAt s idx)) (idx + 1).
Proof.
  intros Hidx Hv. cbn [packLoop]. unfold codeAt.
  destruct (Z.ltb_spec idx (len s)) as [Hlt|Hge].
  - replace (0 <=? idx) with true by (symmetry; apply Z.leb_le; lia). simpl andb.
    rewrite index_total by lia. simpl rbind.
    specialize (Hv Hlt). rewrite baseChar_NT2BYTES in Hv.
    destruct (NT2BYTES (s !!! Z.to_nat idx)); [reflexivity|discriminate].
  - rewrite andb_false_r. reflexivity.
Qed.

Lemma packLoop_bad_here s n b idx :
  0 <= idx < len s -> baseChar (s !!! Z.to_nat idx) = false ->
  packLoop s (len s) (S n) b idx = Err (UnsupportedBase (s !!! Z.to_nat idx)).
Proof.
  intros Hidx Hv. cbn [packLoop].
  replace (idx <? len s) with true by (symmetry; apply Z.ltb_lt; lia).
  rewrite index_total by lia. simpl rbind.
  rewrite baseChar_NT2BYTES in Hv.
  destruct (NT2BYTES (s !!! Z.to_nat idx)); [discriminate|reflexivity].
Qed.

Lemma packLoop_bad s n : forall b idx k,
  0 <= idx <= k -> k < idx + Z.of_nat n -> k < len s ->
  baseChar (s !!! Z.to_nat k) = false ->
  (forall j, idx <= j < k -> baseChar (s !!! Z.to_nat j) = true) ->
  packLoop s (len s) n b idx = Err (UnsupportedBase (s !!! Z.to_nat k)).
Proof.
  induction n as [|n IH]; intros b idx k Hk Hn Hlen Hbad Hgood; [lia|].
  destruct (Z.eq_dec idx k) as [->|Hne].
  - apply packLoop_bad_here; [lia|assumption].
  - rewrite packLoop_step by (try lia; intros; apply Hgood; lia).
    apply IH; try lia; try assumption. intros; apply Hgood; lia.
Qed.

Lemma packLoop4_ok s idx :
  0 <= idx ->
  (forall j, idx <= j < idx + 4 -> j < len s -> baseChar (s !!! Z.to_nat j) = true) ->
  packLoop s (len s) 4 0 idx = Ok (packed4 s idx, idx + 4).
Proof.
  intros Hidx Hgood.
  do 4 (rewrite packLoop_step by (try lia; intros; apply Hgood; lia)).
  cbn [packLoop]. unfold packed4.
  pose proof (codeAt_range s idx). pose proof (codeAt_range s (idx + 1)).
  pose proof (codeAt_range s (idx + 1 + 1)). pose proof (codeAt_range s (idx + 1 + 1 + 1)).
  replace (idx + 2) with (idx + 1 + 1) by lia.
  replace (idx + 3) with (idx + 1 + 1 + 1) by lia.
  replace (idx + 4) with (idx + 1 + 1 + 1 + 1) by lia.
  generalize dependent (codeAt s idx). generalize dependent (codeAt s (idx + 1)).
  generalize dependent (codeAt s (idx + 1 + 1)).
  generalize dependent (codeAt s (idx + 1 + 1 + 1)).
  intros c3 H3 c2 H2 c1 H1 c0 H0. f_equal. f_equal.
  unfold uint8. rewrite !Z.shiftl_mul_pow2 by lia. change (2 ^ 2) with 4.
  change (0 * 4) with 0. rewrite Z.mod_0_l by lia. rewrite Z.add_0_l.
  rewrite (Z.mod_small c0) by lia.
  rewrite (Z.mod_small (c0 * 4)) by lia.
  rewrite (Z.mod_small (c0 * 4 + c1)) by lia.
  rewrite (Z.mod_small ((c0 * 4 + c1) * 4)) by lia.
  rewrite (Z.mod_small ((c0 * 4 + c1) * 4 + c2)) by lia.
  rewrite (Z.mod_small (((c0 * 4 + c1) * 4 + c2) * 4)) by lia.
  rewrite (Z.mod_small (((c0 * 4 + c1) * 4 + c2) * 4 + c3)) by lia.
  lia.
Qed.

(** The bytes [Pack] produces from position [idx] on. *)
Lemma packBytes_ok s n : forall idx,
  0 <= idx ->
  (forall j, idx <= j < len s -> baseChar (s !!! Z.to_nat j) = true) ->
  packBytes s (len s) n idx
  = Ok ((fun i => packed4 s (idx + 4 * Z.of_nat i)) <$> seq 0 n).
Proof.
  induction n as [|n IH]; intros idx Hidx Hgood; [reflexivity|].
  cbn [packBytes]. rewrite packLoop4_ok by (try lia; intros; apply Hgood; lia).
  simpl rbind. rewrite IH by (try lia; intros; apply Hgood; lia).
  simpl rbind. f_equal. simpl seq. rewrite fmap_cons. f_equal.
  - f_equal. lia.
  - rewrite <- fmap_S_seq, <- list_fmap_compose.
    apply list_fmap_ext. intros i x _. simpl. f_equal. lia.
Qed.

Lemma packBytes_bad s n : forall idx k,
  0 <= idx <= k -> k < idx + 4 * Z.of_nat n -> k < len s ->
  baseChar (s !!! Z.to_nat k) = false ->
  (forall j, idx <= j < k -> baseChar (s !!! Z.to_nat j) = true) ->
  packBytes s (len s) n idx = Err (UnsupportedBase (s !!! Z.to_nat k)).
Proof.
  induction n as [|n IH]; intros idx k Hk Hn Hlen Hbad Hgood; [lia|].
  cbn [packBytes].
  destruct (Z.lt_ge_cases k (idx + 4)) as [Hin|Hout].
  - rewrite (packLoop_bad s 4 0 idx k) by (assumption || lia). reflexivity.
  - rewrite packLoop4_ok by (try lia; intros; apply Hgood; lia).
    simpl rbind. rewrite (IH (idx + 4) k) by (try assumption; try lia; intros; apply Hgood; lia).
    reflexivity.
Qed.

(** [Pack] on accepted input, in closed form. *)
Lemma Pack_ok s :
  Forall (fun c => baseChar c = true) s ->
  Pack s = Ok ((fun i => packed4 s (4 * Z.of_nat i)) <$> seq 0 (Z.to_nat (packedSize (len s)))).
Proof.
  intros Hs. unfold Pack. rewrite packBytes_ok; [reflexivity|lia|].
  intros j Hj. rewrite Forall_lookup in Hs.
  destruct (lookup_lt_is_Some_2 s (Z.to_nat j)) as [x Hx]; [unfold len in Hj; lia|].
  rewrite (list_lookup_total_correct _ _ _ Hx). eapply Hs; eauto.
Qed.

(** [Pack] on input with a character outside the alphabet: the error names
    the first such character. *)
Lemma Pack_bad pre c suf :
  Forall (fun c => baseChar c = true) pre -> baseChar c = false ->
  Pack (pre ++ c :: suf) = Err (UnsupportedBase c).
Proof.
  intros Hpre Hc. unfold Pack.
  assert (Hk : (pre ++ c :: suf) !!! Z.to_nat (len pre) = c).
  { unfold len. rewrite Nat2Z.id. apply list_lookup_total_middle. reflexivity. }
  replace (UnsupportedBase c)
    with (UnsupportedBase ((pre ++ c :: suf) !!! Z.to_nat (len pre)))
    by (now rewrite Hk).
  pose proof (packedSize_ceil (len (pre ++ c :: suf))) as Hceil.
  pose proof (len_nonneg pre). 
  assert (Hl : len (pre ++ c :: suf) = len pre + 1 + len suf)
    by (rewrite len_app, len_cons; lia).
  pose proof (len_nonneg suf).
  apply packBytes_bad; try lia.
  - rewrite Hk. exact Hc.
  - intros j Hj. rewrite Forall_lookup in Hpre.
    destruct (lookup_lt_is_Some_2 pre (Z.to_nat j)) as [x Hx]; [unfold len in *; lia|].
    rewrite (list_lookup_total_correct _ _ x).
    + eapply Hpre; eauto.
    + rewrite lookup_app_l by (unfold len in *; lia). exact Hx.
Qed.

(** Every string is accepted whole or has a first character that is not. *)
Lemma split_first_bad s :
  Forall (fun c => baseChar c = true) s
  \/ exists pre c suf, s = pre ++ c :: suf
       /\ Forall (fun c => baseChar c = true) pre /\ baseChar c = false.
Proof.
  induction s as [|c s IH]; [left; constructor|].
  destruct (baseChar c) eqn:Hc.
  - destruct IH as [IH|(pre & c' & suf & -> & Hpre & Hc')].
    + left. constructor; assumption.
    + right. exists (c :: pre), c', suf. repeat split; [constructor|]; assumption.
  - right. exists [], c, s. repeat split; [constructor|assumption].
Qed.

Lemma bytes2nt_upperT c :
  baseChar c = true ->
  BYTES2NT !!! Z.to_nat (default 0 (NT2BYTES c)) = upperT c.
Proof.
  unfold baseChar. simpl existsb. rewrite !orb_true_iff, !Z.eqb_eq.
  intros [->|[->|[->|[->|[->|[->|[->|[->|[->|[->|H]]]]]]]]]];
    try reflexivity; discriminate.
Qed.

Lemma fmap_lookup_seqZ {A} `{Inhabited A} (f : A -> A) (s : list A) :
  (fun k => f (s !!! Z.to_nat k)) <$> seqZ 0 (len s) = f <$> s.
Proof.
  apply list_eq. intros i. rewrite !list_lookup_fmap.
  destruct (s !! i) as [x|] eqn:Hx.
  - pose proof (lookup_lt_Some _ _ _ Hx).
    rewrite lookup_seqZ_lt by (unfold len; lia). simpl.
    rewrite Z.add_0_l, Nat2Z.id. rewrite (list_lookup_total_correct _ _ _ Hx). reflexivity.
  - pose proof (lookup_ge_None_1 _ _ Hx).
    rewrite lookup_seqZ_ge by (unfold len; lia). reflexivity.
Qed.

(** Unpacking what [Pack] produced from [idx] on yields the decoded codes
    of the positions [idx, idx + 4n). *)
Lemma flat_map_decode4_packed s n : forall idx,
  flat_map decode4 ((fun i => packed4 s (idx + 4 * Z.of_nat i)) <$> seq 0 n)
  = (fun k => BYTES2NT !!! Z.to_nat (codeAt s k)) <$> seqZ idx (4 * Z.of_nat n).
Proof.
  induction n as [|n IH]; intros idx; [reflexivity|].
  simpl seq. rewrite fmap_cons, <- fmap_S_seq, <- list_fmap_compose.
  change (flat_map decode4 (?x :: ?l)) with (decode4 x ++ flat_map decode4 l).
  rewrite (list_fmap_ext _ (fun i => packed4 s (idx + 4 + 4 * Z.of_nat i)) (seq 0 n))
    by (intros i x _; simpl; f_equal; lia).
  rewrite IH, decode4_packed4.
  replace (idx + 4 * Z.of_nat 0%nat) with idx by lia.
  replace (4 * Z.of_nat (S n)) with (4 + 4 * Z.of_nat n) by lia.
  rewrite (seqZ_app idx 4) by lia. rewrite fmap_app. f_equal.
  unfold seqZ. simpl. repeat (f_equal; try lia).
Qed.

(** C8 -- Pack validates its input and sizes its output: [Pack s] fails if
    and only if [s] has a character outside {A,C,G,T,N} in either case, and
    the error then names such a character of [s] (the first one); on
    accepted input it returns exactly ceil(len s / 4) bytes, the same bytes
    as for [s] padded with 'T' up to a multiple of four. *)
Theorem Pack_validation_and_size (s : list Z) :
  ((exists e, Pack s = Err e) <-> Exists (fun c => baseChar c = false) s)
  /\ (forall e, Pack s = Err e ->
        exists pre c suf, s = pre ++ c :: suf /\ e = UnsupportedBase c
          /\ baseChar c = false /\ Forall (fun c => baseChar c = true) pre)
  /\ (Forall (fun c => baseChar c = true) s ->
        exists out, Pack s = Ok out
          /\ 4 * (len out - 1) < len s <= 4 * len out
          /\ Pack (s ++ replicate (Z.to_nat (4 * len out - len s)) BASE_T) = Ok out).
Proof.
  assert (Hgood : Forall (fun c => baseChar c = true) s ->
        exists out, Pack s = Ok out
          /\ 4 * (len out - 1) < len s <= 4 * len out
          /\ Pack (s ++ replicate (Z.to_nat (4 * len out - len s)) BASE_T) = Ok out).
  { intros Hs. eexists; split; [apply Pack_ok; exact Hs|].
    pose proof (packedSize_ceil (len s)) as Hceil. pose proof (len_nonneg s) as Hn.
    assert (Hlen : len ((fun i => packed4 s (4 * Z.of_nat i)) <$>
                         seq 0 (Z.to_nat (packedSize (len s)))) = packedSize (len s)).
    { unfold len at 1. rewrite length_fmap, length_seq. lia. }
    rewrite Hlen. split; [exact Hceil|].
    set (pad := replicate (Z.to_nat (4 * packedSize (len s) - len s)) BASE_T).
    assert (Hpl : len (s ++ pad) = 4 * packedSize (len s)).
    { rewrite len_app. unfold pad, len at 2. rewrite length_replicate. lia. }
    rewrite Pack_ok.
    2:{ apply Forall_app; split; [exact Hs|]. apply Forall_replicate. reflexivity. }
    f_equal. rewrite Hpl.
    replace (packedSize (4 * packedSize (len s))) with (packedSize (len s)).
    2:{ rewrite (packedSize_div (4 * _)).
        replace (4 * packedSize (len s) + 3) with (3 + packedSize (len s) * 4) by lia.
        rewrite Z.div_add by lia. reflexivity. }
    apply list_fmap_ext. intros i x _. unfold packed4.
    assert (Hc : forall k, codeAt (s ++ pad) k = codeAt s k).
    { intros k. unfold codeAt.
      destruct (Z.leb_spec 0 k); simpl andb; [|reflexivity].
      destruct (Z.ltb_spec k (len s)).
      - replace (k <? len (s ++ pad)) with true by (symmetry; apply Z.ltb_lt; lia).
        f_equal. f_equal. apply lookup_total_app_l. unfold len in *; lia.
      - destruct (Z.ltb_spec k (len (s ++ pad))); [|reflexivity].
        rewrite lookup_total_app_r by (unfold len in *; lia).
        unfold pad. rewrite lookup_total_replicate_2; [reflexivity|].
        unfold len in *. lia. }
    rewrite !Hc. reflexivity. }
  destruct (split_first_bad s) as [Hs|(pre & c & suf & -> & Hpre & Hc)].
  - destruct (Hgood Hs) as (out & Hout & _). repeat split.
    + intros [e He]. congruence.
    + intros Hex. apply Exists_exists in Hex as (c & Hin & Hc).
      rewrite Forall_forall in Hs. specialize (Hs c Hin). congruence.
    + intros e He. congruence.
    + exact Hgood.
  - pose proof (Pack_bad pre c suf Hpre Hc) as Hbad. repeat split.
    + intros _. apply Exists_app. right. constructor. exact Hc.
    + intros _. eauto.
    + intros e He. exists pre, c, suf. repeat split; try assumption. congruence.
    + exact Hgood.
Qed.

(** C2 -- Pack/Unpack round trip: for a string over {A,C,G,T,N} in either
    case, unpacking its packed form to its own length gives the string with
    every character upper-cased and every N rendered as T. *)
Theorem Pack_Unpack_roundtrip (spare s : list Z) :
  Forall (fun c => baseChar c = true) s ->
  exists packed, Pack s = Ok packed
    /\ Unpack spare packed (len s) = Ok (upperT <$> s).
Proof.
  intros Hs. eexists; split; [apply Pack_ok; exact Hs|].
  unfold Unpack. rewrite unpackAll_decode.
  2:{ apply Forall_fmap, Forall_forall. intros i _. apply packed4_byte. }
  simpl rbind.
  pose proof (packedSize_ceil (len s)) as Hceil. pose proof (len_nonneg s) as Hn.
  rewrite (flat_map_decode4_packed s _ 0).
  rewrite Z2Nat.id by lia.
  assert (Hl : len ((fun k => BYTES2NT !!! Z.to_nat (codeAt s k))
                     <$> seqZ 0 (4 * packedSize (len s))) = 4 * packedSize (len s)).
  { unfold len at 1. rewrite length_fmap, length_seqZ. lia. }
  rewrite Hl.
  replace ((0 <=? len s) && (len s <=? 4 * packedSize (len s) + len spare)) with true.
  2:{ symmetry. apply andb_true_iff. split; [apply Z.leb_le|apply Z.leb_le]; try lia.
      pose proof (len_nonneg spare). lia. }
  f_equal. rewrite take_app_le by (unfold len in *; lia).
  replace (4 * packedSize (len s)) with (len s + (4 * packedSize (len s) - len s)) by lia.
  rewrite seqZ_app by lia. rewrite fmap_app.
  rewrite take_app_length' by (rewrite length_fmap, length_seqZ; unfold len; lia).
  rewrite <- (fmap_lookup_seqZ upperT s).
  apply list_fmap_ext. intros i k Hk.
  apply lookup_seqZ in Hk as [-> Hi]. rewrite Z.add_0_l. unfold codeAt.
  replace ((0 <=? Z.of_nat i) && (Z.of_nat i <? len s)) with true
    by (symmetry; apply andb_true_iff; split; [apply Z.leb_le|apply Z.ltb_lt]; lia).
  apply bytes2nt_upperT.
  rewrite Forall_lookup in Hs.
  destruct (lookup_lt_is_Some_2 s (Z.to_nat (Z.of_nat i))) as [x Hx]; [unfold len in Hi; lia|].
  rewrite (list_lookup_total_correct _ _ _ Hx). eapply Hs; eauto.
Qed.

Lemma Pack_Unpack_roundtrip_witness :
  exists packed, Pack (bytes_of "ACGTNacgtnG") = Ok packed
    /\ Unpack [] packed (len (bytes_of "ACGTNacgtnG")) = Ok (bytes_of "ACGTTACGTTG").
Proof.
  apply (Pack_Unpack_roundtrip [] (bytes_of "ACGTNacgtnG")).
  repeat constructor.
Defined.

(** C10 -- the precondition of Unpack: for a byte array [raw] and
    [0 <= sz <= 4 * len raw], [Unpack raw sz] returns exactly [sz]
    characters, the first [sz] of the [4 * len raw] decoded ones; a larger
    [sz] takes the final slice past the decoded buffer: it panics beyond
    the buffer's capacity and otherwise returns bytes of the spare capacity
    that were not decoded from [raw]; a negative [sz] panics. *)
Theorem Unpack_exact_length (spare raw : list Z) (sz : Z) :
  Forall is_byte raw ->
  (0 <= sz <= 4 * len raw ->
     exists str, Unpack spare raw sz = Ok str /\ len str = sz
       /\ str = take (Z.to_nat sz) (flat_map decode4 raw))
  /\ (sz < 0 \/ 4 * len raw + len spare < sz -> Unpack spare raw sz = Panic)
  /\ (4 * len raw < sz <= 4 * len raw + len spare ->
        Unpack spare raw sz
        = Ok (flat_map decode4 raw ++ take (Z.to_nat (sz - 4 * len raw)) spare)
        /\ take (Z.to_nat (sz - 4 * len raw)) spare <> []).
Proof.
  intros Hraw. unfold Unpack. rewrite unpackAll_decode by exact Hraw. simpl rbind.
  pose proof (flat_map_decode4_length raw) as Hl. rewrite Hl.
  pose proof (len_nonneg spare) as Hsp. pose proof (len_nonneg raw) as Hr.
  repeat split.
  - intros Hsz. eexists. split; [|split; [|reflexivity]].
    + replace ((0 <=? sz) && (sz <=? 4 * len raw + len spare)) with true
        by (symmetry; apply andb_true_iff; split; apply Z.leb_le; lia).
      rewrite take_app_le by (unfold len in *; lia). reflexivity.
    + unfold len. rewrite length_take. unfold len in *. lia.
  - intros Hsz.
    destruct (Z.leb_spec 0 sz), (Z.leb_spec sz (4 * len raw + len spare));
      simpl; try reflexivity; lia.
  - replace ((0 <=? sz) && (sz <=? 4 * len raw + len spare)) with true
      by (symmetry; apply andb_true_iff; split; apply Z.leb_le; lia).
    f_equal. rewrite take_app_ge by (unfold len in *; lia).
    f_equal. f_equal. unfold len in *. lia.
  - intros Hnil. apply (f_equal length) in Hnil.
    rewrite length_take in Hnil. simpl in Hnil. unfold len in *. lia.
Qed.

Lemma Unpack_exact_length_witness :
  (0 <= 5 <= 4 * len [27; 228] ->
     exists str, Unpack [0; 0] [27; 228] 5 = Ok str /\ len str = 5
       /\ str = take (Z.to_nat 5) (flat_map decode4 [27; 228]))
  /\ (5 < 0 \/ 4 * len [27; 228] + len [0; 0] < 5 -> Unpack [0; 0] [27; 228] 5 = Panic)
  /\ (4 * len [27; 228] < 5 <= 4 * len [27; 228] + len [0; 0] ->
        Unpack [0; 0] [27; 228] 5
        = Ok (flat_map decode4 [27; 228] ++ take (Z.to_nat (5 - 4 * len [27; 228])) [0; 0])
        /\ take (Z.to_nat (5 - 4 * len [27; 228])) [0; 0] <> []).
Proof.
  apply (Unpack_exact_length [0; 0] [27; 228] 5).
  repeat constructor; unfold is_byte; lia.
Defined.

(** C10, the claim as stated, fails: a [sz] above [4 * len raw] does not
    always index out of bounds.  The first write to a [bytes.Buffer] gives
    it a backing array of 64 bytes, so after one packed byte is unpacked 60
    zero bytes are spare, and [Unpack] of that byte with [sz = 5] returns
    the four decoded bases followed by a zero byte. *)
Lemma Unpack_beyond_decoded_counterexample :
  4 * len [27] < 5
  /\ Unpack (make 60) [27] 5 = Ok [84; 67; 65; 71; 0]
  /\ ~ (forall spare raw sz, 4 * len raw < sz -> Unpack spare raw sz = Panic).
Proof.
  split; [vm_compute; reflexivity|]. split; [reflexivity|].
  intros H. specialize (H (make 60) [27] 5 ltac:(vm_compute; reflexivity)).
  discriminate.
Qed.

(** ** mapBlocks *)

Lemma scanInv_step check s i blocks start isLast c :
  s !! Z.to_nat i = Some c -> 0 <= i ->
  scanInv check s i blocks start isLast ->
  scanInv check s (i + 1)
    (if check c then blocks
     else if isLast then blocks ++ [Block.mk start (i - start)] else blocks)
    (if check c then (if negb isLast then i else start) else start)
    (check c).
Proof.
  intros Hc Hi (Hrange & Hmax & Hend & Hsort & Hcov & Hopen).
  pose proof (lookup_lt_Some _ _ _ Hc) as Hlt.
  assert (Hci : s !!! Z.to_nat i = c) by (apply list_lookup_total_correct; exact Hc).
  unfold scanInv. destruct (check c) eqn:Hchk, isLast; simpl negb; cbv iota.
  - (* the open run goes on *)
    destruct Hopen as (Hst & Hin & Hleft).
    repeat split; try assumption; try (unfold len; lia).
    intros p Hp. destruct (Z.eq_dec p i) as [->|]; [congruence|apply Hin; lia].
  - (* a run opens at [i] *)
    repeat split; try assumption; try (unfold len; lia).
    intros p Hp. replace p with i by lia. congruence.
  - (* the open run closes at [i] *)
    destruct Hopen as (Hst & Hin & Hleft).
    assert (Hnew : maximalRun check s (Block.mk start (i - start))).
    { unfold maximalRun, covers; simpl.
      split; [lia|]. split; [lia|]. split; [unfold len; lia|].
      split; [intros p Hp; apply Hin; lia|]. split; [exact Hleft|].
      right. replace (start + (i - start)) with i by lia. congruence. }
    repeat split; try (unfold len; lia).
    + apply Forall_app; split; [exact Hmax|]. constructor; [exact Hnew|constructor].
    + apply Forall_app; split.
      * eapply Forall_impl; [exact Hend|]. simpl. intros; lia.
      * constructor; [simpl; lia|constructor].
    + apply StronglySorted_app. split; [|split; [exact Hsort|]].
      * intros b b' Hb Hb'. apply list_elem_of_singleton in Hb'. subst b'.
        unfold apart; simpl. rewrite Forall_forall in Hend. apply Hend. exact Hb.
      * repeat constructor.
    + intros p Hp Hcp. apply Exists_app.
      destruct (Z.lt_ge_cases p start) as [Hlo|Hhi].
      * left. apply Hcov; [lia|exact Hcp].
      * right. constructor. unfold covers; simpl.
        assert (p <> i) by (intros ->; congruence). lia.
    + right. replace (i + 1 - 1) with i by lia. congruence.
  - (* no run is open and none opens *)
    repeat split; try assumption; try (unfold len; lia).
    + eapply Forall_impl; [exact Hend|]. simpl. intros; lia.
    + intros p Hp Hcp. apply Hcov; [|exact Hcp].
      assert (p <> i) by (intros ->; congruence). lia.
    + right. replace (i + 1 - 1) with i by lia. congruence.
Qed.

Lemma mapBlocksLoop_inv check s : forall rest i blocks start isLast,
  0 <= i -> rest = drop (Z.to_nat i) s ->
  scanInv check s i blocks start isLast ->
  exists blocks' start' isLast',
    mapBlocksLoop check rest i blocks start isLast = (blocks', start', isLast')
    /\ scanInv check s (len s) blocks' start' isLast'.
Proof.
  induction rest as [|c rest IH]; intros i blocks start isLast Hi Hrest Hinv.
  - simpl. exists blocks, start, isLast. split; [reflexivity|].
    assert (i = len s).
    { destruct Hinv as (Hr & _). apply (f_equal length) in Hrest.
      rewrite length_drop in Hrest. simpl in Hrest. unfold len in *. lia. }
    subst i. exact Hinv.
  - assert (Hc : s !! Z.to_nat i = Some c).
    { pose proof (lookup_drop s (Z.to_nat i) 0) as Hl.
      rewrite <- Hrest in Hl. simpl in Hl. rewrite Nat.add_0_r in Hl. congruence. }
    cbn [mapBlocksLoop]. apply IH; [lia| |].
    + replace (Z.to_nat (i + 1)) with (S (Z.to_nat i)) by lia.
      rewrite (drop_S _ _ _ Hc) in Hrest. congruence.
    + pose proof (scanInv_step check s i blocks start isLast c Hc Hi Hinv) as Hstep.
      destruct (check c), isLast; exact Hstep.
Qed.

(** C9 -- run detection: [mapBlocks s check] lists exactly the maximal runs
    of characters of [s] satisfying [check]: every Block is a maximal run,
    the Blocks are in ascending order and apart from one another, and a
    position of [s] is covered by a Block if and only if its character
    satisfies [check] (a run open at the end of [s] is closed there). *)
Theorem mapBlocks_maximal_runs (s : list Z) (check : Z -> bool) :
  Forall (maximalRun check s) (mapBlocks s check)
  /\ StronglySorted apart (mapBlocks s check)
  /\ (forall p, 0 <= p < len s ->
        Exists (fun b => covers b p) (mapBlocks s check)
        <-> check (s !!! Z.to_nat p) = true)
  /\ (forall p, Exists (fun b => covers b p) (mapBlocks s check) -> 0 <= p < len s).
Proof.
  assert (Hinit : scanInv check s 0 [] 0 false).
  { unfold scanInv. pose proof (len_nonneg s).
    repeat split; try constructor; try lia. }
  destruct (mapBlocksLoop_inv check s s 0 [] 0 false) as
    (blocks & start & isLast & Hloop & Hinv); [lia|reflexivity|exact Hinit|].
  unfold mapBlocks. rewrite Hloop.
  destruct Hinv as (Hrange & Hmax & Hend & Hsort & Hcov & Hopen).
  assert (Hall : forall bs, Forall (maximalRun check s) bs ->
     (forall p, Exists (fun b => covers b p) bs -> 0 <= p < len s)
     /\ (forall p, Exists (fun b => covers b p) bs -> check (s !!! Z.to_nat p) = true)).
  { intros bs Hbs. split; intros p Hex; apply Exists_exists in Hex as (b & Hb & Hp);
      rewrite Forall_forall in Hbs; destruct (Hbs b Hb) as (? & ? & ? & Hin & _).
    - unfold covers in Hp. lia.
    - apply Hin. exact Hp. }
  destruct isLast.
  - destruct Hopen as (Hst & Hin & Hleft).
    assert (Hnew : maximalRun check s (Block.mk start (len s - start))).
    { unfold maximalRun, covers; simpl.
      split; [lia|]. split; [lia|]. split; [lia|].
      split; [intros p Hp; apply Hin; lia|]. split; [exact Hleft|left; lia]. }
    assert (Hmax' : Forall (maximalRun check s) (blocks ++ [Block.mk start (len s - start)])).
    { apply Forall_app; split; [exact Hmax|]. constructor; [exact Hnew|constructor]. }
    destruct (Hall _ Hmax') as [Hin1 Hin2].
    repeat split; try assumption.
    + apply StronglySorted_app. split; [|split; [exact Hsort|repeat constructor]].
      intros b b' Hb Hb'. apply list_elem_of_singleton in Hb'. subst b'.
      unfold apart; simpl. rewrite Forall_forall in Hend. apply Hend. exact Hb.
    + apply Hin2.
    + intros Hcp. apply Exists_app.
      destruct (Z.lt_ge_cases p start) as [Hlo|Hhi].
      * left. apply Hcov; [lia|exact Hcp].
      * right. constructor. unfold covers; simpl. lia.
    + apply Hin1; assumption.
    + apply Hin1; assumption.
  - destruct (Hall _ Hmax) as [Hin1 Hin2].
    repeat split; try assumption.
    + apply Hin2.
    + intros Hcp. apply Hcov; assumption.
    + apply Hin1; assumption.
    + apply Hin1; assumption.
Qed.

(** ** Range clamping and the degenerate range *)

Ltac munfold :=
  unfold bind, ret, fail, panic, lift, getIndex, getHdr, setHdr, setIndex, seek, read in *.

Ltac mcase :=
  repeat match goal with
         | |- context [match ?x with _ => _ end] =>
             lazymatch x with
             | context [match _ with _ => _ end] => fail
             | _ => destruct x eqn:?; simpl in *; try discriminate; try congruence
             end
         end.

(** The record [ReadRange] parses has the length [Length] reports. *)
Lemma parseRecord_dnaSize name r rec r1 :
  parseRecord name true r = (Ok rec, r1) ->
  exists r2, Length name r = (Ok (dnaSize rec), r2).
Proof.
  unfold Length, parseRecord, wrapErr. munfold. simpl.
  destruct (index_ r !! name) as [offset|]; [|discriminate].
  destruct (Stream.Read _ _) as [[[buf n] eof] st]. simpl.
  destruct eof; [discriminate|].
  intros H. eexists.
  repeat match type of H with
         | context [match ?x with _ => _ end] => destruct x eqn:?; simpl in H; try discriminate
         end.
  injection H as <- <-. simpl. reflexivity.
Qed.

Lemma clampEnd_over n e : e > n -> clampEnd n e = clampEnd n n.
Proof.
  intros He. unfold clampEnd.
  replace (e >? n) with true by (symmetry; apply Z.gtb_lt; lia).
  rewrite Z.gtb_ltb, Z.ltb_irrefl. reflexivity.
Qed.

Lemma clampEnd_nonpos n e : e <= 0 -> clampEnd n e = clampEnd n n.
Proof.
  intros He. unfold clampEnd.
  rewrite (Z.gtb_ltb n n), Z.ltb_irrefl.
  destruct (e >? n) eqn:Hgt; [reflexivity|].
  replace ((e =? 0) || (e <? 0)) with true.
  - destruct ((n =? 0) || (n <? 0)); reflexivity.
  - symmetry. apply orb_true_iff.
    destruct (Z.eq_dec e 0); [left; apply Z.eqb_eq|right; apply Z.ltb_lt]; lia.
Qed.

(** C6 -- range clamping: a negative [start] reads as [start = 0]; an [end]
    beyond the sequence length, and an [end] that is zero or negative, read
    as [end = dnaSize], the length [Length] reports for the name.  Results
    and Reader states are the same. *)
Theorem ReadRange_clamping (r : Reader) (name : list Z) (start end_ k n : Z)
    (r' : Reader) :
  Length name r = (Ok n, r') ->
  (start < 0 -> ReadRange name start end_ r = ReadRange name 0 end_ r)
  /\ (end_ > n -> ReadRange name k end_ r = ReadRange name k n r)
  /\ (end_ <= 0 -> ReadRange name k end_ r = ReadRange name k n r).
Proof.
  intros Hlen.
  assert (Hn : forall rec r1, parseRecord name true r = (Ok rec, r1) -> dnaSize rec = n).
  { intros rec r1 Hrec. destruct (parseRecord_dnaSize _ _ _ _ Hrec) as [r2 Hr2]. congruence. }
  unfold ReadRange, bind.
  destruct (parseRecord name true r) as [[rec|e|] r1]; [|auto|auto].
  rewrite (Hn rec r1 eq_refl). repeat split.
  - intros Hs. unfold clampStart. replace (start <? 0) with true
      by (symmetry; apply Z.ltb_lt; lia). reflexivity.
  - intros He. rewrite clampEnd_over by exact He. reflexivity.
  - intros He. rewrite clampEnd_nonpos by exact He. reflexivity.
Qed.

(** The degenerate range is refused. *)
Lemma ReadRange_degenerate r name start end_ rec r1 :
  parseRecord name true r = (Ok rec, r1) ->
  clampEnd (dnaSize rec) end_ <= clampStart start ->
  ReadRange name start end_ r
  = (Err (InvalidRange (clampStart start) (clampEnd (dnaSize rec) end_)), r1).
Proof.
  intros Hrec Hle. unfold ReadRange, bind. rewrite Hrec. unfold readWindow.
  replace (clampEnd (dnaSize rec) end_ <=? clampStart start) with true
    by (symmetry; apply Z.leb_le; exact Hle).
  reflexivity.
Qed.

Lemma clampEnd_5 n : clampEnd n 5 <= 5.
Proof.
  unfold clampEnd. destruct (Z.gtb_spec 5 n); simpl.
  - destruct ((n =? 0) || (n <? 0)); lia.
  - lia.
Qed.

(** [parseRecord] returns a record or an error; it does not panic. *)
Lemma readUint32s_no_panic e n : forall buf r r', readUint32s e n buf r <> (Panic, r').
Proof.
  induction n as [|n IH]; intros buf r r'; simpl; munfold; [discriminate|].
  destruct (Stream.Read _ _) as [[[b k] eof] st]. simpl.
  destruct eof; [discriminate|].
  match goal with |- context [readUint32s e n ?b ?x] =>
    pose proof (IH b x) as Hn; destruct (readUint32s e n b x) as [[[vs b']|?|] ?] end;
    simpl; try discriminate.
  exfalso. eapply Hn. reflexivity.
Qed.

Lemma parseBlockCoords_no_panic r r' : parseBlockCoords r <> (Panic, r').
Proof.
  unfold parseBlockCoords. munfold.
  destruct (Stream.Read _ _) as [[[b k] eof] st]. simpl.
  destruct eof; [discriminate|].
  match goal with |- context [readUint32s ?e ?n ?b ?x] =>
    pose proof (readUint32s_no_panic e n b x) as Hn;
    destruct (readUint32s e n b x) as [[[vs b']|?|] ?] end; simpl; try discriminate.
  2:{ exfalso. eapply Hn. reflexivity. }
  match goal with |- context [readUint32s ?e ?n ?b ?x] =>
    pose proof (readUint32s_no_panic e n b x) as Hn';
    destruct (readUint32s e n b x) as [[[vs' b'']|?|] ?] end; simpl; try discriminate.
  exfalso. eapply Hn'. reflexivity.
Qed.

Lemma parseRecord_no_panic name coords r r' : parseRecord name coords r <> (Panic, r').
Proof.
  unfold parseRecord, wrapErr. munfold. simpl.
  destruct (index_ r !! name) as [offset|]; [|discriminate].
  destruct (Stream.Read _ _) as [[[buf n] eof] st]. simpl.
  destruct eof; [discriminate|]. destruct coords; [|discriminate].
  match goal with |- context [parseBlockCoords ?x] =>
    pose proof (parseBlockCoords_no_panic x) as Hn;
    destruct (parseBlockCoords x) as [[nb|?|] ra] end; simpl; try discriminate.
  2:{ exfalso. eapply Hn. reflexivity. }
  match goal with |- context [parseBlockCoords ?x] =>
    pose proof (parseBlockCoords_no_panic x) as Hn';
    destruct (parseBlockCoords x) as [[mb|?|] rb] end; simpl; try discriminate.
  2:{ exfalso. eapply Hn'. reflexivity. }
  destruct (Stream.Read _ _) as [[[buf' n'] eof'] st']. simpl.
  destruct eof'; [discriminate|].
  destruct (negb _); discriminate.
Qed.

(** C7 (as amended) -- the degenerate range: when the record of [name]
    parses and [end <= start] holds after clamping, [ReadRange] fails with
    the invalid-range error and returns no sequence; [ReadRange name 5 5]
    fails on every Reader; and [GenomicInterval] with a non-blank
    chromosome and [start = end] returns the empty string with no error and
    leaves the Reader untouched (it does not call [ReadRange]). *)
Theorem degenerate_range (r : Reader) (name chr : list Z) (start end_ : Z) :
  (forall rec r1, parseRecord name true r = (Ok rec, r1) ->
     clampEnd (dnaSize rec) end_ <= clampStart start ->
     ReadRange name start end_ r
     = (Err (InvalidRange (clampStart start) (clampEnd (dnaSize rec) end_)), r1))
  /\ (exists e, run (ReadRange name 5 5) r = Err e)
  /\ (chr <> [] -> GenomicInterval chr start start r = (Ok [], r)).
Proof.
  repeat split.
  - intros rec r1. apply ReadRange_degenerate.
  - unfold run. destruct (parseRecord name true r) as [[rec|e|] r1] eqn:Hrec.
    + rewrite (ReadRange_degenerate r name 5 5 rec r1 Hrec).
      * simpl. eauto.
      * unfold clampStart. simpl. apply clampEnd_5.
    + unfold ReadRange, bind. rewrite Hrec. simpl. eauto.
    + exfalso. eapply parseRecord_no_panic. exact Hrec.
  - intros Hchr. unfold GenomicInterval.
    rewrite bool_decide_eq_false_2 by exact Hchr.
    rewrite Z.eqb_refl. reflexivity.
Qed.

(** C7, the claim as stated, fails: with a blank chromosome
    [GenomicInterval] returns an error although [start = end]. *)
Lemma GenomicInterval_blank_counterexample :
  GenomicInterval [] 5 5 emptyReader = (Err BlankChromosome, emptyReader)
  /\ ~ (forall r chr start, GenomicInterval chr start start r = (Ok [], r)).
Proof.
  split; [reflexivity|].
  intros H. specialize (H emptyReader [] 5). discriminate.
Qed.

Lemma ReadRange_clamping_witness :
  Length chr1 (readerOf tenAFile) = (Ok 10, snd (Length chr1 (readerOf tenAFile)))
  /\ (-3 < 0 -> ReadRange chr1 (-3) 50 (readerOf tenAFile)
                = ReadRange chr1 0 50 (readerOf tenAFile))
  /\ (50 > 10 -> ReadRange chr1 1 50 (readerOf tenAFile)
                 = ReadRange chr1 1 10 (readerOf tenAFile))
  /\ (50 <= 0 -> ReadRange chr1 1 50 (readerOf tenAFile)
                 = ReadRange chr1 1 10 (readerOf tenAFile)).
Proof.
  split; [vm_compute; reflexivity|].
  apply (ReadRange_clamping (readerOf tenAFile) chr1 (-3) 50 1 10
           (snd (Length chr1 (readerOf tenAFile)))).
  vm_compute. reflexivity.
Defined.

(** ** The overlays *)

(** C5 -- the masked-case overlay does not stop at the buffer boundary: on
    the file the package's own Writer produces for "AAAAaa", reading the
    range [0, 4) indexes the output at its length and panics, because the
    masked block starts exactly at [end].  The unknown-base overlay, which
    tests the index before the write, reads the same range of "AAAANN". *)
Theorem mBlocks_overlay_out_of_range :
  (w <-r Add NewWriter chr1 (bytes_of "AAAAaa");
   file <-r WriteTo w [chr1];
   onFile file (ReadRange chr1 0 4)) = Panic
  /\ mLoop 2 (bytes_of "AAAA") 4 = Panic
  /\ (w <-r Add NewWriter chr1 (bytes_of "AAAANN");
      file <-r WriteTo w [chr1];
      onFile file (ReadRange chr1 0 4)) = Ok (bytes_of "AAAA").
Proof. repeat split; vm_compute; reflexivity. Qed.

(** The loop of the unknown-base overlay writes 'N' at the positions
    [idx, idx + fuel) that lie inside the output, and nowhere else. *)
Lemma nLoop_spec fuel : forall seq idx,
  0 <= idx ->
  exists seq', nLoop fuel seq idx = Ok seq'
    /\ length seq' = length seq
    /\ forall i : nat, (i < length seq)%nat ->
         seq' !! i = if bool_decide (idx <= Z.of_nat i < idx + Z.of_nat fuel)
                     then Some BASE_N else seq !! i.
Proof.
  induction fuel as [|fuel IH]; intros seq idx Hidx.
  - exists seq. repeat split. intros i Hi.
    rewrite bool_decide_eq_false_2 by lia. reflexivity.
  - cbn [nLoop]. destruct (Z.geb_spec idx (len seq)) as [Hge|Hlt].
    + exists seq. repeat split. intros i Hi.
      rewrite bool_decide_eq_false_2 by (unfold len in Hge; lia). reflexivity.
    + rewrite assign_ok by lia. simpl rbind.
      destruct (IH (<[Z.to_nat idx := BASE_N]> seq) (idx + 1)) as (seq' & -> & Hl & Hs); [lia|].
      rewrite length_insert in Hl. exists seq'. repeat split; [exact Hl|].
      intros i Hi. rewrite Hs by (rewrite length_insert; exact Hi).
      destruct (decide (Z.to_nat idx = i)) as [<-|Hne].
      * rewrite list_lookup_insert_eq by (unfold len in Hlt; lia).
        rewrite (bool_decide_eq_true_2 (idx <= _ < idx + _)) by lia.
        destruct (bool_decide _); reflexivity.
      * rewrite list_lookup_insert_ne by exact Hne.
        destruct (bool_decide (idx + 1 <= _ < _)) eqn:E1.
        -- apply bool_decide_eq_true_1 in E1.
           rewrite bool_decide_eq_true_2 by lia. reflexivity.
        -- apply bool_decide_eq_false_1 in E1.
           rewrite bool_decide_eq_false_2 by lia. reflexivity.
Qed.

(** The unknown-base pass over all blocks: position [i] of the output is
    'N' exactly when some block covers the absolute position [start + i]. *)
Lemma overlay_nLoop_spec blocks start end_ : forall seq,
  len seq = end_ - start ->
  exists seq', overlay nLoop blocks start end_ seq = Ok seq'
    /\ length seq' = length seq
    /\ forall i : nat, (i < length seq)%nat ->
         seq' !! i = if existsb (fun b => coversb b (start + Z.of_nat i)) blocks
                     then Some BASE_N else seq !! i.
Proof.
  induction blocks as [|b blocks IH]; intros seq Hlen.
  - exists seq. repeat split.
  - cbn [overlay existsb].
    destruct ((Block.Length b <? start) || (Block.start b >? end_)) eqn:Hskip.
    + destruct (IH seq Hlen) as (seq' & -> & Hl & Hs).
      exists seq'. repeat split; [exact Hl|]. intros i Hi. rewrite Hs by exact Hi.
      replace (coversb b (start + Z.of_nat i)) with false; [reflexivity|].
      symmetry. unfold coversb. apply andb_false_iff.
      apply orb_true_iff in Hskip. unfold Block.Length in Hskip.
      rewrite Z.ltb_lt, Z.gtb_ltb, Z.ltb_lt in Hskip. unfold len in Hlen.
      rewrite Z.leb_gt, Z.ltb_ge. lia.
    + set (idx := Block.start b - start).
      set (cnt' := if idx <? 0 then Block.count b + idx else Block.count b).
      set (idx' := if idx <? 0 then 0 else idx).
      assert (Hidx' : 0 <= idx') by (unfold idx'; destruct (Z.ltb_spec idx 0); lia).
      destruct (nLoop_spec (Z.to_nat cnt') seq idx' Hidx') as (seq1 & -> & Hl1 & Hs1).
      simpl rbind.
      destruct (IH seq1) as (seq' & -> & Hl & Hs); [unfold len in *; lia|].
      exists seq'. repeat split; [lia|]. intros i Hi.
      rewrite Hs by lia. rewrite Hs1 by exact Hi.
      destruct (existsb _ blocks); [rewrite orb_true_r; reflexivity|].
      rewrite orb_false_r. unfold coversb.
      destruct (bool_decide _) eqn:E.
      * apply bool_decide_eq_true_1 in E.
        replace ((Block.start b <=? start + Z.of_nat i)
                 && (start + Z.of_nat i <? Block.start b + Block.count b)) with true;
          [reflexivity|].
        symmetry. apply andb_true_iff. rewrite Z.leb_le, Z.ltb_lt.
        unfold idx', cnt', idx in *. destruct (Z.ltb_spec (Block.start b - start) 0); lia.
      * apply bool_decide_eq_false_1 in E.
        replace ((Block.start b <=? start + Z.of_nat i)
                 && (start + Z.of_nat i <? Block.start b + Block.count b)) with false;
          [reflexivity|].
        symmetry. apply andb_false_iff. rewrite Z.leb_gt, Z.ltb_ge.
        unfold idx', cnt', idx in *. destruct (Z.ltb_spec (Block.start b - start) 0); lia.
Qed.

(** C4 -- the unknown-base overlay: over the window [start, end) the pass
    over [nBlocks] succeeds, keeps the length of the output and sets
    position [i] to 'N' exactly when some block covers the absolute position
    [start + i]; every other position keeps its base.  On ten bases, all A,
    with the one block [{start: 2, count: 3}]: [ReadRange 0 10] has exactly
    positions 2-4 set to 'N', and [ReadRange 3 6] returns three characters,
    'N' at 0-1 and the original base at 2. *)
Theorem nBlocks_overlay_correct (blocks : list Block.t) (start end_ : Z) (seq : list Z) :
  len seq = end_ - start ->
  (exists seq', overlay nLoop blocks start end_ seq = Ok seq'
     /\ len seq' = len seq
     /\ forall i, 0 <= i < len seq ->
          seq' !!! Z.to_nat i
          = if existsb (fun b => coversb b (start + i)) blocks
            then BASE_N else seq !!! Z.to_nat i)
  /\ onFile tenAFile (ReadRange chr1 0 10) = Ok (bytes_of "AANNNAAAAA")
  /\ onFile tenAFile (ReadRange chr1 3 6) = Ok (bytes_of "NNA").
Proof.
  intros Hlen. split; [|split; vm_compute; reflexivity].
  destruct (overlay_nLoop_spec blocks start end_ seq Hlen) as (seq' & Hov & Hl & Hs).
  exists seq'. split; [exact Hov|]. split; [unfold len; lia|].
  intros i Hi. unfold len in Hi.
  specialize (Hs (Z.to_nat i)). rewrite Z2Nat.id in Hs by lia.
  rewrite !list_lookup_total_alt. rewrite Hs by lia.
  destruct (existsb _ blocks); reflexivity.
Qed.

Lemma nBlocks_overlay_correct_witness :
  (exists seq', overlay nLoop [Block.mk 2 3] 3 6 (bytes_of "AAA") = Ok seq'
     /\ len seq' = len (bytes_of "AAA")
     /\ forall i, 0 <= i < len (bytes_of "AAA") ->
          seq' !!! Z.to_nat i
          = if existsb (fun b => coversb b (3 + i)) [Block.mk 2 3]
            then BASE_N else bytes_of "AAA" !!! Z.to_nat i)
  /\ onFile tenAFile (ReadRange chr1 0 10) = Ok (bytes_of "AANNNAAAAA")
  /\ onFile tenAFile (ReadRange chr1 3 6) = Ok (bytes_of "NNA").
Proof.
  apply (nBlocks_overlay_correct [Block.mk 2 3] 3 6 (bytes_of "AAA")).
  reflexivity.
Defined.

(** ** Reading and decoding the packed span *)

Lemma flat_map_decode4_len (l : list Z) : length (flat_map decode4 l) = (4 * length l)%nat.
Proof.
  induction l as [|b l IH]; [reflexivity|].
  change (flat_map decode4 (b :: l)) with (decode4 b ++ flat_map decode4 l).
  rewrite length_app, IH, decode4_length. simpl. lia.
Qed.

(** [decodeLoop] writes the decoding of [buf[k .. k+kleft)] over
    [dna[4i .. 4(i+kleft))]. *)
Lemma decodeLoop_spec kleft : forall k buf dna i,
  0 <= k -> k + Z.of_nat kleft <= len buf ->
  0 <= i -> 4 * (i + Z.of_nat kleft) <= len dna ->
  Forall is_byte (take kleft (drop (Z.to_nat k) buf)) ->
  decodeLoop kleft k buf dna i
  = Ok (take (Z.to_nat (4 * i)) dna
        ++ flat_map decode4 (take kleft (drop (Z.to_nat k) buf))
        ++ drop (Z.to_nat (4 * (i + Z.of_nat kleft))) dna,
        i + Z.of_nat kleft).
Proof.
  induction kleft as [|kleft IH]; intros k buf dna i Hk Hkl Hi Hil Hbytes.
  - simpl. rewrite Z.add_0_r, take_drop. reflexivity.
  - cbn [decodeLoop].
    destruct (lookup_lt_is_Some_2 buf (Z.to_nat k)) as [b Hb]; [unfold len in Hkl; lia|].
    rewrite (index_ok _ _ b) by (lia || exact Hb). cbn [rbind].
    rewrite (drop_S _ _ _ Hb) in Hbytes |- *. cbn [take] in Hbytes |- *.
    apply Forall_cons in Hbytes as [Hbyte Hbytes].
    rewrite unpackLoop_decode4 by (try exact Hbyte; lia). cbn [rbind].
    set (dna1 := take (Z.to_nat (i * 4)) dna ++ decode4 b ++ drop (Z.to_nat (i * 4) + 4) dna).
    assert (Hl1 : length dna1 = length dna).
    { unfold dna1. rewrite !length_app, length_take, length_drop, decode4_length.
      unfold len in Hil. lia. }
    replace (S (Z.to_nat k)) with (Z.to_nat (k + 1)) in * by lia.
    rewrite IH; try lia; try exact Hbytes; try (unfold len in *; lia).
    f_equal. f_equal; [|lia].
    change (flat_map decode4 (b :: ?l)) with (decode4 b ++ flat_map decode4 l).
    rewrite <- !app_assoc. unfold dna1.
    assert (Hlt : length (take (Z.to_nat (i * 4)) dna) = Z.to_nat (i * 4))
      by (rewrite length_take; unfold len in Hil; lia).
    replace (Z.to_nat (4 * (i + 1))) with (Z.to_nat (i * 4) + 4)%nat by lia.
    rewrite take_app_add' by (symmetry; exact Hlt).
    rewrite take_app_length' by reflexivity.
    replace (Z.to_nat (4 * i)) with (Z.to_nat (i * 4)) by lia.
    rewrite <- !app_assoc. f_equal. f_equal. f_equal.
    replace (Z.to_nat (4 * (i + 1 + Z.of_nat kleft)))
      with (Z.to_nat (i * 4) + (4 + 4 * kleft))%nat by lia.
    rewrite drop_app_add' by (symmetry; exact Hlt).
    rewrite drop_app_add' by reflexivity.
    rewrite drop_drop. f_equal. lia.
Qed.

Lemma slice_ok s lo hi :
  0 <= lo <= hi -> hi <= len s ->
  slice s lo hi = Ok (take (Z.to_nat (hi - lo)) (drop (Z.to_nat lo) s)).
Proof.
  intros H1 H2. unfold slice.
  replace ((0 <=? lo) && (lo <=? hi) && (hi <=? len s)) with true; [reflexivity|].
  symmetry. rewrite !andb_true_iff, !Z.leb_le. lia.
Qed.

(** With the whole span in the stream, the chunk loop decodes it into [dna]
    and leaves the cursor after it. *)
Lemma readChunks_ok cleft : forall size buf dna i data pos h ix,
  len buf = defaultBufSize ->
  0 <= i <= size -> (i = size \/ i mod defaultBufSize = 0) ->
  chunksLeft cleft (size - i) ->
  len dna = 4 * size ->
  0 <= pos -> pos + (size - i) <= len data ->
  Forall is_byte (take (Z.to_nat (size - i)) (drop (Z.to_nat pos) data)) ->
  readChunks cleft size buf dna i (mkReader (Stream.mk data pos) h ix)
  = (Ok (take (Z.to_nat (4 * i)) dna
         ++ flat_map decode4 (take (Z.to_nat (size - i)) (drop (Z.to_nat pos) data))),
     mkReader (Stream.mk data (pos + (size - i))) h ix).
Proof.
  unfold chunksLeft, defaultBufSize.
  induction cleft as [|cleft IH];
    intros size buf dna i data pos h ix Hbuf Hi Hmod Hleft Hdna Hpos Hdata Hbytes.
  - assert (i = size) by lia. subst i. cbn [readChunks]. unfold ret.
    rewrite Z.sub_diag, Z.add_0_r. simpl take at 2. simpl flat_map. rewrite app_nil_r.
    rewrite take_ge by (unfold len in Hdna; lia). reflexivity.
  - assert (Hi' : i < size) by lia.
    assert (Hm : i mod 4096 = 0) by (destruct Hmod; [lia|assumption]).
    cbn [readChunks]. unfold defaultBufSize.
    set (sz := if i + 4096 >? size then Z.rem size 4096 else 4096).
    assert (Hsz : sz = Z.min 4096 (size - i)).
    { unfold sz. destruct (Z.gtb_spec (i + 4096) size) as [Hgt|Hle]; [|lia].
      rewrite Z.rem_mod_nonneg by lia.
      replace size with ((size - i) + i) at 1 by lia.
      rewrite <- Zplus_mod_idemp_r, Hm, Z.add_0_r, Z.mod_small by lia. lia. }
    assert (Hsz0 : 0 < sz <= 4096) by lia.
    unfold bind at 1. unfold lift at 1.
    rewrite slice_ok by lia. rewrite Z.sub_0_r.
    change (Z.to_nat 0) with 0%nat. rewrite drop_0.
    unfold bind at 1. unfold read. cbn [reader hdr index_]. unfold Stream.Read.
    cbn [Stream.i Stream.s].
    replace (pos >=? len data) with false by (symmetry; rewrite Z.geb_leb; apply Z.leb_gt; lia).
    set (src := drop (Z.to_nat pos) data).
    assert (Hsrc : len src = len data - pos)
      by (unfold src, len; rewrite length_drop; unfold len in Hdata; lia).
    assert (Hw : len (take (Z.to_nat sz) buf) = sz)
      by (unfold len; rewrite length_take; unfold len in Hbuf; lia).
    rewrite Hw. replace (Z.min sz (len src)) with sz by lia.
    rewrite Z.eqb_refl. simpl negb. cbv iota.
    rewrite (drop_ge (take (Z.to_nat sz) buf)) by (unfold len in Hw; lia).
    rewrite app_nil_r.
    set (buf' := take (Z.to_nat sz) src ++ drop (Z.to_nat sz) buf).
    assert (Htl : length (take (Z.to_nat sz) src) = Z.to_nat sz)
      by (rewrite length_take; unfold len in *; lia).
    assert (Hbuf' : len buf' = 4096).
    { unfold buf', len. rewrite length_app, Htl, length_drop. unfold len in Hbuf. lia. }
    assert (Htk : take (Z.to_nat sz) (drop (Z.to_nat 0) buf') = take (Z.to_nat sz) src).
    { change (Z.to_nat 0) with 0%nat. rewrite drop_0.
      unfold buf'. apply take_app_length'. lia. }
    assert (Hdec : decodeLoop (Z.to_nat sz) 0 buf' dna i
                   = Ok (take (Z.to_nat (4 * i)) dna
                         ++ flat_map decode4 (take (Z.to_nat sz) src)
                         ++ drop (Z.to_nat (4 * (i + sz))) dna, i + sz)).
    { rewrite decodeLoop_spec.
      - rewrite Htk, Z2Nat.id by lia. reflexivity.
      - lia.
      - rewrite Z2Nat.id by lia. lia.
      - lia.
      - rewrite Z2Nat.id by lia. lia.
      - rewrite Htk. replace (Z.to_nat sz) with (Z.to_nat sz `min` Z.to_nat (size - i))%nat by lia.
        rewrite <- take_take. apply Forall_take. exact Hbytes. }
    unfold bind at 1. unfold lift at 1. rewrite Hdec. cbv beta iota.
    set (dna1 := take (Z.to_nat (4 * i)) dna ++ flat_map decode4 (take (Z.to_nat sz) src)
                 ++ drop (Z.to_nat (4 * (i + sz))) dna).
    assert (Hd1 : len dna1 = 4 * size).
    { unfold dna1, len. rewrite !length_app, length_take, length_drop, flat_map_decode4_len, Htl.
      unfold len in Hdna. lia. }
    cbn [negb]. cbv beta iota. rewrite IH; try assumption; try lia.
    3:{ replace (Z.to_nat (pos + sz)) with (Z.to_nat pos + Z.to_nat sz)%nat by lia.
        rewrite <- (drop_drop data). fold src.
        replace (Z.to_nat (size - i)) with (Z.to_nat sz + Z.to_nat (size - (i + sz)))%nat
          in Hbytes by lia.
        rewrite <- take_take_drop in Hbytes. apply Forall_app in Hbytes. apply Hbytes. }
    2:{ destruct (Z.eq_dec sz 4096) as [E|E]; [right|left; lia].
        rewrite E. rewrite <- Zplus_mod_idemp_l, Hm. reflexivity. }
    f_equal.
    + f_equal.
      assert (Hlt : length (take (Z.to_nat (4 * i)) dna) = Z.to_nat (4 * i))
        by (rewrite length_take; unfold len in Hdna; lia).
      unfold dna1.
      replace (Z.to_nat (4 * (i + sz))) with (Z.to_nat (4 * i) + 4 * Z.to_nat sz)%nat by lia.
      rewrite take_app_add' by (symmetry; exact Hlt).
      rewrite take_app_length' by (rewrite flat_map_decode4_len, Htl; reflexivity).
      rewrite <- app_assoc. f_equal.
      rewrite <- flat_map_app. f_equal.
      replace (Z.to_nat (pos + sz)) with (Z.to_nat pos + Z.to_nat sz)%nat by lia.
      rewrite <- (drop_drop data). fold src. rewrite take_take_drop. f_equal. lia.
    + f_equal. f_equal. lia.
Qed.

Lemma packedSize_ceilDiv4 n : packedSize n = ceilDiv4 n.
Proof.
  rewrite packedSize_div. unfold ceilDiv4.
  pose proof (Z.div_mod (n + 3) 4). pose proof (Z.mod_pos_bound (n + 3) 4).
  pose proof (Z.div_mod (- n) 4). pose proof (Z.mod_pos_bound (- n) 4). lia.
Qed.

Lemma chunks_chunksLeft size :
  0 <= size ->
  chunksLeft (Z.to_nat (if Z.rem size defaultBufSize >? 0
                        then Z.quot size defaultBufSize + 1
                        else Z.quot size defaultBufSize)) size.
Proof.
  intros Hs. unfold chunksLeft, defaultBufSize.
  rewrite Z.rem_mod_nonneg, Z.quot_div_nonneg by lia.
  pose proof (Z.div_mod size 4096). pose proof (Z.mod_pos_bound size 4096).
  assert (0 <= size / 4096) by (apply Z.div_pos; lia).
  destruct (Z.gtb_spec (size mod 4096) 0); lia.
Qed.

(** [ReadRange] after the range check: the seek, the span read, the
    unpacking and the slice, in closed form. *)
Lemma readWindow_spec rec start end_ data pos h ix :
  0 <= start < end_ -> 0 <= pos ->
  let adj := if start mod 4 =? 0 then 0 else 1 in
  let shift := ceilDiv4 start - adj in
  let size := ceilDiv4 (end_ - start) + adj in
  let span := take (Z.to_nat size) (drop (Z.to_nat (pos + shift)) data) in
  pos + shift + size <= len data ->
  Forall is_byte span ->
  readWindow rec start end_ (mkReader (Stream.mk data pos) h ix)
  = (seq <-r overlay nLoop (nBlocks rec) start end_
               (take (Z.to_nat (end_ - start))
                  (drop (Z.to_nat (start mod 4)) (flat_map decode4 span)));
     overlay mLoop (mBlocks rec) start end_ seq,
     mkReader (Stream.mk data (pos + shift + size)) h ix).
Proof.
  intros Hse Hpos adj shift size span Hdata Hbytes.
  assert (Es : shift = packedSize start - adj)
    by (unfold shift; rewrite packedSize_ceilDiv4; reflexivity).
  assert (Ez : size = packedSize (end_ - start) + adj)
    by (unfold size; rewrite packedSize_ceilDiv4; reflexivity).
  clearbody shift size.
  pose proof (packedSize_ceil start) as Hc1.
  pose proof (packedSize_ceil (end_ - start)) as Hc2.
  pose proof (Z.mod_pos_bound start 4) as Hm.
  pose proof (Z.div_mod start 4) as Hdm.
  assert (Hrem : Z.rem start 4 = start mod 4) by (apply Z.rem_mod_nonneg; lia).
  assert (Hadj : (if negb (Z.rem start 4 =? 0) then 1 else 0) = adj).
  { rewrite Hrem. unfold adj. destruct (start mod 4 =? 0); reflexivity. }
  assert (Hadj01 : (adj = 0 /\ start mod 4 = 0) \/ (adj = 1 /\ start mod 4 <> 0)).
  { unfold adj. destruct (Z.eqb_spec (start mod 4) 0); [left|right]; split; lia. }
  assert (Hshift : 0 <= shift) by lia.
  assert (Hsize : 1 <= size) by lia.
  unfold readWindow.
  replace (end_ <=? start) with false by (symmetry; apply Z.leb_gt; lia).
  set (k := fun size' : Z => bind (readChunks _ size' _ _ 0) _).
  assert (Hseek : bind (if start >? 0
                then do _ <- seek (if negb (Z.rem start 4 =? 0)
                                    then packedSize start - 1 else packedSize start) 1;
                     ret (if negb (Z.rem start 4 =? 0)
                          then packedSize (end_ - start) + 1 else packedSize (end_ - start))
                else ret (packedSize (end_ - start))) k
              (mkReader (Stream.mk data pos) h ix)
            = k size (mkReader (Stream.mk data (pos + shift)) h ix)).
  { destruct (Z.gtb_spec start 0) as [Hgt|Hle].
    - unfold bind at 1 2, seek, ret. cbn [reader hdr index_]. unfold Stream.Seek.
      cbn [Stream.i Stream.s]. change (1 =? 0) with false. cbv iota.
      replace (if negb (Z.rem start 4 =? 0) then packedSize start - 1 else packedSize start)
        with shift by (rewrite Es, <- Hadj; destruct (negb _); lia).
      replace (if negb (Z.rem start 4 =? 0)
               then packedSize (end_ - start) + 1 else packedSize (end_ - start))
        with size by (rewrite Ez, <- Hadj; destruct (negb _); lia).
      replace (pos + shift <? 0) with false by (symmetry; apply Z.ltb_ge; lia).
      reflexivity.
    - assert (start = 0) by lia. subst start.
      unfold bind at 1, ret.
      replace shift with 0 by (rewrite Es; unfold adj; reflexivity).
      replace size with (packedSize (end_ - 0)) by (rewrite Ez; unfold adj; simpl; lia).
      rewrite Z.add_0_r. reflexivity. }
  rewrite Hseek. unfold k. clear Hseek k.
  unfold bind at 1.
  rewrite readChunks_ok with (cleft := Z.to_nat _); try lia.
  - rewrite Z.sub_0_r. change (Z.to_nat (4 * 0)) with 0%nat. rewrite take_0, app_nil_l.
    fold span.
    assert (Hls : length span = Z.to_nat size).
    { unfold span. rewrite length_take, length_drop. unfold len in Hdata. lia. }
    unfold bind at 1, lift at 1.
    rewrite slice_ok.
    2:{ rewrite Hrem. lia. }
    2:{ rewrite Hrem. unfold len. rewrite flat_map_decode4_len, Hls. lia. }
    rewrite Hrem. replace (start mod 4 + (end_ - start) - start mod 4) with (end_ - start) by lia.
    unfold bind, lift, ret.
    destruct (overlay nLoop _ _ _ _) as [seq1| |]; cbn [rbind]; try reflexivity.
    destruct (overlay mLoop _ _ _ _) as [seq2| |]; reflexivity.
  - unfold make, len. rewrite length_replicate. unfold defaultBufSize. lia.
  - right. reflexivity.
  - rewrite Z.sub_0_r. apply chunks_chunksLeft. lia.
  - unfold make, len. rewrite length_replicate. lia.
  - rewrite Z.sub_0_r. exact Hbytes.
Qed.

Lemma Forall_is_byte_forallb (l : list Z) :
  forallb (fun b => (0 <=? b) && (b <? 256)) l = true -> Forall is_byte l.
Proof.
  induction l as [|b l IH]; simpl; [constructor|].
  rewrite !andb_true_iff, Z.leb_le, Z.ltb_lt. intros [Hb Hl].
  constructor; [exact Hb|apply IH; exact Hl].
Qed.

(** When the stream ends before the span does, the chunk loop reports the
    short read. *)
Lemma readChunks_short cleft : forall size buf dna i data pos h ix,
  len buf = defaultBufSize ->
  0 <= i < size -> i mod defaultBufSize = 0 ->
  chunksLeft cleft (size - i) ->
  len dna = 4 * size ->
  0 <= pos -> len data < pos + (size - i) ->
  Forall is_byte data ->
  exists sz r', readChunks cleft size buf dna i (mkReader (Stream.mk data pos) h ix)
                = (Err (FailedReadDna sz), r').
Proof.
  unfold chunksLeft, defaultBufSize.
  induction cleft as [|cleft IH];
    intros size buf dna i data pos h ix Hbuf Hi Hm Hleft Hdna Hpos Hdata Hbytes; [lia|].
  cbn [readChunks]. unfold defaultBufSize.
  set (sz := if i + 4096 >? size then Z.rem size 4096 else 4096).
  assert (Hsz : sz = Z.min 4096 (size - i)).
  { unfold sz. destruct (Z.gtb_spec (i + 4096) size) as [Hgt|Hle]; [|lia].
    rewrite Z.rem_mod_nonneg by lia.
    replace size with ((size - i) + i) at 1 by lia.
    rewrite <- Zplus_mod_idemp_r, Hm, Z.add_0_r, Z.mod_small by lia. lia. }
  assert (Hsz0 : 0 < sz <= 4096) by lia.
  unfold bind at 1. unfold lift at 1.
  rewrite slice_ok by lia. rewrite Z.sub_0_r.
  change (Z.to_nat 0) with 0%nat. rewrite drop_0.
  assert (Hw : len (take (Z.to_nat sz) buf) = sz)
    by (unfold len; rewrite length_take; unfold len in Hbuf; lia).
  unfold bind at 1. unfold read. cbn [reader hdr index_]. unfold Stream.Read.
  cbn [Stream.i Stream.s].
  destruct (Z.geb_spec pos (len data)) as [Heof|Hin].
  - (* at the end of the stream: nothing is read *)
    replace (0 =? sz) with false by (symmetry; apply Z.eqb_neq; lia).
    cbn [negb]. unfold fail. eauto.
  - set (src := drop (Z.to_nat pos) data).
    assert (Hsrc : len src = len data - pos)
      by (unfold src, len; rewrite length_drop; unfold len in *; lia).
    rewrite Hw.
    destruct (Z.lt_ge_cases (len src) sz) as [Hshort|Hfull].
    + (* fewer bytes than the chunk are left *)
      replace (Z.min sz (len src)) with (len src) by lia.
      replace (len src =? sz) with false by (symmetry; apply Z.eqb_neq; lia).
      cbn [negb]. unfold fail. eauto.
    + replace (Z.min sz (len src)) with sz by lia.
      rewrite Z.eqb_refl. cbn [negb]. cbv iota.
      rewrite (drop_ge (take (Z.to_nat sz) buf)) by (unfold len in Hw; lia).
      rewrite app_nil_r.
      set (buf' := take (Z.to_nat sz) src ++ drop (Z.to_nat sz) buf).
      assert (Htl : length (take (Z.to_nat sz) src) = Z.to_nat sz)
        by (rewrite length_take; unfold len in *; lia).
      assert (Hbuf' : len buf' = 4096).
      { unfold buf', len. rewrite length_app, Htl, length_drop. unfold len in Hbuf. lia. }
      assert (Htk : take (Z.to_nat sz) (drop (Z.to_nat 0) buf') = take (Z.to_nat sz) src).
      { change (Z.to_nat 0) with 0%nat. rewrite drop_0.
        unfold buf'. apply take_app_length'. lia. }
      assert (Hdec : decodeLoop (Z.to_nat sz) 0 buf' dna i
                     = Ok (take (Z.to_nat (4 * i)) dna
                           ++ flat_map decode4 (take (Z.to_nat sz) src)
                           ++ drop (Z.to_nat (4 * (i + sz))) dna, i + sz)).
      { rewrite decodeLoop_spec.
        - rewrite Htk, Z2Nat.id by lia. reflexivity.
        - lia.
        - rewrite Z2Nat.id by lia. lia.
        - lia.
        - rewrite Z2Nat.id by lia. lia.
        - rewrite Htk. apply Forall_take. unfold src. apply Forall_drop. exact Hbytes. }
      unfold bind at 1. unfold lift at 1. rewrite Hdec. cbv beta iota.
      apply IH; try assumption; try lia.
      * replace sz with 4096 by lia. rewrite <- Zplus_mod_idemp_l, Hm. reflexivity.
      * unfold len. rewrite !length_app, length_take, length_drop, flat_map_decode4_len, Htl.
        unfold len in Hdna. lia.
Qed.

(** The seek distance and the span length of a clamped range. *)
Lemma span_bounds start end_ :
  0 <= start < end_ ->
  0 <= ceilDiv4 start - (if start mod 4 =? 0 then 0 else 1)
  /\ 1 <= ceilDiv4 (end_ - start) + (if start mod 4 =? 0 then 0 else 1).
Proof.
  intros H. rewrite <- !packedSize_ceilDiv4.
  pose proof (packedSize_ceil start). pose proof (packedSize_ceil (end_ - start)).
  pose proof (Z.mod_pos_bound start 4). pose proof (Z.div_mod start 4).
  destruct (Z.eqb_spec (start mod 4) 0); lia.
Qed.

Lemma clamp_id bases start end_ :
  0 <= start < end_ -> end_ <= bases ->
  clampStart start = start /\ clampEnd bases end_ = end_.
Proof.
  intros H1 H2. unfold clampStart, clampEnd.
  replace (start <? 0) with false by (symmetry; apply Z.ltb_ge; lia).
  replace (end_ >? bases) with false by (symmetry; rewrite Z.gtb_ltb; apply Z.ltb_ge; lia).
  replace (end_ =? 0) with false by (symmetry; apply Z.eqb_neq; lia).
  replace (end_ <? 0) with false by (symmetry; apply Z.ltb_ge; lia).
  split; reflexivity.
Qed.

(** X1 -- ReadRange in closed form: for a record that parses and a range inside
    it, with the cursor at [pos] after the record's metadata, the Reader
    skips [ceil(start/4)] bytes, one fewer when [start] is not a multiple of
    four, reads [ceil((end-start)/4)] bytes, one more in that case, unpacks
    each byte to four bases, drops [start mod 4] of them, keeps
    [end - start], applies the two overlays and leaves the cursor after the
    span. *)
Theorem ReadRange_window (r : Reader) (name : list Z) (start end_ : Z)
    (rec : seqRecord) (data : list Z) (pos : Z) (h : header) (ix : gmap (list Z) Z) :
  parseRecord name true r = (Ok rec, mkReader (Stream.mk data pos) h ix) ->
  0 <= start < end_ -> end_ <= dnaSize rec -> 0 <= pos ->
  let adj := if start mod 4 =? 0 then 0 else 1 in
  let shift := ceilDiv4 start - adj in
  let size := ceilDiv4 (end_ - start) + adj in
  let span := take (Z.to_nat size) (drop (Z.to_nat (pos + shift)) data) in
  pos + shift + size <= len data ->
  Forall is_byte span ->
  ReadRange name start end_ r
  = (seq <-r overlay nLoop (nBlocks rec) start end_
               (take (Z.to_nat (end_ - start))
                  (drop (Z.to_nat (start mod 4)) (flat_map decode4 span)));
     overlay mLoop (mBlocks rec) start end_ seq,
     mkReader (Stream.mk data (pos + shift + size)) h ix).
Proof.
  intros Hrec Hse Hend Hpos adj shift size span Hdata Hbytes.
  unfold ReadRange, bind. rewrite Hrec.
  destruct (clamp_id (dnaSize rec) start end_ Hse Hend) as [-> ->].
  apply readWindow_spec; assumption.
Qed.

Lemma ReadRange_window_witness :
  run (ReadRange chr1 3 6) (readerOf tenAFile) = Ok (bytes_of "NNA").
Proof.
  unfold run.
  rewrite (ReadRange_window (readerOf tenAFile) chr1 3 6
             (mkSeqRecord 10 [Block.mk 2 3] [] 0 []) tenAFile 49
             (mkHeader SIG 0 1 0 LittleEndian) {[chr1 := 25]}).
  - vm_compute. reflexivity.
  - vm_compute. reflexivity.
  - lia.
  - simpl. lia.
  - lia.
  - vm_compute. discriminate.
  - apply Forall_is_byte_forallb. vm_compute. reflexivity.
Defined.

(** X2 -- ReadRange reports a short read whenever the stream ends before the
    span it computes.  The span has one byte more than the bases need when
    [start] is not a multiple of four, so a range such as [9, 10) of a
    ten-base sequence stored last in the file fails although its base is
    stored. *)
Theorem ReadRange_short_read (r : Reader) (name : list Z) (start end_ : Z)
    (rec : seqRecord) (data : list Z) (pos : Z) (h : header) (ix : gmap (list Z) Z) :
  parseRecord name true r = (Ok rec, mkReader (Stream.mk data pos) h ix) ->
  0 <= start < end_ -> end_ <= dnaSize rec -> 0 <= pos ->
  Forall is_byte data ->
  len data < pos + (ceilDiv4 start - (if start mod 4 =? 0 then 0 else 1))
                 + (ceilDiv4 (end_ - start) + (if start mod 4 =? 0 then 0 else 1)) ->
  exists sz, run (ReadRange name start end_) r = Err (FailedReadDna sz).
Proof.
  intros Hrec Hse Hend Hpos Hbytes Hshort.
  unfold run, ReadRange, bind. rewrite Hrec.
  destruct (clamp_id (dnaSize rec) start end_ Hse Hend) as [-> ->].
  destruct (span_bounds start end_ Hse) as [Hshift Hsize].
  rewrite <- !packedSize_ceilDiv4 in *.
  assert (Hrem : Z.rem start 4 = start mod 4) by (apply Z.rem_mod_nonneg; lia).
  unfold readWindow.
  replace (end_ <=? start) with false by (symmetry; apply Z.leb_gt; lia).
  rewrite Hrem.
  set (adj := if start mod 4 =? 0 then 0 else 1) in *.
  assert (Hadj : forall a b : Z, (if negb (start mod 4 =? 0) then a else b)
                                 = if start mod 4 =? 0 then b else a)
    by (intros; destruct (start mod 4 =? 0); reflexivity).
  rewrite !Hadj.
  set (shift := packedSize start - adj) in *.
  set (size := packedSize (end_ - start) + adj) in *.
  replace (if start mod 4 =? 0 then packedSize start else packedSize start - 1)
    with shift by (unfold shift, adj; destruct (start mod 4 =? 0); lia).
  replace (if start mod 4 =? 0 then packedSize (end_ - start)
           else packedSize (end_ - start) + 1)
    with size by (unfold size, adj; destruct (start mod 4 =? 0); lia).
  assert (Hchunks : forall p, exists sz r',
    readChunks (Z.to_nat (if Z.rem size defaultBufSize >? 0
                          then Z.quot size defaultBufSize + 1
                          else Z.quot size defaultBufSize))
      size (make defaultBufSize) (make (size * 4)) 0
      (mkReader (Stream.mk data (pos + p)) h ix) = (Err (FailedReadDna sz), r')
    \/ p <> shift).
  { intros p. destruct (Z.eq_dec p shift) as [->|Hne].
    - destruct (readChunks_short
                  (Z.to_nat (if Z.rem size defaultBufSize >? 0
                             then Z.quot size defaultBufSize + 1
                             else Z.quot size defaultBufSize))
                  size (make defaultBufSize) (make (size * 4)) 0 data (pos + shift) h ix)
        as (sz & r' & Hr); try lia; try assumption.
      + unfold make, len. rewrite length_replicate. unfold defaultBufSize. lia.
      + reflexivity.
      + rewrite Z.sub_0_r. apply chunks_chunksLeft. lia.
      + unfold make, len. rewrite length_replicate. lia.
      + exists sz, r'. left. exact Hr.
    - exists 0, r. right. exact Hne. }
  destruct (Z.gtb_spec start 0) as [Hgt|Hle].
  - unfold bind, seek, ret. cbn [reader hdr index_]. unfold Stream.Seek.
    cbn [Stream.i Stream.s]. change (1 =? 0) with false. cbv iota.
    replace (pos + shift <? 0) with false by (symmetry; apply Z.ltb_ge; lia).
    destruct (Hchunks shift) as (sz & r' & [Hr|Hne]); [|congruence].
    rewrite Hr. simpl. eauto.
  - assert (Hst : start = 0) by lia.
    assert (Ha0 : adj = 0) by (unfold adj; rewrite Hst; reflexivity).
    assert (Hs0 : shift = 0) by (unfold shift; rewrite Ha0, Hst; reflexivity).
    assert (Hz0 : packedSize (end_ - start) = size) by (unfold size; lia).
    unfold bind, ret. rewrite Hz0.
    destruct (Hchunks shift) as (sz & r' & [Hr|Hne]); [|congruence].
    rewrite Hs0, Z.add_0_r in Hr. rewrite Hr. simpl. eauto.
Qed.

Lemma ReadRange_short_read_witness :
  exists sz, run (ReadRange chr1 9 10) (readerOf tenAFile) = Err (FailedReadDna sz).
Proof.
  apply (ReadRange_short_read (readerOf tenAFile) chr1 9 10
           (mkSeqRecord 10 [Block.mk 2 3] [] 0 []) tenAFile 49
           (mkHeader SIG 0 1 0 LittleEndian) {[chr1 := 25]}).
  - vm_compute. reflexivity.
  - lia.
  - simpl. lia.
  - lia.
  - apply Forall_is_byte_forallb. vm_compute. reflexivity.
  - vm_compute. reflexivity.
Defined.

(** ** The masked-case overlay *)

(** The loop of the masked-case overlay, started inside the output, adds
    32 at the positions [idx, idx + fuel) that lie inside it. *)
Lemma mLoop_spec fuel : forall seq idx,
  0 <= idx < len seq ->
  exists seq', mLoop fuel seq idx = Ok seq'
    /\ length seq' = length seq
    /\ forall i : nat, (i < length seq)%nat ->
         seq' !! i = if bool_decide (idx <= Z.of_nat i < idx + Z.of_nat fuel)
                     then (fun c => uint8 (c + 32)) <$> seq !! i else seq !! i.
Proof.
  induction fuel as [|fuel IH]; intros seq idx Hidx.
  - exists seq. repeat split. intros i Hi.
    rewrite bool_decide_eq_false_2 by lia. reflexivity.
  - cbn [mLoop]. rewrite index_total by lia. cbn [rbind].
    rewrite assign_ok by lia. cbn [rbind].
    set (seq1 := <[Z.to_nat idx := uint8 (seq !!! Z.to_nat idx + 32)]> seq).
    assert (Hl1 : length seq1 = length seq) by (unfold seq1; apply length_insert).
    assert (Hs1 : forall i : nat, (i < length seq)%nat ->
              seq1 !! i = if bool_decide (Z.of_nat i = idx)
                          then (fun c => uint8 (c + 32)) <$> seq !! i else seq !! i).
    { intros i Hi. unfold seq1. destruct (decide (Z.to_nat idx = i)) as [<-|Hne].
      - rewrite list_lookup_insert_eq by (unfold len in Hidx; lia).
        rewrite bool_decide_eq_true_2 by lia.
        rewrite (list_lookup_lookup_total_lt seq (Z.to_nat idx)) by (unfold len in Hidx; lia).
        reflexivity.
      - rewrite list_lookup_insert_ne by exact Hne.
        rewrite bool_decide_eq_false_2 by lia. reflexivity. }
    clearbody seq1.
    destruct (Z.geb_spec (idx + 1) (len seq1)) as [Hge|Hlt].
    + exists seq1. repeat split; [exact Hl1|]. intros i Hi. rewrite Hs1 by exact Hi.
      unfold len in *.
      destruct (bool_decide (Z.of_nat i = idx)) eqn:E.
      * apply bool_decide_eq_true_1 in E. rewrite bool_decide_eq_true_2 by lia. reflexivity.
      * apply bool_decide_eq_false_1 in E. rewrite bool_decide_eq_false_2 by lia. reflexivity.
    + destruct (IH seq1 (idx + 1)) as (seq' & -> & Hl & Hs); [lia|].
      exists seq'. repeat split; [lia|]. intros i Hi.
      rewrite Hs by lia. rewrite Hs1 by exact Hi.
      destruct (bool_decide (Z.of_nat i = idx)) eqn:E.
      * apply bool_decide_eq_true_1 in E.
        rewrite bool_decide_eq_false_2 by lia.
        rewrite bool_decide_eq_true_2 by lia. reflexivity.
      * apply bool_decide_eq_false_1 in E.
        destruct (bool_decide (idx + 1 <= _ < _)) eqn:E1.
        -- apply bool_decide_eq_true_1 in E1.
           rewrite bool_decide_eq_true_2 by lia. reflexivity.
        -- apply bool_decide_eq_false_1 in E1.
           rewrite bool_decide_eq_false_2 by lia. reflexivity.
Qed.

(** Started at or past the end of the output, the loop indexes out of
    range on its first iteration. *)
Lemma mLoop_panic fuel seq idx :
  len seq <= idx -> mLoop (S fuel) seq idx = Panic.
Proof.
  intros H. cbn [mLoop]. rewrite index_panic by lia. reflexivity.
Qed.

Lemma uint8_add_idemp a b : uint8 (uint8 a + b) = uint8 (a + b).
Proof. unfold uint8. apply Zplus_mod_idemp_l. Qed.

Lemma covering_nonneg blocks p : 0 <= covering blocks p.
Proof.
  induction blocks as [|b blocks IH]; simpl; [lia|]. destruct (coversb b p); lia.
Qed.

Lemma bump_bump k1 k2 c : 0 <= k1 -> 0 <= k2 -> bump k2 (bump k1 c) = bump (k1 + k2) c.
Proof.
  intros H1 H2. unfold bump.
  destruct (Z.eqb_spec k1 0) as [E1|N1], (Z.eqb_spec k2 0) as [E2|N2],
           (Z.eqb_spec (k1 + k2) 0) as [E3|N3]; try lia; try reflexivity.
  - f_equal. lia.
  - f_equal. lia.
  - rewrite uint8_add_idemp. f_equal. lia.
Qed.

(** One block of the masked-case pass that is not skipped and does not
    start at [end] with a positive count. *)
Lemma mLoop_block b start end_ seq :
  len seq = end_ - start -> 0 < len seq ->
  startsAtEnd end_ b = false ->
  (Block.Length b <? start) || (Block.start b >? end_) = false ->
  let idx := Block.start b - start in
  exists seq1,
    mLoop (Z.to_nat (if idx <? 0 then Block.count b + idx else Block.count b))
          seq (if idx <? 0 then 0 else idx) = Ok seq1
    /\ length seq1 = length seq
    /\ forall i : nat, (i < length seq)%nat ->
         seq1 !! i = bump (if coversb b (start + Z.of_nat i) then 1 else 0) <$> seq !! i.
Proof.
  intros Hlen Hpos Hend Hskip idx.
  apply orb_false_iff in Hskip as [Hs1 Hs2]. unfold Block.Length in Hs1.
  rewrite Z.ltb_ge in Hs1. rewrite Z.gtb_ltb, Z.ltb_ge in Hs2.
  unfold startsAtEnd in Hend. apply andb_false_iff in Hend.
  rewrite Z.eqb_neq, Z.ltb_ge in Hend.
  set (cnt' := if idx <? 0 then Block.count b + idx else Block.count b).
  set (idx' := if idx <? 0 then 0 else idx).
  destruct (Z.le_gt_cases cnt' 0) as [Hc0|Hc1].
  - (* nothing to write *)
    replace (Z.to_nat cnt') with 0%nat by lia. exists seq. repeat split.
    intros i Hi. replace (coversb b (start + Z.of_nat i)) with false.
    + unfold bump. simpl. destruct (seq !! i); reflexivity.
    + symmetry. unfold coversb. apply andb_false_iff. rewrite Z.leb_gt, Z.ltb_ge.
      unfold cnt', idx in *. destruct (Z.ltb_spec (Block.start b - start) 0); lia.
  - assert (Hidx' : 0 <= idx' < len seq).
    { unfold idx', cnt', idx in *. destruct (Z.ltb_spec (Block.start b - start) 0); lia. }
    destruct (mLoop_spec (Z.to_nat cnt') seq idx' Hidx') as (seq1 & Hm & Hl & Hs).
    exists seq1. repeat split; [exact Hm|exact Hl|]. intros i Hi. rewrite (Hs i Hi).
    destruct (bool_decide _) eqn:E.
    + apply bool_decide_eq_true_1 in E.
      replace (coversb b (start + Z.of_nat i)) with true.
      * unfold bump. simpl. reflexivity.
      * symmetry. unfold coversb. apply andb_true_iff. rewrite Z.leb_le, Z.ltb_lt.
        unfold idx', cnt', idx in *. destruct (Z.ltb_spec (Block.start b - start) 0); lia.
    + apply bool_decide_eq_false_1 in E.
      replace (coversb b (start + Z.of_nat i)) with false.
      * unfold bump. simpl. destruct (seq !! i); reflexivity.
      * symmetry. unfold coversb. apply andb_false_iff. rewrite Z.leb_gt, Z.ltb_ge.
        unfold idx', cnt', idx in *. destruct (Z.ltb_spec (Block.start b - start) 0); lia.
Qed.

Lemma overlay_mLoop_ok blocks start end_ : forall seq,
  len seq = end_ - start -> 0 < len seq ->
  existsb (startsAtEnd end_) blocks = false ->
  exists seq', overlay mLoop blocks start end_ seq = Ok seq'
    /\ length seq' = length seq
    /\ forall i : nat, (i < length seq)%nat ->
         seq' !! i = bump (covering blocks (start + Z.of_nat i)) <$> seq !! i.
Proof.
  induction blocks as [|b blocks IH]; intros seq Hlen Hpos Hend.
  - exists seq. repeat split. intros i Hi. simpl. unfold bump. simpl.
    destruct (seq !! i); reflexivity.
  - cbn [existsb] in Hend. apply orb_false_iff in Hend as [Hb Hbs].
    cbn [overlay covering fold_right].
    destruct ((Block.Length b <? start) || (Block.start b >? end_)) eqn:Hskip.
    + destruct (IH seq Hlen Hpos Hbs) as (seq' & -> & Hl & Hs).
      exists seq'. repeat split; [exact Hl|]. intros i Hi. rewrite Hs by exact Hi.
      replace (coversb b (start + Z.of_nat i)) with false; [reflexivity|].
      symmetry. unfold coversb. apply andb_false_iff.
      apply orb_true_iff in Hskip. unfold Block.Length in Hskip.
      rewrite Z.ltb_lt, Z.gtb_ltb, Z.ltb_lt in Hskip. unfold len in Hlen.
      rewrite Z.leb_gt, Z.ltb_ge. lia.
    + destruct (mLoop_block b start end_ seq Hlen Hpos Hb Hskip) as (seq1 & -> & Hl1 & Hs1).
      cbn [rbind].
      destruct (IH seq1) as (seq' & -> & Hl & Hs); [unfold len in *; lia..|exact Hbs|].
      exists seq'. repeat split; [lia|]. intros i Hi.
      rewrite Hs by lia. rewrite Hs1 by exact Hi.
      destruct (seq !! i) as [c|]; [|reflexivity]. simpl. f_equal.
      rewrite bump_bump.
      * reflexivity.
      * destruct (coversb _ _); lia.
      * apply covering_nonneg.
Qed.

Lemma overlay_mLoop_panic blocks start end_ : forall seq,
  len seq = end_ - start -> 0 < len seq ->
  existsb (startsAtEnd end_) blocks = true ->
  overlay mLoop blocks start end_ seq = Panic.
Proof.
  induction blocks as [|b blocks IH]; intros seq Hlen Hpos Hend; [discriminate|].
  cbn [existsb] in Hend. cbn [overlay].
  destruct (startsAtEnd end_ b) eqn:Hb.
  - unfold startsAtEnd in Hb. apply andb_true_iff in Hb as [Hs Hc].
    apply Z.eqb_eq in Hs. apply Z.ltb_lt in Hc. unfold Block.Length.
    replace ((Block.start b + Block.count b <? start) || (Block.start b >? end_)) with false.
    2:{ symmetry. apply orb_false_iff. rewrite Z.ltb_ge, Z.gtb_ltb, Z.ltb_ge. lia. }
    replace (Block.start b - start <? 0) with false by (symmetry; apply Z.ltb_ge; lia).
    destruct (Z.to_nat (Block.count b)) as [|fuel] eqn:Hf; [lia|].
    rewrite mLoop_panic by lia. reflexivity.
  - simpl in Hend.
    destruct ((Block.Length b <? start) || (Block.start b >? end_)) eqn:Hskip.
    + apply IH; assumption.
    + destruct (mLoop_block b start end_ seq Hlen Hpos Hb Hskip) as (seq1 & -> & Hl1 & _).
      cbn [rbind]. apply IH; [unfold len in *; lia..|exact Hend].
Qed.

(** X3 -- the masked-case pass over all blocks.  It panics exactly when a
    non-empty block starts at [end]; otherwise it keeps the length and
    every position gains 32 (modulo 256) once for each block that covers
    it. *)
Theorem mBlocks_overlay_spec (blocks : list Block.t) (start end_ : Z) (seq : list Z) :
  len seq = end_ - start -> 0 < len seq ->
  (existsb (startsAtEnd end_) blocks = true ->
     overlay mLoop blocks start end_ seq = Panic)
  /\ (existsb (startsAtEnd end_) blocks = false ->
        exists seq', overlay mLoop blocks start end_ seq = Ok seq'
          /\ len seq' = len seq
          /\ forall i, 0 <= i < len seq ->
               seq' !!! Z.to_nat i
               = bump (covering blocks (start + i)) (seq !!! Z.to_nat i)).
Proof.
  intros Hlen Hpos. split.
  - apply overlay_mLoop_panic; assumption.
  - intros Hend.
    destruct (overlay_mLoop_ok blocks start end_ seq Hlen Hpos Hend) as (seq' & Hov & Hl & Hs).
    exists seq'. split; [exact Hov|]. split; [unfold len; lia|].
    intros i Hi. unfold len in Hi.
    specialize (Hs (Z.to_nat i)). rewrite Z2Nat.id in Hs by lia.
    rewrite !list_lookup_total_alt. rewrite Hs by lia.
    destruct (lookup_lt_is_Some_2 seq (Z.to_nat i)) as [c ->]; [lia|]. reflexivity.
Qed.

Lemma mBlocks_overlay_spec_witness :
  (existsb (startsAtEnd 4) [Block.mk 1 2; Block.mk 2 5] = true ->
     overlay mLoop [Block.mk 1 2; Block.mk 2 5] 0 4 (bytes_of "ACGT") = Panic)
  /\ (existsb (startsAtEnd 4) [Block.mk 1 2; Block.mk 2 5] = false ->
        exists seq', overlay mLoop [Block.mk 1 2; Block.mk 2 5] 0 4 (bytes_of "ACGT") = Ok seq'
          /\ len seq' = len (bytes_of "ACGT")
          /\ forall i, 0 <= i < len (bytes_of "ACGT") ->
               seq' !!! Z.to_nat i
               = bump (covering [Block.mk 1 2; Block.mk 2 5] (0 + i))
                      (bytes_of "ACGT" !!! Z.to_nat i)).
Proof.
  apply (mBlocks_overlay_spec [Block.mk 1 2; Block.mk 2 5] 0 4 (bytes_of "ACGT")).
  - reflexivity.
  - reflexivity.
Defined.

(** ** The wire format: integers and reads *)

Lemma putUint32LE_length v : length (putUint32LE v) = 4%nat.
Proof. reflexivity. Qed.

Lemma uint32_small v : 0 <= v < 4294967296 -> uint32 v = v.
Proof. intros H. unfold uint32. apply Z.mod_small. exact H. Qed.

Lemma uint32_range v : 0 <= uint32 v < 4294967296.
Proof. unfold uint32. apply Z.mod_pos_bound. lia. Qed.

(** Four little-endian bytes read back as the value modulo 2^32. *)
Lemma Uint32_putUint32LE v rest :
  Uint32 LittleEndian (putUint32LE v ++ rest) = uint32 v.
Proof.
  unfold putUint32LE. cbn [app Uint32]. unfold uint8, uint32.
  rewrite !Z.shiftr_div_pow2 by lia.
  change (2 ^ 8) with 256. change (2 ^ 16) with (256 * 256).
  change (2 ^ 24) with (256 * 256 * 256).
  rewrite <- !Z.div_div by lia.
  pose proof (Z.div_mod v 256). pose proof (Z.mod_pos_bound v 256).
  pose proof (Z.div_mod (v / 256) 256). pose proof (Z.mod_pos_bound (v / 256) 256).
  pose proof (Z.div_mod (v / 256 / 256) 256).
  pose proof (Z.mod_pos_bound (v / 256 / 256) 256).
  pose proof (Z.div_mod (v / 256 / 256 / 256) 256).
  pose proof (Z.mod_pos_bound (v / 256 / 256 / 256) 256).
  apply (Z.mod_unique_pos _ _ (v / 256 / 256 / 256 / 256)); lia.
Qed.

Lemma Uint32_putUint32BE v rest :
  Uint32 BigEndian (rev (putUint32LE v) ++ rest) = uint32 v.
Proof.
  rewrite <- (Uint32_putUint32LE v rest). reflexivity.
Qed.

(** A read that the stream can serve in full. *)
Lemma read_chunk b chunk rest data pos h ix :
  0 <= pos -> drop (Z.to_nat pos) data = chunk ++ rest ->
  length b = length chunk -> chunk ++ rest <> [] ->
  read b (mkReader (Stream.mk data pos) h ix)
  = (Ok (chunk, len chunk, false), mkReader (Stream.mk data (pos + len chunk)) h ix)
  /\ drop (Z.to_nat (pos + len chunk)) data = rest.
Proof.
  intros Hpos Hdrop Hb Hne.
  assert (Hlen : len data - pos = len chunk + len rest).
  { apply (f_equal length) in Hdrop. rewrite length_drop, length_app in Hdrop.
    assert (length (chunk ++ rest) <> 0%nat) by (destruct (chunk ++ rest); simpl; congruence).
    rewrite length_app in *. unfold len. lia. }
  assert (Hnz : 0 < len chunk + len rest).
  { unfold len. rewrite <- Nat2Z.inj_add, <- length_app.
    destruct (chunk ++ rest); simpl; [congruence|lia]. }
  split.
  - unfold read. cbn [reader hdr index_]. unfold Stream.Read. cbn [Stream.i Stream.s].
    replace (pos >=? len data) with false by (symmetry; rewrite Z.geb_leb; apply Z.leb_gt; lia).
    rewrite Hdrop.
    replace (Z.min (len b) (len (chunk ++ rest))) with (len chunk)
      by (rewrite len_app; unfold len in *; lia).
    replace (Z.to_nat (len chunk)) with (length chunk) by (unfold len; lia).
    rewrite take_app_length.
    rewrite drop_ge by lia. rewrite app_nil_r. reflexivity.
  - replace (Z.to_nat (pos + len chunk)) with (Z.to_nat pos + length chunk)%nat
      by (unfold len; lia).
    rewrite <- drop_drop, Hdrop. apply drop_app_length.
Qed.

(** Reading a run of 32-bit values through the reused 4-byte buffer. *)
Lemma readUint32s_spec e vs : forall buf rest data pos h ix,
  byteOrder h = LittleEndian -> 0 <= pos -> length buf = 4%nat ->
  drop (Z.to_nat pos) data = flat_map (fun v => putUint32LE (uint32 v)) vs ++ rest ->
  exists buf',
    readUint32s e (length vs) buf (mkReader (Stream.mk data pos) h ix)
    = (Ok (uint32 <$> vs, buf'), mkReader (Stream.mk data (pos + 4 * len vs)) h ix)
    /\ length buf' = 4%nat
    /\ drop (Z.to_nat (pos + 4 * len vs)) data = rest.
Proof.
  induction vs as [|v vs IH]; intros buf rest data pos h ix Hbo Hpos Hbuf Hdrop.
  - exists buf. simpl. unfold ret. change (len (@nil Z)) with 0.
    rewrite Z.mul_0_r, Z.add_0_r. repeat split; assumption.
  - cbn [length readUint32s flat_map] in *. rewrite <- app_assoc in Hdrop.
    destruct (read_chunk buf (putUint32LE (uint32 v))
                (flat_map (fun v => putUint32LE (uint32 v)) vs ++ rest) data pos h ix)
      as [Hread Hdrop']; try assumption; [discriminate|].
    unfold bind at 1. rewrite Hread. cbv beta iota.
    unfold bind at 1, getHdr. cbn [hdr]. rewrite Hbo.
    change (len (putUint32LE (uint32 v))) with 4 in *.
    destruct (IH (putUint32LE (uint32 v)) rest data (pos + 4) h ix)
      as (buf' & Hrec & Hl & Hd); try assumption; try lia; [reflexivity|].
    unfold bind at 1. rewrite Hrec. cbv beta iota. unfold ret.
    exists buf'. rewrite len_cons.
    replace (pos + 4 * (1 + len vs)) with (pos + 4 + 4 * len vs) by lia.
    repeat split; try assumption.
    rewrite fmap_cons. do 4 f_equal.
    rewrite <- (app_nil_r (putUint32LE (uint32 v))), Uint32_putUint32LE.
    apply uint32_small, uint32_range.
Qed.

Lemma flat_map_fmap {A B C} (f : A -> B) (g : B -> list C) (l : list A) :
  flat_map g (f <$> l) = flat_map (fun a => g (f a)) l.
Proof.
  induction l as [|a l IH]; [reflexivity|].
  rewrite fmap_cons. cbn [flat_map]. rewrite IH. reflexivity.
Qed.

Lemma zipBlocks_fields (blocks : list Block.t) :
  zipBlocks (uint32 <$> (Block.start <$> blocks)) (uint32 <$> (Block.count <$> blocks))
  = wrapBlocks blocks.
Proof.
  induction blocks as [|b blocks IH]; [reflexivity|].
  rewrite !fmap_cons. cbn [zipBlocks]. rewrite IH. reflexivity.
Qed.

Lemma wrapBlocks_id blocks :
  Forall (fun b => 0 <= Block.start b < 4294967296
                   /\ 0 <= Block.count b < 4294967296) blocks ->
  wrapBlocks blocks = blocks.
Proof.
  induction 1 as [|b blocks [H1 H2] _ IH]; [reflexivity|].
  unfold wrapBlocks in *. rewrite fmap_cons, IH.
  rewrite !uint32_small by assumption. destruct b; reflexivity.
Qed.

(** A block table in the file: the count, all starts, then all counts. *)
Lemma parseBlockCoords_spec blocks rest data pos h ix :
  byteOrder h = LittleEndian -> 0 <= pos -> len blocks < 4294967296 ->
  drop (Z.to_nat pos) data
  = putUint32LE (uint32 (len blocks))
    ++ flat_map (fun b => putUint32LE (uint32 (Block.start b))) blocks
    ++ flat_map (fun b => putUint32LE (uint32 (Block.count b))) blocks
    ++ rest ->
  parseBlockCoords (mkReader (Stream.mk data pos) h ix)
  = (Ok (wrapBlocks blocks), mkReader (Stream.mk data (pos + 4 + 8 * len blocks)) h ix)
  /\ drop (Z.to_nat (pos + 4 + 8 * len blocks)) data = rest.
Proof.
  intros Hbo Hpos Hn Hdrop. unfold parseBlockCoords.
  destruct (read_chunk (make 4) (putUint32LE (uint32 (len blocks))) _ data pos h ix
              Hpos Hdrop eq_refl) as [Hread Hdrop1]; [discriminate|].
  change (len (putUint32LE (uint32 (len blocks)))) with 4 in *.
  unfold bind at 1. rewrite Hread. cbv beta iota.
  unfold bind at 1, getHdr. cbn [hdr]. rewrite Hbo.
  rewrite <- (app_nil_r (putUint32LE (uint32 (len blocks)))), Uint32_putUint32LE.
  rewrite app_nil_r.
  rewrite (uint32_small (uint32 (len blocks))) by apply uint32_range.
  rewrite (uint32_small (len blocks)) by (pose proof (len_nonneg blocks); lia).
  assert (Hn1 : Z.to_nat (len blocks) = length (Block.start <$> blocks))
    by (rewrite length_fmap; unfold len; lia).
  assert (Hn2 : Z.to_nat (len blocks) = length (Block.count <$> blocks))
    by (rewrite length_fmap; unfold len; lia).
  rewrite <- (flat_map_fmap Block.start (fun v => putUint32LE (uint32 v))) in Hdrop1.
  rewrite <- (flat_map_fmap Block.count (fun v => putUint32LE (uint32 v))) in Hdrop1.
  destruct (readUint32s_spec FailedReadBlockStart (Block.start <$> blocks)
              (putUint32LE (len blocks)) _ data (pos + 4) h ix Hbo
              ltac:(lia) eq_refl Hdrop1) as (buf1 & Hr1 & Hl1 & Hdrop2).
  rewrite Hn1 at 1. unfold bind at 1. rewrite Hr1. cbv beta iota.
  destruct (readUint32s_spec FailedReadBlockSize (Block.count <$> blocks)
              buf1 _ data (pos + 4 + 4 * len (Block.start <$> blocks)) h ix Hbo
              ltac:(unfold len; lia) Hl1 Hdrop2)
    as (buf2 & Hr2 & Hl2 & Hdrop3).
  rewrite Hn2. unfold bind at 1. rewrite Hr2. cbv beta iota. unfold ret.
  rewrite zipBlocks_fields.
  assert (Hp : pos + 4 + 4 * len (Block.start <$> blocks) + 4 * len (Block.count <$> blocks)
               = pos + 4 + 8 * len blocks)
    by (unfold len; rewrite !length_fmap; lia).
  rewrite Hp in *. split; [reflexivity|exact Hdrop3].
Qed.

(** A record as [WriteTo] lays it out, found through the index: the parse
    returns its length and block tables and stops at the packed payload. *)
Lemma parseRecord_spec name rec off rest data pos h ix :
  byteOrder h = LittleEndian -> ix !! name = Some off -> 0 <= off ->
  len (nBlocks rec) < 4294967296 -> len (mBlocks rec) < 4294967296 ->
  drop (Z.to_nat off) data = recordBytes rec ++ rest ->
  let pos' := off + 16 + 8 * len (nBlocks rec) + 8 * len (mBlocks rec) in
  parseRecord name true (mkReader (Stream.mk data pos) h ix)
  = (Ok (mkSeqRecord (uint32 (dnaSize rec)) (wrapBlocks (nBlocks rec))
           (wrapBlocks (mBlocks rec)) 0 []),
     mkReader (Stream.mk data pos') h ix)
  /\ drop (Z.to_nat pos') data = sequence rec ++ rest.
Proof.
  intros Hbo Hix Hoff Hnb Hmb Hdrop pos'.
  unfold recordBytes in Hdrop. rewrite <- !app_assoc in Hdrop.
  unfold parseRecord. unfold bind at 1, getIndex. cbn [index_]. rewrite Hix.
  unfold bind at 1, seek. cbn [reader hdr index_]. unfold Stream.Seek.
  cbn [Stream.s Stream.i]. rewrite Z.eqb_refl.
  replace (off <? 0) with false by (symmetry; apply Z.ltb_ge; lia).
  destruct (read_chunk (make 4) (putUint32LE (dnaSize rec)) _ data off h ix
              Hoff Hdrop eq_refl) as [Hread Hdrop1]; [discriminate|].
  change (len (putUint32LE (dnaSize rec))) with 4 in *.
  unfold bind at 1. rewrite Hread. cbv beta iota.
  unfold bind at 1, getHdr. cbn [hdr]. rewrite Hbo.
  destruct (parseBlockCoords_spec (nBlocks rec) _ data (off + 4) h ix Hbo
              ltac:(lia) Hnb Hdrop1) as [Hnbp Hdrop2].
  unfold bind at 1, wrapErr. rewrite Hnbp.
  destruct (parseBlockCoords_spec (mBlocks rec) _ data
              (off + 4 + 4 + 8 * len (nBlocks rec)) h ix Hbo
              ltac:(pose proof (len_nonneg (nBlocks rec)); lia) Hmb Hdrop2)
    as [Hmbp Hdrop3].
  unfold bind at 1. rewrite Hmbp.
  destruct (read_chunk (putUint32LE (dnaSize rec)) (putUint32LE (uint32 0)) _ data
              (off + 4 + 4 + 8 * len (nBlocks rec) + 4 + 8 * len (mBlocks rec)) h ix
              ltac:(pose proof (len_nonneg (nBlocks rec));
                    pose proof (len_nonneg (mBlocks rec)); lia)
              Hdrop3 eq_refl) as [Hread2 Hdrop4]; [discriminate|].
  change (len (putUint32LE (uint32 0))) with 4 in *.
  unfold bind at 1. rewrite Hread2. cbv beta iota.
  rewrite <- (app_nil_r (putUint32LE (dnaSize rec))), Uint32_putUint32LE.
  change (Uint32 LittleEndian (putUint32LE (uint32 0))) with 0.
  cbn [Z.eqb negb]. unfold ret.
  replace (off + 4 + 4 + 8 * len (nBlocks rec) + 4 + 8 * len (mBlocks rec) + 4)
    with pos' in * by (unfold pos'; lia).
  split; [reflexivity|exact Hdrop4].
Qed.

(** ** Reading back what the Writer wrote *)

(** The runs [mapBlocks] returns, as the scan invariant gives them at the
    end of the string. *)
Lemma mapBlocks_runs (s : list Z) (check : Z -> bool) :
  Forall (maximalRun check s) (mapBlocks s check)
  /\ StronglySorted apart (mapBlocks s check)
  /\ (forall p, 0 <= p < len s ->
        check (s !!! Z.to_nat p) = true ->
        Exists (fun b => covers b p) (mapBlocks s check)).
Proof.
  assert (Hinit : scanInv check s 0 [] 0 false).
  { unfold scanInv. pose proof (len_nonneg s).
    repeat split; try constructor; try lia. }
  destruct (mapBlocksLoop_inv check s s 0 [] 0 false) as
    (blocks & start & isLast & Hloop & Hinv); [lia|reflexivity|exact Hinit|].
  unfold mapBlocks. rewrite Hloop.
  destruct Hinv as (Hrange & Hmax & Hend & Hsort & Hcov & Hopen).
  destruct isLast; [|repeat split; assumption].
  destruct Hopen as (Hst & Hin & Hleft).
  assert (Hnew : maximalRun check s (Block.mk start (len s - start))).
  { unfold maximalRun, covers; simpl.
    split; [lia|]. split; [lia|]. split; [lia|].
    split; [intros p Hp; apply Hin; lia|]. split; [exact Hleft|left; lia]. }
  split; [|split].
  - apply Forall_app; split; [exact Hmax|]. constructor; [exact Hnew|constructor].
  - apply StronglySorted_app. split; [|split; [exact Hsort|repeat constructor]].
    intros b b' Hb Hb'. apply list_elem_of_singleton in Hb'. subst b'.
    unfold apart; simpl. rewrite Forall_forall in Hend. apply Hend. exact Hb.
  - intros p Hp Hcp. apply Exists_app.
    destruct (Z.lt_ge_cases p start) as [Hlo|Hhi].
    + left. apply Hcov; [lia|exact Hcp].
    + right. constructor. unfold covers; simpl. lia.
Qed.

Lemma coversb_covers b p : coversb b p = true <-> covers b p.
Proof. unfold coversb, covers. rewrite andb_true_iff, Z.leb_le, Z.ltb_lt. tauto. Qed.

Lemma existsb_coversb blocks p :
  existsb (fun b => coversb b p) blocks = true <-> Exists (fun b => covers b p) blocks.
Proof.
  rewrite existsb_exists, Exists_exists. split; intros (b & Hb & Hc); exists b.
  - split; [apply list_elem_of_In; exact Hb|apply coversb_covers; exact Hc].
  - split; [apply list_elem_of_In; exact Hb|apply coversb_covers; exact Hc].
Qed.

(** Whether a position of [s] lies in a run of [mapBlocks]. *)
Lemma mapBlocks_existsb s check p :
  0 <= p < len s ->
  existsb (fun b => coversb b p) (mapBlocks s check) = check (s !!! Z.to_nat p).
Proof.
  intros Hp. destruct (mapBlocks_runs s check) as (Hmax & _ & Hcov).
  destruct (check (s !!! Z.to_nat p)) eqn:Hc.
  - apply existsb_coversb. apply Hcov; assumption.
  - destruct (existsb _ _) eqn:He; [|reflexivity].
    apply existsb_coversb, Exists_exists in He as (b & Hb & Hcb).
    rewrite Forall_forall in Hmax. destruct (Hmax b Hb) as (_ & _ & _ & Hin & _).
    rewrite (Hin p Hcb) in Hc. discriminate.
Qed.

(** In a list of runs that lie apart, a position is covered at most once. *)
Lemma covering_apart blocks p :
  StronglySorted apart blocks -> Forall (fun b => 0 < Block.count b) blocks ->
  covering blocks p = if existsb (fun b => coversb b p) blocks then 1 else 0.
Proof.
  induction 1 as [|b blocks Hsort IH Hap]; intros Hcnt; [reflexivity|].
  apply Forall_cons in Hcnt as [Hb Hcnt]. cbn [covering fold_right existsb].
  fold (covering blocks p). rewrite IH by exact Hcnt.
  destruct (coversb b p) eqn:Hc; [|reflexivity]. simpl.
  replace (existsb (fun b0 => coversb b0 p) blocks) with false; [reflexivity|].
  symmetry. apply not_true_is_false. intros He.
  apply existsb_coversb, Exists_exists in He as (b' & Hb' & Hc').
  rewrite Forall_forall in Hap. specialize (Hap b' Hb').
  apply coversb_covers in Hc. unfold covers, apart in *. lia.
Qed.

Lemma mapBlocks_fields s check :
  len s < 4294967296 ->
  Forall (fun b => 0 <= Block.start b < 4294967296
                   /\ 0 <= Block.count b < 4294967296) (mapBlocks s check).
Proof.
  intros Hs. destruct (mapBlocks_runs s check) as (Hmax & _).
  eapply Forall_impl; [exact Hmax|]. intros b (H1 & H2 & H3 & _). lia.
Qed.

(** There are no more runs than characters. *)
Lemma apart_length blocks : forall lo hi,
  StronglySorted apart blocks ->
  Forall (fun b => lo <= Block.start b /\ 0 < Block.count b
                   /\ Block.start b + Block.count b <= hi) blocks ->
  lo <= hi -> len blocks <= hi - lo.
Proof.
  induction blocks as [|b blocks IH]; intros lo hi Hsort Hall Hlh.
  - unfold len; simpl; lia.
  - apply StronglySorted_cons in Hsort as [Hap Hsort].
    apply Forall_cons in Hall as [(H1 & H2 & H3) Hall].
    rewrite len_cons.
    assert (Hall' : Forall (fun b' => Block.start b + Block.count b <= Block.start b'
                              /\ 0 < Block.count b'
                              /\ Block.start b' + Block.count b' <= hi) blocks).
    { rewrite Forall_forall in *. intros b' Hb'. specialize (Hap b' Hb').
      destruct (Hall b' Hb') as (? & ? & ?). unfold apart in Hap. lia. }
    specialize (IH (Block.start b + Block.count b) hi Hsort Hall' H3). lia.
Qed.

Lemma mapBlocks_length s check : len (mapBlocks s check) <= len s.
Proof.
  destruct (mapBlocks_runs s check) as (Hmax & Hsort & _).
  pose proof (len_nonneg s).
  replace (len s) with (len s - 0) by lia.
  apply apart_length; [exact Hsort| |lia].
  eapply Forall_impl; [exact Hmax|]. intros b (H1 & H2 & H3 & _). lia.
Qed.

(** The decoded payload of a packed string, cut to the string's length. *)
Lemma decode_packed s packed :
  Forall (fun c => baseChar c = true) s -> Pack s = Ok packed ->
  len packed = packedSize (len s)
  /\ Forall is_byte packed
  /\ take (Z.to_nat (len s)) (flat_map decode4 packed) = upperT <$> s.
Proof.
  intros Hs Hp. rewrite (Pack_ok s Hs) in Hp. injection Hp as <-.
  pose proof (packedSize_ceil (len s)) as Hceil. pose proof (len_nonneg s) as Hn.
  split; [|split].
  - unfold len at 1. rewrite length_fmap, length_seq. lia.
  - apply Forall_fmap, Forall_forall. intros i _. apply packed4_byte.
  - rewrite (flat_map_decode4_packed s _ 0). rewrite Z2Nat.id by lia.
    replace (4 * packedSize (len s)) with (len s + (4 * packedSize (len s) - len s)) by lia.
    rewrite seqZ_app by lia. rewrite fmap_app.
    rewrite take_app_length' by (rewrite length_fmap, length_seqZ; unfold len; lia).
    rewrite <- (fmap_lookup_seqZ upperT s).
    apply list_fmap_ext. intros i k Hk.
    apply lookup_seqZ in Hk as [-> Hi]. rewrite Z.add_0_l. unfold codeAt.
    replace ((0 <=? Z.of_nat i) && (Z.of_nat i <? len s)) with true
      by (symmetry; apply andb_true_iff; split; [apply Z.leb_le|apply Z.ltb_lt]; lia).
    apply bytes2nt_upperT.
    rewrite Forall_lookup in Hs.
    destruct (lookup_lt_is_Some_2 s (Z.to_nat (Z.of_nat i))) as [x Hx]; [unfold len in Hi; lia|].
    rewrite (list_lookup_total_correct _ _ _ Hx). eapply Hs; eauto.
Qed.

(** The two overlays restore an accepted character from its decoded form. *)
Lemma restore_char c :
  baseChar c = true ->
  bump (if isLower c then 1 else 0) (if isN c then BASE_N else upperT c) = c.
Proof.
  unfold baseChar. simpl existsb. rewrite !orb_true_iff, !Z.eqb_eq.
  intros [->|[->|[->|[->|[->|[->|[->|[->|[->|[->|H]]]]]]]]]];
    try reflexivity; discriminate.
Qed.

(** The overlays of the record [Add] stores, over the decoded payload,
    give the sequence back. *)
Lemma overlays_restore s :
  Forall (fun c => baseChar c = true) s -> 0 < len s ->
  (seq <-r overlay nLoop (mapBlocks s isN) 0 (len s) (upperT <$> s);
   overlay mLoop (mapBlocks s isLower) 0 (len s) seq) = Ok s.
Proof.
  intros Hs Hpos.
  assert (Hlw : len (upperT <$> s) = len s - 0)
    by (unfold len; rewrite length_fmap; lia).
  destruct (overlay_nLoop_spec (mapBlocks s isN) 0 (len s) (upperT <$> s) Hlw)
    as (s1 & -> & Hl1 & Hs1).
  cbn [rbind]. rewrite length_fmap in Hl1, Hs1.
  destruct (mapBlocks_runs s isLower) as (Hmax & Hsort & _).
  assert (Hend : existsb (startsAtEnd (len s)) (mapBlocks s isLower) = false).
  { apply not_true_is_false. intros He. apply existsb_exists in He as (b & Hb & Hse).
    apply list_elem_of_In in Hb. rewrite Forall_forall in Hmax.
    destruct (Hmax b Hb) as (_ & H2 & H3 & _).
    unfold startsAtEnd in Hse. apply andb_true_iff in Hse as [He _].
    apply Z.eqb_eq in He. lia. }
  destruct (overlay_mLoop_ok (mapBlocks s isLower) 0 (len s) s1) as (s2 & -> & Hl2 & Hs2);
    [unfold len in *; lia..|exact Hend|].
  f_equal. apply list_eq. intros i.
  destruct (s !! i) as [c|] eqn:Hc.
  - pose proof (lookup_lt_Some _ _ _ Hc) as Hi.
    rewrite Hs2 by lia. rewrite Hs1 by lia.
    rewrite list_lookup_fmap, Hc. simpl.
    rewrite !Z.add_0_l.
    rewrite mapBlocks_existsb by (unfold len; lia).
    rewrite covering_apart.
    2:{ exact Hsort. }
    2:{ eapply Forall_impl; [exact Hmax|]. intros b (_ & H2 & _). exact H2. }
    rewrite mapBlocks_existsb by (unfold len; lia).
    rewrite Nat2Z.id, (list_lookup_total_correct _ _ _ Hc).
    assert (Hbc : baseChar c = true) by (rewrite Forall_lookup in Hs; eapply Hs; eauto).
    destruct (isN c) eqn:HN; simpl; f_equal.
    + pose proof (restore_char c Hbc) as Hr. rewrite HN in Hr. exact Hr.
    + pose proof (restore_char c Hbc) as Hr. rewrite HN in Hr. exact Hr.
  - pose proof (lookup_ge_None_1 _ _ Hc). apply lookup_ge_None_2. lia.
Qed.

(** A record that [Add] stores and [WriteTo] lays out, found through the
    index, reads back as the sequence. *)
Lemma Read_record name s packed off rest data pos h ix :
  Forall (fun c => baseChar c = true) s -> Pack s = Ok packed ->
  0 < len s < 4294967296 ->
  byteOrder h = LittleEndian -> ix !! name = Some off -> 0 <= off ->
  drop (Z.to_nat off) data = recordBytes (recordOf s packed) ++ rest ->
  Read name (mkReader (Stream.mk data pos) h ix)
  = (Ok s, mkReader (Stream.mk data (off + size (recordOf s packed))) h ix).
Proof.
  intros Hs Hp Hlen Hbo Hix Hoff Hdrop.
  destruct (decode_packed s packed Hs Hp) as (Hpl & Hpb & Hdec).
  pose proof (mapBlocks_length s isN) as Hnl.
  pose proof (mapBlocks_length s isLower) as Hml.
  destruct (parseRecord_spec name (recordOf s packed) off rest data pos h ix Hbo Hix Hoff)
    as [Hrec Hdrop']; [cbn [recordOf nBlocks]; lia|cbn [recordOf mBlocks]; lia|exact Hdrop|].
  cbn [recordOf nBlocks mBlocks dnaSize sequence] in Hrec, Hdrop'.
  rewrite !wrapBlocks_id in Hrec by (apply mapBlocks_fields; lia).
  rewrite (uint32_small (uint32 (len s))) in Hrec by apply uint32_range.
  rewrite (uint32_small (len s)) in Hrec by lia.
  unfold Read, ReadRange. unfold bind at 1. rewrite Hrec. cbn [dnaSize].
  replace (clampStart 0) with 0 by reflexivity.
  replace (clampEnd (len s) 0) with (len s).
  2:{ unfold clampEnd. replace (0 >? len s) with false
        by (symmetry; rewrite Z.gtb_ltb; apply Z.ltb_ge; lia). reflexivity. }
  pose proof (packedSize_ceilDiv4 (len s)) as Hcd.
  pose proof (packedSize_ceil (len s)) as Hceil.
  pose proof (len_nonneg (mapBlocks s isN)). pose proof (len_nonneg (mapBlocks s isLower)).
  assert (Hspan : take (Z.to_nat (ceilDiv4 (len s - 0) + 0))
                    (drop (Z.to_nat (off + 16 + 8 * len (mapBlocks s isN)
                                     + 8 * len (mapBlocks s isLower) + (ceilDiv4 0 - 0))) data)
                  = packed).
  { change (ceilDiv4 0 - 0) with 0. rewrite !Z.add_0_r, Z.sub_0_r, Hdrop', <- Hcd.
    apply take_app_length'. unfold len in *. lia. }
  rewrite readWindow_spec.
  - change (0 mod 4) with 0. change (0 =? 0) with true. cbv iota.
    rewrite Hspan. change (Z.to_nat 0) with 0%nat. rewrite drop_0, Z.sub_0_r, Hdec.
    cbn [nBlocks mBlocks]. rewrite overlays_restore by (assumption || lia).
    f_equal. f_equal. f_equal.
    unfold size. cbn [recordOf nBlocks mBlocks sequence].
    change (ceilDiv4 0 - 0) with 0. rewrite <- Hcd. lia.
  - lia.
  - lia.
  - change (0 mod 4) with 0. change (0 =? 0) with true. cbv iota.
    change (ceilDiv4 0 - 0) with 0. rewrite Z.sub_0_r, <- Hcd.
    apply (f_equal length) in Hdrop'. rewrite length_drop, length_app in Hdrop'.
    unfold len in *. lia.
  - change (0 mod 4) with 0. change (0 =? 0) with true. cbv iota.
    rewrite Hspan. exact Hpb.
Qed.

(** ** The Writer *)

(** What a successful [Add] means. *)
Lemma Add_inv w name seq w' :
  Add w name seq = Ok w' ->
  len name <= 255 /\ Forall (fun c => baseChar c = true) seq
  /\ exists packed, Pack seq = Ok packed /\ w' = <[name := recordOf seq packed]> w.
Proof.
  unfold Add. destruct (Z.gtb_spec (len name) 255) as [Hgt|Hle]; [discriminate|].
  intros H. split; [exact Hle|].
  destruct (split_first_bad seq) as [Hs|(pre & c & suf & -> & Hpre & Hc)].
  - split; [exact Hs|]. destruct (Pack seq) as [packed| |]; try discriminate.
    exists packed. split; [reflexivity|]. injection H as <-. reflexivity.
  - rewrite (Pack_bad pre c suf Hpre Hc) in H. discriminate.
Qed.

(** Every name of a built writer fits the one-byte length of an index entry. *)
Lemma built_names w : built w -> forall name, is_Some (w !! name) -> len name <= 255.
Proof.
  induction 1 as [|w name seq w' Hb IH Hadd]; intros n Hn.
  - destruct Hn as [x Hx]. unfold NewWriter in Hx.
    exfalso. eapply (lookup_empty_Some (M := gmap (list Z))). exact Hx.
  - apply Add_inv in Hadd as (Hlen & _ & packed & _ & ->).
    destruct (decide (name = n)) as [->|Hne]; [exact Hlen|].
    unfold Writer in *. rewrite lookup_insert_ne in Hn by exact Hne. apply IH. exact Hn.
Qed.

(** The size the index accounts for is the number of bytes written. *)
Lemma recordBytes_length rec : len (recordBytes rec) = size rec.
Proof.
  unfold recordBytes, size. rewrite !len_app.
  assert (Hf : forall (f : Block.t -> Z) (l : list Block.t),
             len (flat_map (fun b => putUint32LE (uint32 (f b))) l) = 4 * len l).
  { intros f l. induction l as [|b l IH]; [reflexivity|].
    cbn [flat_map]. rewrite len_app, IH, len_cons.
    change (len (putUint32LE (uint32 (f b)))) with 4. lia. }
  rewrite !Hf.
  repeat match goal with |- context [len (putUint32LE ?v)] =>
    change (len (putUint32LE v)) with 4 end. lia.
Qed.

Lemma size_nonneg rec : 0 <= size rec.
Proof. rewrite <- recordBytes_length. apply len_nonneg. Qed.

Lemma entriesOf_names w names : forall off, fst <$> entriesOf w names off = names.
Proof.
  induction names as [|n names IH]; intros off; [reflexivity|].
  cbn [entriesOf]. rewrite fmap_cons, IH. reflexivity.
Qed.

Lemma entryBytes_length entries :
  len (entryBytes entries) = fold_right (fun e n => 5 + len (fst e) + n) 0 entries.
Proof.
  induction entries as [|e entries IH]; [reflexivity|].
  unfold entryBytes in *. cbn [flat_map fold_right]. rewrite !len_app, IH.
  change (len (putUint32LE (uint32 (snd e)))) with 4.
  change (len [uint8 (len (fst e))]) with 1. lia.
Qed.

Lemma idxSize_entries w names : forall acc off,
  fold_left (fun acc name => acc + (5 + len name)) names acc
  = acc + len (entryBytes (entriesOf w names off)).
Proof.
  induction names as [|n names IH]; intros acc off.
  - simpl. unfold len; simpl; lia.
  - cbn [fold_left entriesOf]. rewrite (IH _ (off + match w !! n with
                                                    | Some rec => size rec | None => 0 end)).
    rewrite !entryBytes_length. cbn [fold_right fst]. lia.
Qed.

Lemma indexBytes_ok w names : forall off,
  (forall n, n ∈ names -> is_Some (w !! n)) ->
  indexBytes w names off = Ok (entryBytes (entriesOf w names off)).
Proof.
  induction names as [|n names IH]; intros off Hin; [reflexivity|].
  cbn [indexBytes entriesOf]. unfold getRecord.
  destruct (Hin n) as [rec Hrec]; [left|]. rewrite Hrec. cbn [rbind].
  rewrite IH by (intros; apply Hin; right; assumption). cbn [rbind].
  unfold entryBytes. cbn [flat_map fst snd]. rewrite <- !app_assoc. reflexivity.
Qed.

(** The records follow one another in the order of the index, each at
    the offset its entry gives. *)
Lemma records_layout w names :
  (forall n, n ∈ names -> is_Some (w !! n)) ->
  exists bytes, recordsBytes w names = Ok bytes
    /\ forall off name o rec, (name, o) ∈ entriesOf w names off -> w !! name = Some rec ->
         exists rest, off <= o /\ o + size rec <= off + len bytes
           /\ drop (Z.to_nat (o - off)) bytes = recordBytes rec ++ rest.
Proof.
  induction names as [|n names IH]; intros Hin.
  - exists []. split; [reflexivity|]. intros off name o rec H. inversion H.
  - destruct (Hin n) as [r Hr]; [left|].
    destruct IH as (bytes & Hb & Hlay); [intros; apply Hin; right; assumption|].
    exists (recordBytes r ++ bytes). cbn [recordsBytes]. unfold getRecord.
    rewrite Hr. cbn [rbind]. rewrite Hb. cbn [rbind]. split; [reflexivity|].
    intros off name o rec Hmem Hrec. cbn [entriesOf] in Hmem. rewrite Hr in Hmem.
    pose proof (size_nonneg r) as Hsz. pose proof (recordBytes_length r) as Hrl.
    rewrite len_app, Hrl.
    apply elem_of_cons in Hmem as [Heq|Hmem].
    + injection Heq as -> ->. assert (rec = r) by congruence. subst rec.
      exists bytes. pose proof (len_nonneg bytes).
      split; [lia|]. split; [lia|]. rewrite Z.sub_diag. reflexivity.
    + destruct (Hlay _ _ _ _ Hmem Hrec) as (rest & Hle & Hhi & Hd).
      exists rest. split; [lia|]. split; [lia|].
      replace (Z.to_nat (o - off))
        with (length (recordBytes r) + Z.to_nat (o - (off + size r)))%nat
        by (unfold len in Hrl; lia).
      rewrite drop_app_add. exact Hd.
Qed.

(** The index the Reader builds maps each name to its offset. *)
Lemma indexOf_notin entries : forall ix name,
  name ∉ (fst <$> entries) -> indexOf entries ix !! name = ix !! name.
Proof.
  induction entries as [|e entries IH]; intros ix name Hn; [reflexivity|].
  rewrite fmap_cons in Hn. apply not_elem_of_cons in Hn as [Hne Hn].
  change (indexOf entries (<[fst e := uint32 (snd e)]> ix) !! name = ix !! name).
  rewrite IH by exact Hn. apply lookup_insert_ne. congruence.
Qed.

Lemma indexOf_lookup entries : forall ix name o,
  NoDup (fst <$> entries) -> (name, o) ∈ entries ->
  indexOf entries ix !! name = Some (uint32 o).
Proof.
  induction entries as [|e entries IH]; intros ix name o Hnd Hin; [inversion Hin|].
  rewrite fmap_cons in Hnd. apply NoDup_cons in Hnd as [Hnot Hnd].
  change (indexOf entries (<[fst e := uint32 (snd e)]> ix) !! name = Some (uint32 o)).
  apply elem_of_cons in Hin as [<-|Hin].
  - cbn [fst snd] in *. rewrite indexOf_notin by exact Hnot. apply lookup_insert_eq.
  - apply IH; assumption.
Qed.

(** ** NewReader on a written file *)

(** The index loop over the entries of a file. *)
Lemma parseIndexLoop_spec entries : forall rest data pos h ix,
  byteOrder h = LittleEndian -> 0 <= pos ->
  Forall (fun e => len (fst e) <= 255) entries ->
  drop (Z.to_nat pos) data = entryBytes entries ++ rest ->
  parseIndexLoop (length entries) (mkReader (Stream.mk data pos) h ix)
  = (Ok tt, mkReader (Stream.mk data (pos + len (entryBytes entries))) h
              (indexOf entries ix))
  /\ drop (Z.to_nat (pos + len (entryBytes entries))) data = rest.
Proof.
  induction entries as [|[name o] entries IH]; intros rest data pos h ix Hbo Hpos Hall Hdrop.
  - cbn [length parseIndexLoop]. unfold ret. change (len (entryBytes [])) with 0.
    rewrite Z.add_0_r. split; [reflexivity|exact Hdrop].
  - apply Forall_cons in Hall as [Hn Hall]. cbn [fst] in Hn.
    pose proof (len_nonneg name) as Hn0.
    unfold entryBytes in Hdrop. cbn [flat_map fst snd] in Hdrop.
    fold (entryBytes entries) in Hdrop. rewrite <- !app_assoc in Hdrop.
    cbn [length parseIndexLoop].
    destruct (read_chunk (make 1) [uint8 (len name)] _ data pos h ix Hpos Hdrop eq_refl)
      as [Hr1 Hd1]; [discriminate|].
    change (len [uint8 (len name)]) with 1 in *.
    unfold bind at 1. rewrite Hr1. cbv beta iota. cbn [hd].
    assert (Hu8 : uint8 (len name) = len name) by (unfold uint8; apply Z.mod_small; lia).
    rewrite Hu8.
    destruct (read_chunk (make (len name)) name _ data (pos + 1) h ix
                ltac:(lia) Hd1) as [Hr2 Hd2].
    { unfold make. rewrite length_replicate. unfold len. lia. }
    { destruct name; discriminate. }
    unfold bind at 1. rewrite Hr2. cbv beta iota.
    destruct (read_chunk (make 4) (putUint32LE (uint32 o)) _ data (pos + 1 + len name) h ix
                ltac:(lia) Hd2 eq_refl) as [Hr3 Hd3]; [discriminate|].
    change (len (putUint32LE (uint32 o))) with 4 in *.
    unfold bind at 1. rewrite Hr3. cbv beta iota.
    unfold bind at 1, getHdr. cbn [hdr]. rewrite Hbo.
    unfold bind at 1, getIndex. cbn [index_].
    unfold bind at 1, setIndex. cbn [reader hdr index_].
    rewrite <- (app_nil_r (putUint32LE (uint32 o))), Uint32_putUint32LE.
    rewrite (uint32_small (uint32 o)) by apply uint32_range.
    destruct (IH rest data (pos + 1 + len name + 4) h (<[name := uint32 o]> ix) Hbo
                ltac:(lia) Hall Hd3) as [Hloop Hd4].
    rewrite Hloop.
    assert (Hlen : len (entryBytes ((name, o) :: entries))
                   = 1 + len name + 4 + len (entryBytes entries)).
    { rewrite !entryBytes_length. cbn [fold_right fst]. lia. }
    rewrite Hlen.
    replace (pos + (1 + len name + 4 + len (entryBytes entries)))
      with (pos + 1 + len name + 4 + len (entryBytes entries)) by lia.
    split; [reflexivity|exact Hd4].
Qed.

(** The header, in either byte order: the signature decides the order in
    which the other fields are read. *)
Lemma parseHeader_spec bo count rest data h0 ix :
  0 <= count < 4294967296 ->
  data = headerBytes bo count ++ rest ->
  parseHeader (mkReader (Stream.mk data 0) h0 ix)
  = (Ok tt, mkReader (Stream.mk data 16) (mkHeader SIG 0 count 0 bo) ix).
Proof.
  intros Hc ->. unfold parseHeader.
  destruct (read_chunk (make 16) (headerBytes bo count) rest
              (headerBytes bo count ++ rest) 0 h0 ix) as [Hr _];
    [lia|reflexivity|destruct bo; reflexivity|destruct bo; discriminate|].
  replace (len (headerBytes bo count)) with 16 in Hr by (destruct bo; reflexivity).
  unfold bind at 1. rewrite Hr. cbv beta iota.
  assert (Hcount : Uint32 bo (take 4 (drop 8 (headerBytes bo count))) = count).
  { destruct bo; unfold headerBytes, putUint32.
    - change (take 4 (drop 8 _)) with (rev (putUint32LE count)).
      rewrite <- (app_nil_r (rev _)), Uint32_putUint32BE. apply uint32_small, Hc.
    - change (take 4 (drop 8 _)) with (putUint32LE count).
      rewrite <- (app_nil_r (putUint32LE _)), Uint32_putUint32LE. apply uint32_small, Hc. }
  destruct bo.
  - unfold bind, getHdr, setHdr, ret. cbn [reader hdr index_ sig version hcount hreserved byteOrder].
    change (Uint32 BigEndian (take 4 (headerBytes BigEndian count))) with SIG.
    rewrite Z.eqb_refl. cbn [negb]. cbv iota.
    cbn [reader hdr index_ sig version hcount hreserved byteOrder].
    rewrite Hcount.
    change (Uint32 BigEndian (take 4 (drop 4 (headerBytes BigEndian count)))) with 0.
    change (Uint32 BigEndian (take 4 (drop 12 (headerBytes BigEndian count)))) with 0.
    reflexivity.
  - unfold bind, getHdr, setHdr, ret, fail.
    cbn [reader hdr index_ sig version hcount hreserved byteOrder].
    change (Uint32 BigEndian (take 4 (headerBytes LittleEndian count))) with 1126646042.
    change (1126646042 =? SIG) with false. cbn [negb]. cbv iota.
    cbn [reader hdr index_ sig version hcount hreserved byteOrder].
    change (Uint32 LittleEndian (take 4 (headerBytes LittleEndian count))) with SIG.
    rewrite Z.eqb_refl. cbn [negb]. cbv iota.
    cbn [reader hdr index_ sig version hcount hreserved byteOrder].
    rewrite Hcount.
    change (Uint32 LittleEndian (take 4 (drop 4 (headerBytes LittleEndian count)))) with 0.
    change (Uint32 LittleEndian (take 4 (drop 12 (headerBytes LittleEndian count)))) with 0.
    reflexivity.
Qed.

Lemma rangeOrder_length (w : Writer) names :
  rangeOrder w names -> length names = base.size w.
Proof.
  intros [Hnd Hin]. unfold Writer in *.
  rewrite <- size_dom, <- (size_list_to_set (C := gset (list Z)) names Hnd).
  f_equal. apply set_eq. intros n.
  rewrite elem_of_list_to_set, elem_of_dom. apply Hin.
Qed.

Lemma entryBytes_min entries : 5 * len entries <= len (entryBytes entries).
Proof.
  rewrite entryBytes_length. induction entries as [|e entries IH].
  - unfold len; simpl; lia.
  - rewrite len_cons. cbn [fold_right]. pose proof (len_nonneg (fst e)). lia.
Qed.

(** The Reader that [NewReader] builds over the file [WriteTo] writes for
    a built writer: little-endian header with the number of records, and an
    index under which every record lies at its offset. *)
Lemma NewReader_written (w : Writer) names :
  built w -> rangeOrder w names ->
  exists file pos ix,
    WriteTo w names = Ok file
    /\ (len file < 4294967296 ->
        NewReader (Stream.mk file 0)
        = Ok (mkReader (Stream.mk file pos)
                (mkHeader SIG 0 (Z.of_nat (base.size w)) 0 LittleEndian) ix)
        /\ (forall name, w !! name = None -> ix !! name = None)
        /\ (forall name rec, w !! name = Some rec ->
              exists o rest, ix !! name = Some o /\ 0 <= o
                /\ drop (Z.to_nat o) file = recordBytes rec ++ rest)).
Proof.
  intros Hb Hro. pose proof (rangeOrder_length w names Hro) as Hlen.
  destruct Hro as [Hnd Hin].
  assert (Hall : forall n, n ∈ names -> is_Some (w !! n)) by (intros n; apply Hin).
  set (off0 := 16 + fold_left (fun acc name => acc + (5 + len name)) names 0).
  set (entries := entriesOf w names off0).
  destruct (records_layout w names Hall) as (recs & Hrecs & Hlay).
  assert (Hoff0 : off0 = 16 + len (entryBytes entries)).
  { unfold off0, entries. rewrite (idxSize_entries w names 0 off0). lia. }
  assert (Hfst : fst <$> entries = names) by apply entriesOf_names.
  set (hb := headerBytes LittleEndian (uint32 (Z.of_nat (base.size w)))).
  exists (hb ++ entryBytes entries ++ recs), (16 + len (entryBytes entries)),
         (indexOf entries ∅).
  split.
  { unfold WriteTo. fold off0. rewrite indexBytes_ok by exact Hall. cbn [rbind].
    rewrite Hrecs. cbn [rbind]. unfold hb, headerBytes, putUint32.
    rewrite <- !app_assoc. reflexivity. }
  intros Hsmall.
  assert (Hhb : len hb = 16) by reflexivity.
  rewrite !len_app, Hhb in Hsmall.
  pose proof (entryBytes_min entries) as Hmin. pose proof (len_nonneg recs) as Hrn.
  assert (Hle : len entries = Z.of_nat (base.size w)).
  { unfold len. rewrite <- Hlen, <- Hfst, length_fmap. reflexivity. }
  assert (Hcnt : uint32 (Z.of_nat (base.size w)) = Z.of_nat (base.size w))
    by (apply uint32_small; lia).
  split; [|split].
  - unfold NewReader.
    unfold bind at 1.
    rewrite (parseHeader_spec LittleEndian (Z.of_nat (base.size w))
               (entryBytes entries ++ recs)); [|lia|unfold hb; rewrite Hcnt; reflexivity].
    unfold parseIndex.
    unfold bind at 1, setIndex. cbn [reader hdr index_].
    unfold bind at 1, Count, bind, getHdr, ret. cbn [hdr hcount].
    rewrite Nat2Z.id, <- Hlen, <- Hfst, length_fmap.
    destruct (parseIndexLoop_spec entries recs (hb ++ entryBytes entries ++ recs) 16
                (mkHeader SIG 0 (Z.of_nat (length (fst <$> entries))) 0 LittleEndian) ∅)
      as [Hloop _].
    + reflexivity.
    + lia.
    + apply Forall_forall. intros e He. apply (built_names w Hb). apply Hin.
      rewrite <- Hfst. apply list_elem_of_fmap. exists e. split; [reflexivity|exact He].
    + replace (Z.to_nat 16) with (length hb) by reflexivity.
      apply drop_app_length.
    + rewrite length_fmap in Hloop. rewrite Hloop. reflexivity.
  - intros name Hnone. rewrite indexOf_notin; [apply lookup_empty|].
    rewrite Hfst. intros Hmem. apply Hin in Hmem. rewrite Hnone in Hmem.
    destruct Hmem; discriminate.
  - intros name rec Hrec.
    assert (Hmem : name ∈ names) by (apply Hin; eauto).
    rewrite <- Hfst in Hmem. apply list_elem_of_fmap in Hmem as ([n o] & Hn & Hmem).
    cbn [fst] in Hn. subst n.
    destruct (Hlay off0 name o rec Hmem Hrec) as (rest & Hlo & Hhi & Hdrop).
    pose proof (size_nonneg rec).
    exists o, rest. split; [|split].
    + rewrite (indexOf_lookup entries ∅ name o); [|rewrite Hfst; exact Hnd|exact Hmem].
      f_equal. apply uint32_small. lia.
    + lia.
    + rewrite app_assoc.
      replace (Z.to_nat o) with (length (hb ++ entryBytes entries) + Z.to_nat (o - off0))%nat.
      * rewrite drop_app_add. exact Hdrop.
      * rewrite length_app. unfold len in *. change (length hb) with 16%nat. lia.
Qed.

(** ** Properties of the written file *)

(** X4 -- full cycle: a non-empty sequence added to a built writer, written by
    [WriteTo] in any order of the map's keys into a file below 4 GiB and
    opened by [NewReader], is read back by [Read] exactly, masked
    (lower-case) characters and runs of N included. *)
Theorem write_read_roundtrip (w w' : Writer) (name s : list Z)
    (names : list (list Z)) :
  built w -> Add w name s = Ok w' -> rangeOrder w' names ->
  0 < len s < 4294967296 ->
  exists file, WriteTo w' names = Ok file
    /\ (len file < 4294967296 ->
        exists r, NewReader (Stream.mk file 0) = Ok r
                  /\ run (Read name) r = Ok s).
Proof.
  intros Hb Hadd Hro Hlen.
  assert (Hb' : built w') by (eapply built_add; eauto).
  destruct (Add_inv _ _ _ _ Hadd) as (_ & Hs & packed & Hp & Hw').
  destruct (NewReader_written w' names Hb' Hro) as (file & pos & ix & Hfile & Hread).
  exists file. split; [exact Hfile|]. intros Hsmall.
  destruct (Hread Hsmall) as (Hnew & _ & Hrecs).
  eexists. split; [exact Hnew|].
  destruct (Hrecs name (recordOf s packed)) as (o & rest & Hix & Ho & Hdrop).
  { subst w'. unfold Writer. apply lookup_insert_eq. }
  unfold run. rewrite (Read_record name s packed o rest file pos _ ix); try assumption.
  reflexivity. reflexivity.
Qed.

Lemma write_read_roundtrip_witness :
  exists file,
    WriteTo (<[bytes_of "chrM" := recordOf (bytes_of "NNacgtTTGn") [9; 192; 192]]>
             (<[chr1 := recordOf (bytes_of "ACGT") [156]]> NewWriter))
            [bytes_of "chrM"; chr1] = Ok file
    /\ (len file < 4294967296 ->
        exists r, NewReader (Stream.mk file 0) = Ok r
                  /\ run (Read (bytes_of "chrM")) r = Ok (bytes_of "NNacgtTTGn")).
Proof.
  apply (write_read_roundtrip (<[chr1 := recordOf (bytes_of "ACGT") [156]]> NewWriter)
           _ (bytes_of "chrM") (bytes_of "NNacgtTTGn") [bytes_of "chrM"; chr1]).
  - apply (built_add NewWriter chr1 (bytes_of "ACGT")); [apply built_new|reflexivity].
  - reflexivity.
  - assert (Hne : bytes_of "chrM" <> chr1) by (vm_compute; discriminate).
    unfold rangeOrder, Writer, NewWriter. split.
    + apply NoDup_cons. split; [|apply NoDup_singleton].
      intros Hin. apply list_elem_of_singleton in Hin. contradiction.
    + intros n. rewrite !elem_of_cons, elem_of_nil. split.
      * intros [->|[->|[]]].
        -- eexists. apply lookup_insert_eq.
        -- eexists. rewrite lookup_insert_ne by exact Hne. apply lookup_insert_eq.
      * intros [x Hx].
        destruct (decide (bytes_of "chrM" = n)) as [<-|N1]; [left; reflexivity|].
        rewrite lookup_insert_ne in Hx by exact N1.
        destruct (decide (chr1 = n)) as [<-|N2]; [right; left; reflexivity|].
        rewrite lookup_insert_ne in Hx by exact N2.
        exfalso. eapply (lookup_empty_Some (M := gmap (list Z))). exact Hx.
  - vm_compute. split; reflexivity.
Defined.

(** ** Lengths and blocks of a written sequence *)

Lemma countIf_app {A} (f : A -> bool) (l1 l2 : list A) :
  countIf f (l1 ++ l2) = countIf f l1 + countIf f l2.
Proof.
  induction l1 as [|x l1 IH]; [reflexivity|].
  cbn [app countIf fold_right]. fold (countIf f (l1 ++ l2)). fold (countIf f l1).
  rewrite IH. lia.
Qed.

Lemma countIf_ext {A} (f g : A -> bool) (l : list A) :
  Forall (fun x => f x = g x) l -> countIf f l = countIf g l.
Proof.
  induction 1 as [|x l Hx _ IH]; [reflexivity|].
  cbn [countIf fold_right]. fold (countIf f l). fold (countIf g l).
  rewrite Hx, IH. reflexivity.
Qed.

Lemma countIf_false {A} (f : A -> bool) (l : list A) :
  Forall (fun x => f x = false) l -> countIf f l = 0.
Proof.
  induction 1 as [|x l Hx _ IH]; [reflexivity|].
  cbn [countIf fold_right]. fold (countIf f l). rewrite Hx, IH. reflexivity.
Qed.

Lemma countIf_true {A} (f : A -> bool) (l : list A) :
  Forall (fun x => f x = true) l -> countIf f l = len l.
Proof.
  induction 1 as [|x l Hx _ IH]; [reflexivity|].
  cbn [countIf fold_right]. fold (countIf f l). rewrite Hx, IH, len_cons. reflexivity.
Qed.

Lemma countIf_fmap {A B} (g : A -> B) (f : B -> bool) (l : list A) :
  countIf f (g <$> l) = countIf (fun x => f (g x)) l.
Proof.
  induction l as [|x l IH]; [reflexivity|].
  rewrite fmap_cons. cbn [countIf fold_right].
  fold (countIf f (g <$> l)). fold (countIf (fun x => f (g x)) l). rewrite IH. reflexivity.
Qed.

Lemma countIf_add {A} (f g h : A -> bool) (l : list A) :
  Forall (fun x => h x = f x || g x /\ (f x && g x = false)) l ->
  countIf h l = countIf f l + countIf g l.
Proof.
  induction 1 as [|x l [Hx Hd] _ IH]; [reflexivity|].
  cbn [countIf fold_right]. fold (countIf f l). fold (countIf g l). fold (countIf h l).
  rewrite Hx, IH. destruct (f x), (g x); simpl in *; try discriminate; lia.
Qed.

Lemma countIf_filter {A} (f : A -> bool) (l : list A) :
  len l - countIf f l = len (List.filter (fun x => negb (f x)) l).
Proof.
  induction l as [|x l IH]; [reflexivity|].
  cbn [countIf fold_right List.filter]. fold (countIf f l). rewrite len_cons.
  destruct (f x); simpl negb; cbv iota; [|rewrite len_cons]; lia.
Qed.

(** The positions of a window that one block covers. *)
Lemma countIf_block b lo n :
  lo <= Block.start b -> 0 <= Block.count b ->
  Block.start b + Block.count b <= lo + n ->
  countIf (coversb b) (seqZ lo n) = Block.count b.
Proof.
  intros H1 H2 H3.
  replace n with ((Block.start b - lo) + (Block.count b + (lo + n - (Block.start b + Block.count b))))
    by lia.
  rewrite seqZ_app by lia. rewrite seqZ_app by lia. rewrite !countIf_app.
  rewrite (countIf_false _ (seqZ lo _)).
  2:{ apply Forall_seqZ. intros p Hp. unfold coversb. apply andb_false_iff.
      left. apply Z.leb_gt. lia. }
  replace (lo + (Block.start b - lo)) with (Block.start b) by lia.
  rewrite (countIf_true _ (seqZ (Block.start b) _)).
  2:{ apply Forall_seqZ. intros p Hp. unfold coversb. apply andb_true_iff.
      rewrite Z.leb_le, Z.ltb_lt. lia. }
  rewrite countIf_false.
  2:{ apply Forall_seqZ. intros p Hp. unfold coversb. apply andb_false_iff.
      right. apply Z.ltb_ge. lia. }
  unfold len. rewrite length_seqZ. lia.
Qed.

(** The counts of runs that lie apart add up to the covered positions. *)
Lemma sum_counts_apart blocks lo n : forall acc,
  StronglySorted apart blocks ->
  Forall (fun b => lo <= Block.start b /\ 0 < Block.count b
                   /\ Block.start b + Block.count b <= lo + n) blocks ->
  fold_left (fun a b => a + Block.count b) blocks acc
  = acc + countIf (fun p => existsb (fun b => coversb b p) blocks) (seqZ lo n).
Proof.
  induction blocks as [|b blocks IH]; intros acc Hsort Hall.
  - cbn [fold_left existsb]. rewrite countIf_false; [lia|].
    apply Forall_forall. reflexivity.
  - apply StronglySorted_cons in Hsort as [Hap Hsort].
    apply Forall_cons in Hall as [(H1 & H2 & H3) Hall].
    cbn [fold_left]. rewrite IH by assumption.
    rewrite (countIf_add (coversb b) (fun p => existsb (fun b0 => coversb b0 p) blocks)
               (fun p => existsb (fun b0 => coversb b0 p) (b :: blocks))).
    + cbv beta in *. rewrite countIf_block by lia. lia.
    + apply Forall_forall. intros p _. split; [reflexivity|].
      destruct (coversb b p) eqn:Hc; [|reflexivity]. simpl.
      apply not_true_is_false. intros He.
      apply existsb_coversb, Exists_exists in He as (b' & Hb' & Hc').
      rewrite Forall_forall in Hap. specialize (Hap b' Hb').
      apply coversb_covers in Hc. unfold covers, apart in *. lia.
Qed.

(** The block counts of [mapBlocks] add up to the matching characters. *)
Lemma mapBlocks_sum s check :
  fold_left (fun a b => a + Block.count b) (mapBlocks s check) 0 = countIf check s.
Proof.
  destruct (mapBlocks_runs s check) as (Hmax & Hsort & _).
  rewrite (sum_counts_apart _ 0 (len s)); [|exact Hsort|].
  2:{ eapply Forall_impl; [exact Hmax|]. intros b (H1 & H2 & H3 & _). lia. }
  rewrite Z.add_0_l.
  rewrite (countIf_ext _ (fun p => check (s !!! Z.to_nat p))).
  2:{ apply Forall_seqZ. intros p Hp. apply mapBlocks_existsb. lia. }
  rewrite <- (countIf_fmap (fun p => s !!! Z.to_nat p) check).
  rewrite (fmap_lookup_seqZ (fun c => c) s), list_fmap_id. reflexivity.
Qed.

(** The length-only parse: the 4-byte dnaSize, no block tables. *)
Lemma parseRecord_length_spec name v off rest data pos h ix :
  byteOrder h = LittleEndian -> ix !! name = Some off -> 0 <= off ->
  drop (Z.to_nat off) data = putUint32LE v ++ rest ->
  parseRecord name false (mkReader (Stream.mk data pos) h ix)
  = (Ok (mkSeqRecord (uint32 v) [] [] 0 []), mkReader (Stream.mk data (off + 4)) h ix).
Proof.
  intros Hbo Hix Hoff Hdrop.
  unfold parseRecord. unfold bind at 1, getIndex. cbn [index_]. rewrite Hix.
  unfold bind at 1, seek. cbn [reader hdr index_]. unfold Stream.Seek.
  cbn [Stream.s Stream.i]. rewrite Z.eqb_refl.
  replace (off <? 0) with false by (symmetry; apply Z.ltb_ge; lia).
  destruct (read_chunk (make 4) (putUint32LE v) _ data off h ix
              Hoff Hdrop eq_refl) as [Hread _]; [discriminate|].
  change (len (putUint32LE v)) with 4 in *.
  unfold bind at 1. rewrite Hread. cbv beta iota.
  unfold bind at 1, getHdr. cbn [hdr]. rewrite Hbo. unfold ret.
  rewrite <- (app_nil_r (putUint32LE v)), Uint32_putUint32LE. reflexivity.
Qed.

(** X5 -- the queries on a written file: for a sequence [s] (possibly
    empty) added to a built writer and written to a file below 4 GiB, the
    Reader reports the number of records and version 0, [Length] returns
    [len s], [NBlocks] returns the runs of N of [s], and [LengthNoN]
    returns the number of characters of [s] that are not N or n. *)
Theorem written_queries (w w' : Writer) (name s : list Z) (names : list (list Z)) :
  built w -> Add w name s = Ok w' -> rangeOrder w' names ->
  len s < 4294967296 ->
  exists file, WriteTo w' names = Ok file
    /\ (len file < 4294967296 ->
        exists r, NewReader (Stream.mk file 0) = Ok r
          /\ run Count r = Ok (Z.of_nat (base.size w'))
          /\ run Version r = Ok 0
          /\ run (Length name) r = Ok (len s)
          /\ run (NBlocks name) r = Ok (mapBlocks s isN)
          /\ run (LengthNoN name) r
             = Ok (len (List.filter (fun c => negb (isN c)) s))).
Proof.
  intros Hb Hadd Hro Hlen. pose proof (len_nonneg s) as Hs0.
  assert (Hb' : built w') by (eapply built_add; eauto).
  destruct (Add_inv _ _ _ _ Hadd) as (_ & Hs & packed & Hp & Hw').
  destruct (NewReader_written w' names Hb' Hro) as (file & pos & ix & Hfile & Hread).
  exists file. split; [exact Hfile|]. intros Hsmall.
  destruct (Hread Hsmall) as (Hnew & _ & Hrecs).
  eexists. split; [exact Hnew|].
  destruct (Hrecs name (recordOf s packed)) as (o & rest & Hix & Ho & Hdrop).
  { subst w'. unfold Writer. apply lookup_insert_eq. }
  pose proof (mapBlocks_length s isN) as Hnl.
  pose proof (mapBlocks_length s isLower) as Hml.
  destruct (parseRecord_spec name (recordOf s packed) o rest file pos
              (mkHeader SIG 0 (Z.of_nat (base.size w')) 0 LittleEndian) ix
              eq_refl Hix Ho) as [Hrec _];
    [cbn [recordOf nBlocks]; lia|cbn [recordOf mBlocks]; lia|exact Hdrop|].
  cbn [recordOf nBlocks mBlocks dnaSize sequence] in Hrec.
  rewrite !wrapBlocks_id in Hrec by (apply mapBlocks_fields; lia).
  rewrite (uint32_small (uint32 (len s))) in Hrec by apply uint32_range.
  rewrite (uint32_small (len s)) in Hrec by lia.
  repeat split.
  - unfold run, Length, bind.
    unfold recordBytes in Hdrop. rewrite <- !app_assoc in Hdrop.
    rewrite (parseRecord_length_spec name _ o _ file pos
               (mkHeader SIG 0 (Z.of_nat (base.size w')) 0 LittleEndian) ix
               eq_refl Hix Ho Hdrop).
    cbn [recordOf dnaSize fst ret]. unfold ret. cbn [fst].
    rewrite (uint32_small (uint32 (len s))) by apply uint32_range.
    rewrite (uint32_small (len s)) by lia. reflexivity.
  - unfold run, NBlocks, bind. rewrite Hrec. reflexivity.
  - unfold run, LengthNoN, bind. rewrite Hrec. unfold ret. cbn [fst nBlocks dnaSize].
    rewrite mapBlocks_sum, countIf_filter. reflexivity.
Qed.

(** A two-record writer and an order of its keys, for the examples. *)
Lemma example_rangeOrder (r1 r2 : seqRecord) :
  rangeOrder (<[bytes_of "chrM" := r2]> (<[chr1 := r1]> NewWriter))
             [bytes_of "chrM"; chr1].
Proof.
  assert (Hne : bytes_of "chrM" <> chr1) by (vm_compute; discriminate).
  unfold rangeOrder, Writer, NewWriter. split.
  - apply NoDup_cons. split; [|apply NoDup_singleton].
    intros Hin. apply list_elem_of_singleton in Hin. contradiction.
  - intros n. rewrite !elem_of_cons, elem_of_nil. split.
    + intros [->|[->|[]]].
      * eexists. apply lookup_insert_eq.
      * eexists. rewrite lookup_insert_ne by exact Hne. apply lookup_insert_eq.
    + intros [x Hx].
      destruct (decide (bytes_of "chrM" = n)) as [<-|N1]; [left; reflexivity|].
      rewrite lookup_insert_ne in Hx by exact N1.
      destruct (decide (chr1 = n)) as [<-|N2]; [right; left; reflexivity|].
      rewrite lookup_insert_ne in Hx by exact N2.
      exfalso. eapply (lookup_empty_Some (M := gmap (list Z))). exact Hx.
Qed.

Lemma written_queries_witness :
  exists file,
    WriteTo (<[bytes_of "chrM" := recordOf (bytes_of "NNacgtTTGn") [9; 192; 192]]>
             (<[chr1 := recordOf (bytes_of "ACGT") [156]]> NewWriter))
            [bytes_of "chrM"; chr1] = Ok file
    /\ (len file < 4294967296 ->
        exists r, NewReader (Stream.mk file 0) = Ok r
          /\ run Count r
             = Ok (Z.of_nat (base.size
                     (<[bytes_of "chrM" := recordOf (bytes_of "NNacgtTTGn") [9; 192; 192]]>
                        (<[chr1 := recordOf (bytes_of "ACGT") [156]]> NewWriter))))
          /\ run Version r = Ok 0
          /\ run (Length (bytes_of "chrM")) r = Ok (len (bytes_of "NNacgtTTGn"))
          /\ run (NBlocks (bytes_of "chrM")) r = Ok (mapBlocks (bytes_of "NNacgtTTGn") isN)
          /\ run (LengthNoN (bytes_of "chrM")) r
             = Ok (len (List.filter (fun c => negb (isN c)) (bytes_of "NNacgtTTGn")))).
Proof.
  apply (written_queries (<[chr1 := recordOf (bytes_of "ACGT") [156]]> NewWriter)
           (<[bytes_of "chrM" := recordOf (bytes_of "NNacgtTTGn") [9; 192; 192]]>
              (<[chr1 := recordOf (bytes_of "ACGT") [156]]> NewWriter))
           (bytes_of "chrM") (bytes_of "NNacgtTTGn") [bytes_of "chrM"; chr1]).
  - apply (built_add NewWriter chr1 (bytes_of "ACGT")); [apply built_new|reflexivity].
  - reflexivity.
  - apply example_rangeOrder.
  - vm_compute. reflexivity.
Defined.

Lemma clampEnd_0 e : clampEnd 0 e = 0.
Proof.
  unfold clampEnd. destruct (Z.gtb_spec e 0); [reflexivity|].
  destruct (Z.eqb_spec e 0), (Z.ltb_spec e 0); simpl; try reflexivity; lia.
Qed.

(** X6 -- a zero-length sequence can be written but not read: [Add]
    accepts the empty sequence, the file [WriteTo] writes is accepted by
    [NewReader], and every [ReadRange] on that name, [Read] included, fails
    with the invalid-range error. *)
Theorem empty_sequence_unreadable (w : Writer) (name : list Z)
    (names : list (list Z)) :
  built w -> len name <= 255 ->
  rangeOrder (<[name := recordOf [] []]> w) names ->
  Add w name [] = Ok (<[name := recordOf [] []]> w)
  /\ exists file, WriteTo (<[name := recordOf [] []]> w) names = Ok file
       /\ (len file < 4294967296 ->
           exists r, NewReader (Stream.mk file 0) = Ok r
             /\ run (Read name) r = Err (InvalidRange 0 0)
             /\ forall start end_,
                  run (ReadRange name start end_) r
                  = Err (InvalidRange (clampStart start) 0)).
Proof.
  intros Hb Hn Hro.
  assert (Hadd : Add w name [] = Ok (<[name := recordOf [] []]> w)).
  { unfold Add. replace (len name >? 255) with false
      by (symmetry; rewrite Z.gtb_ltb; apply Z.ltb_ge; lia). reflexivity. }
  split; [exact Hadd|].
  assert (Hb' : built (<[name := recordOf [] []]> w)) by (eapply built_add; eauto).
  destruct (NewReader_written _ names Hb' Hro) as (file & pos & ix & Hfile & Hread).
  exists file. split; [exact Hfile|]. intros Hsmall.
  destruct (Hread Hsmall) as (Hnew & _ & Hrecs).
  eexists. split; [exact Hnew|].
  destruct (Hrecs name (recordOf [] [])) as (o & rest & Hix & Ho & Hdrop).
  { unfold Writer. apply lookup_insert_eq. }
  destruct (parseRecord_spec name (recordOf [] []) o rest file pos
              (mkHeader SIG 0 (Z.of_nat (base.size (<[name := recordOf [] []]> w))) 0
                 LittleEndian) ix eq_refl Hix Ho) as [Hrec _];
    [reflexivity|reflexivity|exact Hdrop|].
  assert (Hall : forall start end_,
            run (ReadRange name start end_)
                (mkReader (Stream.mk file pos)
                   (mkHeader SIG 0 (Z.of_nat (base.size (<[name := recordOf [] []]> w))) 0
                      LittleEndian) ix)
            = Err (InvalidRange (clampStart start) 0)).
  { intros start end_. unfold run.
    assert (Hd : dnaSize (mkSeqRecord (uint32 (dnaSize (recordOf [] [])))
                            (wrapBlocks (nBlocks (recordOf [] [])))
                            (wrapBlocks (mBlocks (recordOf [] []))) 0 []) = 0)
      by reflexivity.
    rewrite (ReadRange_degenerate _ _ _ _ _ _ Hrec); rewrite Hd, clampEnd_0.
    - reflexivity.
    - unfold clampStart. destruct (Z.ltb_spec start 0); lia. }
  split; [apply (Hall 0 0)|exact Hall].
Qed.

Lemma empty_sequence_unreadable_witness :
  Add NewWriter chr1 [] = Ok (<[chr1 := recordOf [] []]> NewWriter)
  /\ exists file, WriteTo (<[chr1 := recordOf [] []]> NewWriter) [chr1] = Ok file
       /\ (len file < 4294967296 ->
           exists r, NewReader (Stream.mk file 0) = Ok r
             /\ run (Read chr1) r = Err (InvalidRange 0 0)
             /\ forall start end_,
                  run (ReadRange chr1 start end_) r
                  = Err (InvalidRange (clampStart start) 0)).
Proof.
  apply (empty_sequence_unreadable NewWriter chr1 [chr1]).
  - apply built_new.
  - vm_compute. discriminate.
  - unfold rangeOrder, Writer, NewWriter. split; [apply NoDup_singleton|].
    intros n. rewrite list_elem_of_singleton. split.
    + intros ->. eexists. apply lookup_insert_eq.
    + intros [x Hx]. destruct (decide (chr1 = n)) as [<-|N]; [reflexivity|].
      rewrite lookup_insert_ne in Hx by exact N.
      exfalso. eapply (lookup_empty_Some (M := gmap (list Z))). exact Hx.
Defined.

(** X7 -- a name that is not in the index: every query fails with the
    invalid-sequence-name error and leaves the Reader, cursor included, as
    it was. *)
Theorem missing_name_queries (r : Reader) (name : list Z) (start end_ : Z) :
  index_ r !! name = None ->
  Length name r = (Err (InvalidSequenceName name), r)
  /\ LengthNoN name r = (Err (InvalidSequenceName name), r)
  /\ NBlocks name r = (Err (InvalidSequenceName name), r)
  /\ Read name r = (Err (InvalidSequenceName name), r)
  /\ ReadRange name start end_ r = (Err (InvalidSequenceName name), r).
Proof.
  intros Hix.
  assert (Hp : forall coords, parseRecord name coords r = (Err (InvalidSequenceName name), r)).
  { intros coords. unfold parseRecord, bind, getIndex, fail. rewrite Hix. reflexivity. }
  unfold Length, LengthNoN, NBlocks, Read, ReadRange, bind. rewrite !Hp.
  repeat split.
Qed.

Lemma missing_name_queries_witness :
  Length chr1 emptyReader = (Err (InvalidSequenceName chr1), emptyReader)
  /\ LengthNoN chr1 emptyReader = (Err (InvalidSequenceName chr1), emptyReader)
  /\ NBlocks chr1 emptyReader = (Err (InvalidSequenceName chr1), emptyReader)
  /\ Read chr1 emptyReader = (Err (InvalidSequenceName chr1), emptyReader)
  /\ ReadRange chr1 2 7 emptyReader = (Err (InvalidSequenceName chr1), emptyReader).
Proof.
  apply (missing_name_queries emptyReader chr1 2 7). reflexivity.
Defined.

(** X8 -- the outcomes of [Add]: a name longer than 255 bytes is refused
    first; otherwise a sequence with a character outside the alphabet is
    refused with the first such character; otherwise the record is stored
    under the name, replacing any earlier record of that name and leaving
    every other name as it was. *)
Theorem Add_outcomes (w : Writer) (name seq : list Z) :
  (255 < len name -> Add w name seq = Err NameTooLong)
  /\ (len name <= 255 -> forall pre c suf,
        seq = pre ++ c :: suf -> Forall (fun c => baseChar c = true) pre ->
        baseChar c = false -> Add w name seq = Err (UnsupportedBase c))
  /\ (len name <= 255 -> Forall (fun c => baseChar c = true) seq ->
        exists packed w', Pack seq = Ok packed /\ Add w name seq = Ok w'
          /\ w' !! name = Some (recordOf seq packed)
          /\ (forall other, other <> name -> w' !! other = w !! other)
          /\ (forall seq0 w0, Add w name seq0 = Ok w0 -> Add w0 name seq = Ok w')).
Proof.
  split; [|split].
  - intros Hn. unfold Add.
    replace (len name >? 255) with true by (symmetry; apply Z.gtb_lt; lia). reflexivity.
  - intros Hn pre c suf -> Hpre Hc. unfold Add.
    replace (len name >? 255) with false
      by (symmetry; rewrite Z.gtb_ltb; apply Z.ltb_ge; lia).
    rewrite (Pack_bad pre c suf Hpre Hc). reflexivity.
  - intros Hn Hs.
    assert (HA : forall w1 : Writer,
              Add w1 name seq = Ok (<[name := recordOf seq
                ((fun i => packed4 seq (4 * Z.of_nat i))
                   <$> List.seq 0 (Z.to_nat (packedSize (len seq))))]> w1)).
    { intros w1. unfold Add.
      replace (len name >? 255) with false
        by (symmetry; rewrite Z.gtb_ltb; apply Z.ltb_ge; lia).
      rewrite (Pack_ok seq Hs). reflexivity. }
    eexists. eexists. split; [apply Pack_ok; exact Hs|]. split; [apply HA|].
    unfold Writer in *. split; [apply lookup_insert_eq|]. split.
    + intros other Hne. apply lookup_insert_ne. congruence.
    + intros seq0 w0 H0. apply Add_inv in H0 as (_ & _ & p0 & _ & ->).
      rewrite HA. f_equal. apply insert_insert_eq.
Qed.

(** ** The header *)

(** The first read of [parseHeader]: the count it returns is dropped, so a
    stream shorter than 16 bytes leaves the rest of the buffer zero. *)
Lemma read_header data h ix :
  data <> [] ->
  read (make 16) (mkReader (Stream.mk data 0) h ix)
  = (Ok (headerBuf data, Z.min 16 (len data), false),
     mkReader (Stream.mk data (0 + Z.min 16 (len data))) h ix).
Proof.
  intros Hne.
  assert (Hlen : 0 < len data) by (destruct data; [congruence|rewrite len_cons; pose proof (len_nonneg data); lia]).
  unfold read. cbn [reader hdr index_]. unfold Stream.Read. cbn [Stream.i Stream.s].
  replace (0 >=? len data) with false by (symmetry; rewrite Z.geb_leb; apply Z.leb_gt; lia).
  change (Z.to_nat 0) with 0%nat. rewrite drop_0.
  change (len (make 16)) with 16.
  assert (E : take (Z.to_nat (Z.min 16 (len data))) data
              ++ drop (Z.to_nat (Z.min 16 (len data))) (make 16) = headerBuf data).
  { unfold headerBuf, make.
    destruct (Z.le_gt_cases 16 (len data)) as [Hge|Hlt].
    - replace (Z.min 16 (len data)) with 16 by lia.
      change (Z.to_nat 16) with 16%nat. rewrite drop_ge by (rewrite length_replicate; lia).
      rewrite app_nil_r. symmetry. apply take_app_le. unfold len in Hge. lia.
    - replace (Z.min 16 (len data)) with (len data) by lia.
      unfold len. rewrite Nat2Z.id. rewrite take_ge by lia.
      rewrite take_app_ge by (unfold len in Hlt; lia). f_equal.
      change (Z.to_nat 16) with 16%nat.
      rewrite drop_replicate, take_replicate. f_equal. unfold len in Hlt. lia. }
  rewrite E. reflexivity.
Qed.

(** X9 -- byte-order detection: a header whose fields are written in
    big-endian or in little-endian order, with version 0 and reserved 0, is
    accepted, the order is recorded and the sequence count is read in that
    order; with no sequences [NewReader] returns the Reader with an empty
    index. *)
Theorem header_either_byte_order (bo : ByteOrder) (count : Z) (rest : list Z)
    (h0 : header) (ix : gmap (list Z) Z) :
  0 <= count < 4294967296 ->
  parseHeader (mkReader (Stream.mk (headerBytes bo count ++ rest) 0) h0 ix)
  = (Ok tt, mkReader (Stream.mk (headerBytes bo count ++ rest) 16)
              (mkHeader SIG 0 count 0 bo) ix)
  /\ NewReader (Stream.mk (headerBytes bo 0 ++ rest) 0)
     = Ok (mkReader (Stream.mk (headerBytes bo 0 ++ rest) 16)
             (mkHeader SIG 0 0 0 bo) ∅).
Proof.
  intros Hc. split.
  - apply (parseHeader_spec bo count rest); [exact Hc|reflexivity].
  - unfold NewReader, bind.
    rewrite (parseHeader_spec bo 0 rest (headerBytes bo 0 ++ rest)); [|lia|reflexivity].
    reflexivity.
Qed.

Lemma header_either_byte_order_witness :
  parseHeader (mkReader (Stream.mk (headerBytes BigEndian 3 ++ [7; 7]) 0)
                 (mkHeader 0 0 0 0 BigEndian) ∅)
  = (Ok tt, mkReader (Stream.mk (headerBytes BigEndian 3 ++ [7; 7]) 16)
              (mkHeader SIG 0 3 0 BigEndian) ∅)
  /\ NewReader (Stream.mk (headerBytes BigEndian 0 ++ [7; 7]) 0)
     = Ok (mkReader (Stream.mk (headerBytes BigEndian 0 ++ [7; 7]) 16)
             (mkHeader SIG 0 0 0 BigEndian) ∅).
Proof.
  apply (header_either_byte_order BigEndian 3 [7; 7] (mkHeader 0 0 0 0 BigEndian) ∅).
  lia.
Defined.

(** X10 -- a truncated header is not detected: [parseHeader] drops the
    byte count of its read, so on a non-empty stream shorter than 16 bytes
    it gives the result and the header it gives on the same bytes padded
    with zeros to 16; an empty stream is refused with [io.EOF]. *)
Theorem truncated_header (data : list Z) (h0 : header) (ix : gmap (list Z) Z) :
  (data = [] ->
     parseHeader (mkReader (Stream.mk data 0) h0 ix)
     = (Err StreamEOF, mkReader (Stream.mk data 0) h0 ix))
  /\ (data <> [] ->
      fst (parseHeader (mkReader (Stream.mk data 0) h0 ix))
      = fst (parseHeader (mkReader (Stream.mk (headerBuf data) 0) h0 ix))
      /\ hdr (snd (parseHeader (mkReader (Stream.mk data 0) h0 ix)))
         = hdr (snd (parseHeader (mkReader (Stream.mk (headerBuf data) 0) h0 ix)))).
Proof.
  split.
  - intros ->. reflexivity.
  - intros Hne.
    assert (Hl : length (headerBuf data) = 16%nat).
    { unfold headerBuf. rewrite length_take, length_app, length_replicate. lia. }
    assert (Hne' : headerBuf data <> []) by (intros E; rewrite E in Hl; discriminate).
    assert (Hb : headerBuf (headerBuf data) = headerBuf data).
    { unfold headerBuf at 1. rewrite take_app_le by lia. apply take_ge. lia. }
    unfold parseHeader, bind.
    rewrite (read_header data h0 ix Hne), (read_header (headerBuf data) h0 ix Hne'), Hb.
    cbv beta iota. unfold getHdr, setHdr, ret, fail.
    cbn [reader hdr index_ sig version hcount hreserved byteOrder fst snd].
    repeat match goal with
           | |- context [if ?c then _ else _] => destruct c
           end; cbn [reader hdr index_ sig version hcount hreserved byteOrder fst snd];
      split; reflexivity.
Qed.

Lemma truncated_header_witness :
  fst (parseHeader (mkReader (Stream.mk [67; 39; 65; 26] 0) (mkHeader 0 0 0 0 BigEndian) ∅))
  = Ok tt
  /\ NewReader (Stream.mk [67; 39; 65; 26] 0)
     = Ok (mkReader (Stream.mk [67; 39; 65; 26] 4) (mkHeader SIG 0 0 0 LittleEndian) ∅).
Proof.
  destruct (truncated_header [67; 39; 65; 26] (mkHeader 0 0 0 0 BigEndian) ∅) as [_ H].
  destruct H as [H1 H2]; [discriminate|].
  split; [rewrite H1; reflexivity|reflexivity].
Defined.

(** X11 -- the errors of the header: [NewReader] returns [io.EOF] on an
    empty stream, the invalid-signature error when the first four bytes are
    the signature in neither byte order, the unsupported-version error with
    the version read in the detected order when it is not 0, and the
    reserved error with the reserved field when that is not 0. *)
Theorem header_errors (data : list Z) :
  (data = [] -> NewReader (Stream.mk data 0) = Err StreamEOF)
  /\ (data <> [] ->
      Uint32 BigEndian (take 4 (headerBuf data)) <> SIG ->
      Uint32 LittleEndian (take 4 (headerBuf data)) <> SIG ->
      NewReader (Stream.mk data 0) = Err InvalidSig)
  /\ (forall bo v rest,
        data = putUint32 bo SIG ++ putUint32 bo v ++ rest -> 0 < v < 4294967296 ->
        NewReader (Stream.mk data 0) = Err (UnsupportedVersion v))
  /\ (forall bo c rs rest,
        data = putUint32 bo SIG ++ putUint32 bo 0 ++ putUint32 bo c ++ putUint32 bo rs ++ rest ->
        0 < rs < 4294967296 ->
        NewReader (Stream.mk data 0) = Err (HeaderReserved rs)).
Proof.
  split; [|split; [|split]].
  - intros ->. reflexivity.
  - intros Hne HBE HLE. unfold NewReader, parseHeader, bind.
    rewrite (read_header data _ _ Hne). cbv beta iota.
    unfold getHdr, setHdr, ret, fail. cbn [reader hdr index_ sig version hcount hreserved byteOrder].
    apply Z.eqb_neq in HBE, HLE. rewrite HBE. cbn [negb]. cbv iota.
    cbn [reader hdr index_ sig version hcount hreserved byteOrder].
    rewrite HLE. reflexivity.
  - intros bo v rest -> Hv.
    assert (Hne : putUint32 bo SIG ++ putUint32 bo v ++ rest <> []) by (destruct bo; discriminate).
    assert (Hver : Uint32 bo (take 4 (drop 4 (headerBuf
              (putUint32 bo SIG ++ putUint32 bo v ++ rest)))) = v).
    { destruct bo; unfold putUint32.
      - change (take 4 (drop 4 (headerBuf _))) with (rev (putUint32LE v)).
        rewrite <- (app_nil_r (rev _)), Uint32_putUint32BE. apply uint32_small. lia.
      - change (take 4 (drop 4 (headerBuf _))) with (putUint32LE v).
        rewrite <- (app_nil_r (putUint32LE _)), Uint32_putUint32LE. apply uint32_small. lia. }
    unfold NewReader, parseHeader, bind.
    rewrite (read_header _ _ _ Hne). cbv beta iota.
    unfold getHdr, setHdr, ret, fail.
    cbn [reader hdr index_ sig version hcount hreserved byteOrder].
    assert (Hv0 : (v =? 0) = false) by (apply Z.eqb_neq; lia).
    destruct bo.
    + change (Uint32 BigEndian (take 4 (headerBuf _))) with SIG.
      rewrite Z.eqb_refl. cbn [negb]. cbv iota.
      cbn [reader hdr index_ sig version hcount hreserved byteOrder].
      rewrite Hver, Hv0. reflexivity.
    + change (Uint32 BigEndian (take 4 (headerBuf _))) with 1126646042.
      change (1126646042 =? SIG) with false. cbn [negb]. cbv iota.
      cbn [reader hdr index_ sig version hcount hreserved byteOrder].
      change (Uint32 LittleEndian (take 4 (headerBuf _))) with SIG.
      rewrite Z.eqb_refl. cbn [negb]. cbv iota.
      cbn [reader hdr index_ sig version hcount hreserved byteOrder].
      rewrite Hver, Hv0. reflexivity.
  - intros bo c rs rest -> Hrs.
    set (data := putUint32 bo SIG ++ putUint32 bo 0 ++ putUint32 bo c ++ putUint32 bo rs ++ rest).
    assert (Hne : data <> []) by (unfold data; destruct bo; discriminate).
    assert (Hres : Uint32 bo (take 4 (drop 12 (headerBuf data))) = rs).
    { unfold data. destruct bo; unfold putUint32.
      - change (take 4 (drop 12 (headerBuf _))) with (rev (putUint32LE rs)).
        rewrite <- (app_nil_r (rev _)), Uint32_putUint32BE. apply uint32_small. lia.
      - change (take 4 (drop 12 (headerBuf _))) with (putUint32LE rs).
        rewrite <- (app_nil_r (putUint32LE _)), Uint32_putUint32LE. apply uint32_small. lia. }
    assert (Hver : Uint32 bo (take 4 (drop 4 (headerBuf data))) = 0)
      by (unfold data; destruct bo; reflexivity).
    assert (HBE : Uint32 BigEndian (take 4 (headerBuf data))
                  = match bo with BigEndian => SIG | LittleEndian => 1126646042 end)
      by (unfold data; destruct bo; reflexivity).
    assert (HLE : bo = LittleEndian -> Uint32 LittleEndian (take 4 (headerBuf data)) = SIG)
      by (intros ->; reflexivity).
    assert (Hr0 : (rs =? 0) = false) by (apply Z.eqb_neq; lia).
    unfold NewReader, parseHeader, bind.
    rewrite (read_header _ _ _ Hne). cbv beta iota.
    unfold getHdr, setHdr, ret, fail.
    cbn [reader hdr index_ sig version hcount hreserved byteOrder].
    rewrite HBE. clearbody data. destruct bo.
    + rewrite Z.eqb_refl. cbn [negb]. cbv iota.
      cbn [reader hdr index_ sig version hcount hreserved byteOrder].
      rewrite Hver, Hres, Hr0. reflexivity.
    + change (1126646042 =? SIG) with false. cbn [negb]. cbv iota.
      cbn [reader hdr index_ sig version hcount hreserved byteOrder].
      rewrite (HLE eq_refl), Z.eqb_refl. cbn [negb]. cbv iota.
      cbn [reader hdr index_ sig version hcount hreserved byteOrder].
      rewrite Hver, Hres, Hr0. reflexivity.
Qed.

Lemma header_errors_witness :
  NewReader (Stream.mk [67; 39; 65; 26; 1; 0; 0; 0] 0) = Err (UnsupportedVersion 1).
Proof.
  apply (proj1 (proj2 (proj2 (header_errors [67; 39; 65; 26; 1; 0; 0; 0])))
           LittleEndian 1 []); [reflexivity | lia].
Defined.

(** ** The service layer *)

Lemma HasPrefix_chr_app chr : HasPrefix (chr_ ++ chr) chr_ = true.
Proof. unfold HasPrefix. apply bool_decide_eq_true. reflexivity. Qed.

Lemma chrName_canonical chr :
  chr <> [] ->
  chrName chr <> [] /\ HasPrefix (chrName chr) chr_ = true /\ chrName chr <> chrMT.
Proof.
  intros Hne. unfold chrName.
  destruct (HasPrefix chr chr_) eqn:Hp; cbn [negb]; cbv zeta.
  - destruct (bool_decide (chr = chrMT)) eqn:Hd.
    + repeat split; try discriminate; try reflexivity.
    + apply bool_decide_eq_false in Hd.
      split; [assumption|]. split; assumption.
  - destruct (bool_decide (chr_ ++ chr = chrMT)) eqn:Hd.
    + repeat split; try discriminate; try reflexivity.
    + apply bool_decide_eq_false in Hd.
      split; [discriminate|]. split; [apply HasPrefix_chr_app | assumption].
Qed.

Lemma GenomicInterval_chrName chr start end_ :
  chr <> [] ->
  GenomicInterval chr start end_
  = if start =? end_ then ret [] else ReadRange (chrName chr) start end_.
Proof.
  intros Hne. unfold GenomicInterval, chrName.
  rewrite bool_decide_eq_false_2 by assumption. reflexivity.
Qed.

Lemma chrName_idemp chr : chr <> [] -> chrName (chrName chr) = chrName chr.
Proof.
  intros Hne. destruct (chrName_canonical chr Hne) as (_ & Hp & Hmt).
  unfold chrName at 1. rewrite Hp. cbn [negb]. cbv zeta.
  rewrite bool_decide_eq_false_2 by assumption. reflexivity.
Qed.

(** X12 -- the spellings of a chromosome: whatever the range, asking
    [GenomicInterval] for the canonical name of a chromosome is asking for
    the chromosome itself, and so is asking with the prefix "chr" added to
    a name that lacks it; "MT", "chrMT", "M" and "chrM" all name the
    sequence "chrM". *)
Theorem GenomicInterval_spelling (chr : list Z) (start end_ : Z) :
  chr <> [] ->
  GenomicInterval (chrName chr) start end_ = GenomicInterval chr start end_
  /\ (HasPrefix chr chr_ = false ->
      GenomicInterval (chr_ ++ chr) start end_ = GenomicInterval chr start end_)
  /\ (In chr [[77; 84]; chrMT; [77]; chrM] -> chrName chr = chrM).
Proof.
  intros Hne. split; [|split].
  - destruct (chrName_canonical chr Hne) as (Hne' & _).
    rewrite (GenomicInterval_chrName _ _ _ Hne'), (GenomicInterval_chrName _ _ _ Hne).
    rewrite chrName_idemp by assumption. reflexivity.
  - intros Hp.
    assert (Hne' : chr_ ++ chr <> []) by discriminate.
    rewrite (GenomicInterval_chrName _ _ _ Hne'), (GenomicInterval_chrName _ _ _ Hne).
    replace (chrName (chr_ ++ chr)) with (chrName chr); [reflexivity|].
    unfold chrName. rewrite Hp, HasPrefix_chr_app. reflexivity.
  - intros [<-|[<-|[<-|[<-|[]]]]]; reflexivity.
Qed.

Lemma GenomicInterval_spelling_witness :
  GenomicInterval (chrName [77; 84]) 0 4 = GenomicInterval [77; 84] 0 4
  /\ chrName [77; 84] = chrM.
Proof.
  assert (Hne : [77; 84] <> @nil Z) by discriminate.
  split.
  - apply (proj1 (GenomicInterval_spelling [77; 84] 0 4 Hne)).
  - apply (proj2 (proj2 (GenomicInterval_spelling [77; 84] 0 4 Hne))).
    left. reflexivity.
Defined.

Lemma ReadRange_past_end name start end_ rec r r1 :
  parseRecord name true r = (Ok rec, r1) ->
  0 <= start -> dnaSize rec <= start -> start < end_ ->
  ReadRange name start end_ r = (Err (InvalidRange start (dnaSize rec)), r1).
Proof.
  intros Hrec Hs Hd He. unfold ReadRange, bind. rewrite Hrec.
  unfold clampStart, clampEnd.
  replace (start <? 0) with false by (symmetry; apply Z.ltb_ge; lia).
  replace (end_ >? dnaSize rec) with true by (symmetry; apply Z.gtb_lt; lia).
  assert (Hc : (if (dnaSize rec =? 0) || (dnaSize rec <? 0)
                then dnaSize rec else dnaSize rec) = dnaSize rec)
    by (destruct ((dnaSize rec =? 0) || (dnaSize rec <? 0)); reflexivity).
  cbv zeta. rewrite Hc. unfold readWindow.
  replace (dnaSize rec <=? start) with true by (symmetry; apply Z.leb_le; lia).
  reflexivity.
Qed.

(** X13 -- the windows of [GetGenomicIntervalWindow]: with both windows 0
    nothing is read and the two alleles come back as given; a left window
    at position 0 is not empty but the whole sequence; a right window that
    starts at or after the end of the sequence is the invalid-range error,
    not an empty flank; and a blank chromosome is an error even when
    nothing would be read. *)
Theorem window_edges (chr : list Z) (start end_ : Z) (ref alt : list Z) (r : Reader) :
  (chr <> [] ->
   GetGenomicIntervalWindow chr start end_ ref alt 0 0 r = (Ok (ref, alt), r))
  /\ (forall wL, chr <> [] -> 0 < wL ->
      GetGenomicIntervalWindow chr 0 end_ ref alt wL 0 r
      = (do s <- Read (chrName chr); ret (s ++ ref, s ++ alt)) r)
  /\ (forall wR rec r1, chr <> [] -> 0 < wR -> 0 <= end_ ->
      parseRecord (chrName chr) true r = (Ok rec, r1) ->
      dnaSize rec <= end_ ->
      GetGenomicIntervalWindow chr start end_ ref alt 0 wR r
      = (Err (InvalidRange end_ (dnaSize rec)), r1))
  /\ (chr = [] ->
      GetGenomicIntervalWindow chr start end_ ref alt 0 0 r = (Err BlankChromosome, r)).
Proof.
  split; [|split; [|split]].
  - intros Hne. unfold GetGenomicIntervalWindow.
    rewrite !(GenomicInterval_chrName _ _ _ Hne).
    replace (start - 0 =? start) with true by (symmetry; apply Z.eqb_eq; lia).
    replace (end_ =? end_ + 0) with true by (symmetry; apply Z.eqb_eq; lia).
    unfold bind, ret. rewrite !app_nil_r. reflexivity.
  - intros wL Hne HwL. unfold GetGenomicIntervalWindow.
    rewrite !(GenomicInterval_chrName _ _ _ Hne).
    replace (0 - wL =? 0) with false by (symmetry; apply Z.eqb_neq; lia).
    replace (end_ =? end_ + 0) with true by (symmetry; apply Z.eqb_eq; lia).
    assert (HR : ReadRange (chrName chr) (0 - wL) 0 = Read (chrName chr)).
    { unfold Read, ReadRange, clampStart.
      replace (0 - wL <? 0) with true by (symmetry; apply Z.ltb_lt; lia).
      reflexivity. }
    rewrite HR. unfold bind, ret.
    destruct (Read (chrName chr) r) as [[s| |] r']; try reflexivity.
    rewrite !app_nil_r. reflexivity.
  - intros wR rec r1 Hne HwR He Hrec Hd. unfold GetGenomicIntervalWindow.
    rewrite !(GenomicInterval_chrName _ _ _ Hne).
    replace (start - 0 =? start) with true by (symmetry; apply Z.eqb_eq; lia).
    replace (end_ =? end_ + wR) with false by (symmetry; apply Z.eqb_neq; lia).
    unfold bind at 1. unfold ret at 1. unfold bind.
    rewrite (ReadRange_past_end _ end_ (end_ + wR) rec r r1 Hrec) by lia.
    reflexivity.
  - intros ->. reflexivity.
Qed.

(** X14 -- [GetGenomicIntervalBound] when the variant spans the interval
    ([start] at or before its start, [end] at or after its end): both
    flanks are empty, nothing is read and the alleles come back as given;
    when the variant lies inside the interval the flanks are the two
    ranges between the interval's bounds and the variant. *)
Theorem bound_flanks (chr : list Z) (start end_ : Z) (ref alt : list Z)
    (iS iE : Z) (r : Reader) :
  chr <> [] ->
  (start <= iS -> iE <= end_ ->
   GetGenomicIntervalBound chr start end_ ref alt iS iE r = (Ok (ref, alt), r))
  /\ (iS < start -> end_ < iE ->
      GetGenomicIntervalBound chr start end_ ref alt iS iE r
      = (do seqL <- ReadRange (chrName chr) iS start;
         do seqR <- ReadRange (chrName chr) end_ iE;
         ret (seqL ++ ref ++ seqR, seqL ++ alt ++ seqR)) r).
Proof.
  intros Hne. split.
  - intros Hs He. unfold GetGenomicIntervalBound. cbv zeta.
    rewrite !(GenomicInterval_chrName _ _ _ Hne).
    rewrite (Z.max_l iS start), (Z.min_l iE end_) by lia.
    rewrite !Z.eqb_refl. unfold bind, ret. rewrite !app_nil_r. reflexivity.
  - intros Hs He. unfold GetGenomicIntervalBound. cbv zeta.
    rewrite !(GenomicInterval_chrName _ _ _ Hne).
    rewrite (Z.max_r iS start), (Z.min_r iE end_) by lia.
    replace (iS =? start) with false by (symmetry; apply Z.eqb_neq; lia).
    replace (end_ =? iE) with false by (symmetry; apply Z.eqb_neq; lia).
    reflexivity.
Qed.

Lemma window_edges_witness :
  GetGenomicIntervalWindow chr1 0 10 [65] [67] 0 2 (readerOf tenAFile)
  = (Err (InvalidRange 10 (dnaSize (mkSeqRecord 10 [Block.mk 2 3] [] 0 []))),
     snd (parseRecord (chrName chr1) true (readerOf tenAFile))).
Proof.
  apply (proj1 (proj2 (proj2 (window_edges chr1 0 10 [65] [67] (readerOf tenAFile))))
           2 (mkSeqRecord 10 [Block.mk 2 3] [] 0 [])
           (snd (parseRecord (chrName chr1) true (readerOf tenAFile)))).
  - discriminate.
  - lia.
  - lia.
  - vm_compute. reflexivity.
  - simpl. lia.
Defined.

Lemma bound_flanks_witness :
  GetGenomicIntervalBound chr1 2 8 [65] [67] 3 7 emptyReader
  = (Ok ([65], [67]), emptyReader).
Proof.
  assert (Hne : chr1 <> []) by discriminate.
  apply (proj1 (bound_flanks chr1 2 8 [65] [67] 3 7 emptyReader Hne)); lia.
Defined.

(** ** What a read leaves behind *)

Lemma sameFile_refl r : sameFile r r.
Proof. repeat split. Qed.

Lemma sameFile_trans r1 r2 r3 : sameFile r1 r2 -> sameFile r2 r3 -> sameFile r1 r3.
Proof.
  intros (A1 & B1 & C1) (A2 & B2 & C2).
  repeat split; etransitivity; eassumption.
Qed.

Lemma keepsFile_ret {A} (a : A) : keepsFile (ret a).
Proof. intros r. apply sameFile_refl. Qed.

Lemma keepsFile_fail {A} e : keepsFile (@fail A e).
Proof. intros r. apply sameFile_refl. Qed.

Lemma keepsFile_lift {A} (c : result A) : keepsFile (lift c).
Proof. intros r. apply sameFile_refl. Qed.

Lemma keepsFile_getHdr : keepsFile getHdr.
Proof. intros r. apply sameFile_refl. Qed.

Lemma keepsFile_getIndex : keepsFile getIndex.
Proof. intros r. apply sameFile_refl. Qed.

Lemma keepsFile_read b : keepsFile (read b).
Proof.
  intros r. unfold read, Stream.Read.
  destruct (Stream.i (reader r) >=? len (Stream.s (reader r))); repeat split.
Qed.

Lemma keepsFile_seek o w : keepsFile (seek o w).
Proof.
  intros r. unfold seek, Stream.Seek. cbn [snd].
  destruct ((if w =? 0 then o else Stream.i (reader r) + o) <? 0); repeat split.
Qed.

Lemma keepsFile_bind {A B} (c : M A) (k : A -> M B) :
  keepsFile c -> (forall a, keepsFile (k a)) -> keepsFile (bind c k).
Proof.
  intros Hc Hk r. unfold bind. specialize (Hc r).
  destruct (c r) as [[a|e|] r']; cbn [snd] in *; try assumption.
  eapply sameFile_trans; [eassumption | apply Hk].
Qed.

Lemma keepsFile_wrapErr {A} f (c : M A) : keepsFile c -> keepsFile (wrapErr f c).
Proof.
  intros Hc r. unfold wrapErr. specialize (Hc r).
  destruct (c r) as [[a|e|] r']; assumption.
Qed.

Ltac keeps :=
  repeat first
    [ apply keepsFile_ret | apply keepsFile_fail | apply keepsFile_lift
    | apply keepsFile_getHdr | apply keepsFile_getIndex
    | apply keepsFile_read | apply keepsFile_seek
    | apply keepsFile_wrapErr
    | match goal with H : forall _, _ |- _ => apply H end
    | assumption
    | apply keepsFile_bind; [| intros ?]
    | match goal with
      | |- keepsFile (let '(_, _) := ?p in _) => destruct p
      | |- keepsFile (if ?b then _ else _) => destruct b
      | |- keepsFile (match ?o with Some _ => _ | None => _ end) => destruct o
      end
    | assumption ].

Lemma keepsFile_readUint32s e n buf : keepsFile (readUint32s e n buf).
Proof.
  revert buf. induction n as [|n IH]; intros buf; cbn [readUint32s]; keeps.
Qed.

Lemma keepsFile_parseBlockCoords : keepsFile parseBlockCoords.
Proof.
  pose proof keepsFile_readUint32s as Hu.
  unfold parseBlockCoords. keeps.
Qed.

Lemma keepsFile_parseRecord name coords : keepsFile (parseRecord name coords).
Proof.
  pose proof keepsFile_parseBlockCoords as Hc.
  unfold parseRecord. keeps.
Qed.

Lemma keepsFile_readChunks cleft size buf dna i :
  keepsFile (readChunks cleft size buf dna i).
Proof.
  revert buf dna i. induction cleft as [|c IH]; intros buf dna i;
    cbn [readChunks]; keeps.
Qed.

Lemma keepsFile_readWindow rec start end_ : keepsFile (readWindow rec start end_).
Proof.
  pose proof keepsFile_readChunks as Hc.
  unfold readWindow. keeps.
Qed.

Lemma keepsFile_ReadRange name start end_ : keepsFile (ReadRange name start end_).
Proof.
  unfold ReadRange. apply keepsFile_bind; [apply keepsFile_parseRecord|].
  intros rec. apply keepsFile_readWindow.
Qed.

Lemma bind_getIndex {B} (k : gmap (list Z) Z -> M B) r :
  bind getIndex k r = k (index_ r) r.
Proof. reflexivity. Qed.

Lemma bind_seek {B} o w (k : unit -> M B) r :
  bind (seek o w) k r
  = k tt (mkReader (Stream.Seek (reader r) o w) (hdr r) (index_ r)).
Proof. reflexivity. Qed.

(** On two Readers over the same file whose offsets are not negative,
    [parseRecord] gives the same result, and the same Reader when the name
    is in the index. *)
Lemma parseRecord_sameFile name coords r r' :
  sameFile r r' -> offsetsOk r ->
  fst (parseRecord name coords r) = fst (parseRecord name coords r')
  /\ (is_Some (index_ r !! name) ->
      parseRecord name coords r = parseRecord name coords r').
Proof.
  intros (Hs & Hh & Hi) Hoff.
  destruct r as [[s i] h ix], r' as [[s' i'] h' ix'].
  cbn in Hs, Hh, Hi. subst s' h' ix'.
  unfold offsetsOk in Hoff. cbn [index_] in *.
  unfold parseRecord. rewrite !bind_getIndex. cbn [index_].
  destruct (ix !! name) as [off|] eqn:Hl.
  - rewrite !bind_seek. unfold Stream.Seek.
    cbn [reader hdr index_ Stream.s Stream.i].
    change (0 =? 0) with true. cbv iota.
    replace (off <? 0) with false
      by (symmetry; apply Z.ltb_ge; eapply Hoff; eassumption).
    split; [|intros _]; reflexivity.
  - split; [reflexivity|]. intros [x Hx]. discriminate.
Qed.

Lemma parseRecord_None name coords q :
  index_ q !! name = None ->
  parseRecord name coords q = (Err (InvalidSequenceName name), q).
Proof.
  intros Hq. unfold parseRecord. rewrite bind_getIndex, Hq. reflexivity.
Qed.

Lemma bind_parseRecord_sameFile {B} name coords (k : seqRecord -> M B) r r' :
  sameFile r r' -> offsetsOk r ->
  fst (bind (parseRecord name coords) k r)
  = fst (bind (parseRecord name coords) k r').
Proof.
  intros Hsf Hoff.
  destruct (parseRecord_sameFile name coords r r' Hsf Hoff) as [_ Hall].
  unfold bind.
  destruct (index_ r !! name) as [off|] eqn:Hl.
  - rewrite <- (Hall (ex_intro _ off eq_refl)). reflexivity.
  - assert (Hl' : index_ r' !! name = None)
      by (destruct Hsf as (_ & _ & <-); assumption).
    rewrite (parseRecord_None _ _ r Hl), (parseRecord_None _ _ r' Hl').
    reflexivity.
Qed.

(** X15 -- reads do not interfere: a [ReadRange], whether it succeeds or
    fails, moves only the cursor of the stream, and every query starts by
    seeking to the record's offset; so after any [ReadRange] a second
    [ReadRange], [Length], [NBlocks] or [LengthNoN] gives what it would
    have given on the Reader before. *)
Theorem reads_do_not_interfere (name1 : list Z) (start1 end1 : Z) (r : Reader)
    (name : list Z) (start end_ : Z) :
  offsetsOk r ->
  let r' := snd (ReadRange name1 start1 end1 r) in
  sameFile r r'
  /\ run (ReadRange name start end_) r' = run (ReadRange name start end_) r
  /\ run (Length name) r' = run (Length name) r
  /\ run (NBlocks name) r' = run (NBlocks name) r
  /\ run (LengthNoN name) r' = run (LengthNoN name) r.
Proof.
  intros Hoff r'.
  assert (Hsf : sameFile r r') by apply keepsFile_ReadRange.
  split; [assumption|].
  unfold run, ReadRange, Length, NBlocks, LengthNoN.
  repeat split; symmetry; apply bind_parseRecord_sameFile; assumption.
Qed.

Lemma reads_do_not_interfere_witness :
  run (ReadRange chr1 0 4) (snd (ReadRange chr1 2 8 (readerOf tenAFile)))
  = run (ReadRange chr1 0 4) (readerOf tenAFile).
Proof.
  assert (Hoff : offsetsOk (readerOf tenAFile)).
  { intros name off. change (index_ (readerOf tenAFile))
      with (<[chr1 := 25]> (∅ : gmap (list Z) Z)).
    intros H. apply lookup_insert_Some in H as [[_ <-]|[_ H]]; [lia|].
    rewrite lookup_empty in H. discriminate. }
  apply (proj1 (proj2 (reads_do_not_interfere chr1 2 8 (readerOf tenAFile)
                         chr1 0 4 Hoff))).
Defined.

(** ** What an opened Reader guarantees *)

Lemma Uint32_range bo b :
  Forall is_byte b -> 0 <= Uint32 bo b < 4294967296.
Proof.
  intros Hb. destruct b as [|b0 [|b1 [|b2 [|b3 b]]]]; cbn [Uint32]; try lia.
  apply Forall_cons in Hb as [H0 Hb]. apply Forall_cons in Hb as [H1 Hb].
  apply Forall_cons in Hb as [H2 Hb]. apply Forall_cons in Hb as [H3 _].
  unfold is_byte in *. destruct bo; lia.
Qed.

Lemma make_bytes n : Forall is_byte (make n).
Proof. unfold make. apply Forall_replicate. unfold is_byte. lia. Qed.

(** A read hands out bytes of the stream or what the buffer held, and
    moves the cursor only. *)
Lemma read_bytes b r out n eof r' :
  Forall is_byte (Stream.s (reader r)) -> Forall is_byte b ->
  read b r = (Ok (out, n, eof), r') ->
  Forall is_byte out /\ Stream.s (reader r') = Stream.s (reader r)
  /\ hdr r' = hdr r /\ index_ r' = index_ r.
Proof.
  intros Hs Hb. unfold read, Stream.Read.
  destruct (Stream.i (reader r) >=? len (Stream.s (reader r)));
    intros [= <- <- <- <-]; cbn [reader hdr index_ Stream.s]; repeat split;
    try assumption.
  apply Forall_app. split.
  - apply Forall_take, Forall_drop. assumption.
  - apply Forall_drop. assumption.
Qed.

Lemma parseIndexLoop_inv n : forall r r',
  Forall is_byte (Stream.s (reader r)) ->
  parseIndexLoop n r = (Ok tt, r') ->
  (forall name off, index_ r !! name = Some off -> 0 <= off < 4294967296) ->
  Stream.s (reader r') = Stream.s (reader r) /\ hdr r' = hdr r
  /\ (forall name off, index_ r' !! name = Some off -> 0 <= off < 4294967296).
Proof.
  induction n as [|n IH]; intros r r' Hs H Hix.
  - cbn [parseIndexLoop] in H. unfold ret in H. injection H as <-.
    split; [reflexivity|]. split; [reflexivity|]. exact Hix.
  - cbn [parseIndexLoop] in H. unfold bind, fail in H.
    destruct (read (make 1) r) as [[[[s1 n1] e1]| |] r1] eqn:H1; try discriminate.
    destruct (read_bytes _ _ _ _ _ _ Hs (make_bytes 1) H1) as (_ & S1 & D1 & I1).
    destruct e1; [discriminate|].
    assert (Hs1 : Forall is_byte (Stream.s (reader r1))) by (rewrite S1; assumption).
    destruct (read (make (hd 0 s1)) r1) as [[[[s2 n2] e2]| |] r2] eqn:H2;
      try discriminate.
    destruct (read_bytes _ _ _ _ _ _ Hs1 (make_bytes _) H2) as (_ & S2 & D2 & I2).
    destruct e2; [discriminate|].
    assert (Hs2 : Forall is_byte (Stream.s (reader r2))) by (rewrite S2; assumption).
    destruct (read (make 4) r2) as [[[[s3 n3] e3]| |] r3] eqn:H3; try discriminate.
    destruct (read_bytes _ _ _ _ _ _ Hs2 (make_bytes 4) H3) as (B3 & S3 & D3 & I3).
    destruct e3; [discriminate|].
    unfold getHdr, getIndex, setIndex in H. cbn [hdr index_ reader] in H.
    apply IH in H.
    + cbn [hdr index_ reader] in H. destruct H as (Sr & Dr & Ir).
      split; [congruence|]. split; [congruence | exact Ir].
    + cbn [reader]. rewrite S3. assumption.
    + cbn [index_]. intros name off Hl.
      apply lookup_insert_Some in Hl as [[_ <-]|[_ Hl]].
      * apply Uint32_range. assumption.
      * apply (Hix name off). rewrite <- I1, <- I2, <- I3. assumption.
Qed.

Lemma if_negb_eqb_ok {A} x y (a : A) (f : M A) e r r' :
  (if negb (x =? y) then fail e else f) r = (Ok a, r') ->
  x = y /\ f r = (Ok a, r').
Proof.
  destruct (Z.eqb_spec x y); cbn [negb]; [auto|discriminate].
Qed.

Lemma parseHeader_ok r r' :
  Forall is_byte (Stream.s (reader r)) ->
  parseHeader r = (Ok tt, r') ->
  Stream.s (reader r') = Stream.s (reader r) /\ index_ r' = index_ r
  /\ sig (hdr r') = SIG /\ version (hdr r') = 0 /\ hreserved (hdr r') = 0
  /\ 0 <= hcount (hdr r') < 4294967296.
Proof.
  intros Hs H. unfold parseHeader in H. unfold bind at 1 in H.
  destruct (read (make 16) r) as [[[[b n] eof]| |] r1] eqn:H1; try discriminate.
  destruct (read_bytes _ _ _ _ _ _ Hs (make_bytes 16) H1) as (B & S1 & D1 & I1).
  destruct eof; [discriminate|].
  unfold bind at 1 in H. unfold getHdr at 1 in H.
  unfold bind at 1 in H. unfold setHdr at 1 in H.
  cbn [sig version hcount hreserved byteOrder hdr reader index_] in H.
  unfold bind at 1 in H.
  assert (Hc : forall bo, 0 <= Uint32 bo (take 4 (drop 8 b)) < 4294967296)
    by (intros bo; apply Uint32_range, Forall_take, Forall_drop; assumption).
  destruct (Z.eqb_spec (Uint32 BigEndian (take 4 b)) SIG) as [E|E];
    cbn [negb] in H; cbv iota in H.
  - unfold ret at 1 in H.
    cbn [sig version hcount hreserved byteOrder hdr reader index_] in H.
    unfold bind at 1 in H. unfold setHdr at 1 in H.
    cbn [sig version hcount hreserved byteOrder hdr reader index_] in H.
    apply if_negb_eqb_ok in H as [Hv H].
    unfold bind at 1 in H. unfold setHdr at 1 in H.
    cbn [sig version hcount hreserved byteOrder hdr reader index_] in H.
    apply if_negb_eqb_ok in H as [Hr H].
    unfold ret in H. injection H as <-.
    cbn [sig version hcount hreserved byteOrder hdr reader index_].
    rewrite Hv. repeat split; try assumption; apply Hc.
  - unfold bind at 1 in H. unfold setHdr at 1 in H.
    cbn [sig version hcount hreserved byteOrder hdr reader index_] in H.
    destruct (Z.eqb_spec (Uint32 LittleEndian (take 4 b)) SIG) as [E'|E'];
      cbn [negb] in H; cbv iota in H; [|discriminate].
    unfold ret at 1 in H.
    cbn [sig version hcount hreserved byteOrder hdr reader index_] in H.
    unfold bind at 1 in H. unfold setHdr at 1 in H.
    cbn [sig version hcount hreserved byteOrder hdr reader index_] in H.
    apply if_negb_eqb_ok in H as [Hv H].
    unfold bind at 1 in H. unfold setHdr at 1 in H.
    cbn [sig version hcount hreserved byteOrder hdr reader index_] in H.
    apply if_negb_eqb_ok in H as [Hr H].
    unfold ret in H. injection H as <-.
    cbn [sig version hcount hreserved byteOrder hdr reader index_].
    rewrite Hv. repeat split; try assumption; apply Hc.
Qed.

(** X16 -- what an opened Reader guarantees: when [NewReader] accepts a
    stream of bytes, the Reader holds that stream, its header has the
    signature, version 0 and reserved 0, and its count and every offset of
    its index are 32-bit unsigned values; so the reads of such a Reader do
    not interfere. *)
Theorem NewReader_invariants (data : list Z) (r : Reader) :
  Forall is_byte data ->
  NewReader (Stream.mk data 0) = Ok r ->
  Stream.s (reader r) = data
  /\ sig (hdr r) = SIG /\ version (hdr r) = 0 /\ hreserved (hdr r) = 0
  /\ 0 <= hcount (hdr r) < 4294967296
  /\ (forall name off, index_ r !! name = Some off -> 0 <= off < 4294967296)
  /\ offsetsOk r.
Proof.
  intros Hb H. unfold NewReader in H.
  set (tb := mkReader (Stream.mk data 0) (mkHeader 0 0 0 0 BigEndian) ∅) in H.
  destruct (bind parseHeader (fun _ => parseIndex) tb) as [[[]| |] r0] eqn:E;
    try discriminate.
  injection H as ->. unfold bind in E.
  destruct (parseHeader tb) as [[[]| |] rh] eqn:EH; try discriminate.
  apply parseHeader_ok in EH; [|exact Hb].
  destruct EH as (S1 & I1 & Hsig & Hver & Hres & Hcnt).
  unfold parseIndex, bind, setIndex, Count, getHdr, ret in E.
  cbn [hdr reader index_] in E.
  apply parseIndexLoop_inv in E.
  - cbn [hdr reader index_] in E. destruct E as (S2 & D2 & Ix).
    rewrite D2, S2, S1.
    split; [reflexivity|]. do 3 (split; [assumption|]).
    split; [exact Hcnt|]. split; [exact Ix|].
    intros name off Hl. apply (Ix name off Hl).
  - cbn [reader]. rewrite S1. exact Hb.
  - cbn [index_]. intros name off Hl. rewrite lookup_empty in Hl. discriminate.
Qed.

Lemma NewReader_invariants_witness :
  offsetsOk (readerOf tenAFile).
Proof.
  apply (NewReader_invariants tenAFile (readerOf tenAFile)).
  - apply Forall_is_byte_forallb. vm_compute. reflexivity.
  - vm_compute. reflexivity.
Defined.

(** ** Records that [Length] accepts and the reads refuse *)

Lemma read_eof b data pos h ix :
  len data <= pos ->
  read b (mkReader (Stream.mk data pos) h ix)
  = (Ok (b, 0, true), mkReader (Stream.mk data pos) h ix).
Proof.
  intros Hp. unfold read, Stream.Read. cbn [reader hdr index_ Stream.s Stream.i].
  replace (pos >=? len data) with true
    by (symmetry; rewrite Z.geb_leb; apply Z.leb_le; lia).
  reflexivity.
Qed.

Lemma drop_nil_len (data : list Z) pos :
  0 <= pos -> drop (Z.to_nat pos) data = [] -> len data <= pos.
Proof.
  intros Hp Hd. apply (f_equal length) in Hd. rewrite length_drop in Hd.
  cbn [length] in Hd. unfold len. lia.
Qed.

(** A record cut right after its size: the block count cannot be read. *)
Lemma parseRecord_cut name v off data pos h ix :
  byteOrder h = LittleEndian -> ix !! name = Some off -> 0 <= off ->
  drop (Z.to_nat off) data = putUint32LE v ++ [] ->
  parseRecord name true (mkReader (Stream.mk data pos) h ix)
  = (Err (FailedReadNBlocks FailedReadBlockCount),
     mkReader (Stream.mk data (off + 4)) h ix).
Proof.
  intros Hbo Hix Hoff Hdrop.
  unfold parseRecord. unfold bind at 1, getIndex. cbn [index_]. rewrite Hix.
  unfold bind at 1, seek. cbn [reader hdr index_]. unfold Stream.Seek.
  cbn [Stream.s Stream.i]. rewrite Z.eqb_refl.
  replace (off <? 0) with false by (symmetry; apply Z.ltb_ge; lia).
  destruct (read_chunk (make 4) (putUint32LE v) _ data off h ix
              Hoff Hdrop eq_refl) as [Hread Hdrop1]; [discriminate|].
  change (len (putUint32LE v)) with 4 in *.
  unfold bind at 1. rewrite Hread. cbv beta iota.
  unfold bind at 1, getHdr. cbn [hdr]. rewrite Hbo.
  unfold bind at 1, wrapErr, parseBlockCoords. unfold bind at 1.
  rewrite read_eof by (apply drop_nil_len; [lia|assumption]).
  reflexivity.
Qed.

(** A record whose reserved field is not 0. *)
Lemma parseRecord_reserved name v nb mb rs tail off data pos h ix :
  byteOrder h = LittleEndian -> ix !! name = Some off -> 0 <= off ->
  len nb < 4294967296 -> len mb < 4294967296 -> uint32 rs <> 0 ->
  drop (Z.to_nat off) data
  = putUint32LE v ++ coordBytes nb ++ coordBytes mb ++ putUint32LE rs ++ tail ->
  parseRecord name true (mkReader (Stream.mk data pos) h ix)
  = (Err InvalidReserved,
     mkReader (Stream.mk data (off + 16 + 8 * len nb + 8 * len mb)) h ix).
Proof.
  intros Hbo Hix Hoff Hnb Hmb Hrs Hdrop.
  unfold coordBytes in Hdrop. rewrite <- !app_assoc in Hdrop.
  unfold parseRecord. unfold bind at 1, getIndex. cbn [index_]. rewrite Hix.
  unfold bind at 1, seek. cbn [reader hdr index_]. unfold Stream.Seek.
  cbn [Stream.s Stream.i]. rewrite Z.eqb_refl.
  replace (off <? 0) with false by (symmetry; apply Z.ltb_ge; lia).
  destruct (read_chunk (make 4) (putUint32LE v) _ data off h ix
              Hoff Hdrop eq_refl) as [Hread Hdrop1]; [discriminate|].
  change (len (putUint32LE v)) with 4 in *.
  unfold bind at 1. rewrite Hread. cbv beta iota.
  unfold bind at 1, getHdr. cbn [hdr]. rewrite Hbo.
  destruct (parseBlockCoords_spec nb _ data (off + 4) h ix Hbo
              ltac:(lia) Hnb Hdrop1) as [Hnbp Hdrop2].
  unfold bind at 1, wrapErr. rewrite Hnbp.
  destruct (parseBlockCoords_spec mb _ data
              (off + 4 + 4 + 8 * len nb) h ix Hbo
              ltac:(pose proof (len_nonneg nb); lia) Hmb Hdrop2)
    as [Hmbp Hdrop3].
  unfold bind at 1. rewrite Hmbp.
  destruct (read_chunk (putUint32LE v) (putUint32LE rs) _ data
              (off + 4 + 4 + 8 * len nb + 4 + 8 * len mb) h ix
              ltac:(pose proof (len_nonneg nb);
                    pose proof (len_nonneg mb); lia)
              Hdrop3 eq_refl) as [Hread2 Hdrop4]; [discriminate|].
  change (len (putUint32LE rs)) with 4 in *.
  unfold bind at 1. rewrite Hread2. cbv beta iota.
  rewrite <- (app_nil_r (putUint32LE rs)), Uint32_putUint32LE.
  replace (uint32 rs =? 0) with false by (symmetry; apply Z.eqb_neq; assumption).
  cbn [negb]. unfold fail.
  replace (off + 4 + 4 + 8 * len nb + 4 + 8 * len mb + 4)
    with (off + 16 + 8 * len nb + 8 * len mb) by lia.
  reflexivity.
Qed.

(** X17 -- [Length] reads only the size of a record: whatever follows the
    four bytes at the record's offset, [Length] returns the size they
    hold.  On a record cut right after its size every other query fails
    because the block count cannot be read, and on a record whose reserved
    field is not 0 every other query fails with the invalid-reserved
    error, while [Length] still answers. *)
Theorem Length_reads_only_the_size (name : list Z) (v off : Z) (rest data : list Z)
    (pos : Z) (h : header) (ix : gmap (list Z) Z) :
  byteOrder h = LittleEndian -> ix !! name = Some off -> 0 <= off ->
  drop (Z.to_nat off) data = putUint32LE v ++ rest ->
  let r := mkReader (Stream.mk data pos) h ix in
  run (Length name) r = Ok (uint32 v)
  /\ (rest = [] -> forall start end_,
        run (ReadRange name start end_) r = Err (FailedReadNBlocks FailedReadBlockCount)
        /\ run (NBlocks name) r = Err (FailedReadNBlocks FailedReadBlockCount)
        /\ run (LengthNoN name) r = Err (FailedReadNBlocks FailedReadBlockCount))
  /\ (forall nb mb rs tail,
        len nb < 4294967296 -> len mb < 4294967296 -> uint32 rs <> 0 ->
        rest = coordBytes nb ++ coordBytes mb ++ putUint32LE rs ++ tail ->
        forall start end_,
          run (ReadRange name start end_) r = Err InvalidReserved
          /\ run (NBlocks name) r = Err InvalidReserved
          /\ run (LengthNoN name) r = Err InvalidReserved).
Proof.
  intros Hbo Hix Hoff Hdrop r. split; [|split].
  - unfold run, Length, bind, r.
    rewrite (parseRecord_length_spec name v off rest data pos h ix Hbo Hix Hoff Hdrop).
    reflexivity.
  - intros -> start end_. unfold run, ReadRange, NBlocks, LengthNoN, bind, r.
    rewrite (parseRecord_cut name v off data pos h ix Hbo Hix Hoff Hdrop).
    repeat split.
  - intros nb mb rs tail Hnb Hmb Hrs -> start end_.
    unfold run, ReadRange, NBlocks, LengthNoN, bind, r.
    rewrite (parseRecord_reserved name v nb mb rs tail off data pos h ix
               Hbo Hix Hoff Hnb Hmb Hrs Hdrop).
    repeat split.
Qed.

Lemma Length_reads_only_the_size_witness :
  run (Length chr1)
      (mkReader (Stream.mk [7; 0; 0; 0] 0) (mkHeader SIG 0 1 0 LittleEndian)
         (<[chr1 := 0]> ∅))
  = Ok (uint32 7).
Proof.
  apply (Length_reads_only_the_size chr1 7 0 [] [7; 0; 0; 0] 0
           (mkHeader SIG 0 1 0 LittleEndian) (<[chr1 := 0]> ∅)).
  - reflexivity.
  - apply lookup_insert_eq.
  - lia.
  - reflexivity.
Defined.

(** ** The index of any file, and the size of a written file *)

Lemma indexOf_last pre name o suf ix :
  name ∉ (fst <$> suf) ->
  indexOf (pre ++ (name, o) :: suf) ix !! name = Some (uint32 o).
Proof.
  intros Hn. unfold indexOf. rewrite fold_left_app. cbn [fold_left fst snd].
  fold (indexOf pre ix).
  change (indexOf suf (<[name := uint32 o]> (indexOf pre ix)) !! name
          = Some (uint32 o)).
  rewrite indexOf_notin by exact Hn. apply lookup_insert_eq.
Qed.

(** X18 -- the index of any well-formed file: [NewReader] on a
    little-endian header that announces as many entries as follow (names
    of at most 255 bytes), whatever comes after them, builds the index of
    those entries and stops right behind them.  When a name occurs more
    than once its last entry wins; the offsets are taken as they are, with
    no check that a record lies there. *)
Theorem NewReader_index (entries : list (list Z * Z)) (rest : list Z) :
  Forall (fun e => len (fst e) <= 255) entries ->
  len entries < 4294967296 ->
  let file := headerBytes LittleEndian (len entries) ++ entryBytes entries ++ rest in
  exists r,
    NewReader (Stream.mk file 0) = Ok r
    /\ reader r = Stream.mk file (16 + len (entryBytes entries))
    /\ hdr r = mkHeader SIG 0 (len entries) 0 LittleEndian
    /\ (forall pre name o suf,
          entries = pre ++ (name, o) :: suf -> name ∉ (fst <$> suf) ->
          index_ r !! name = Some (uint32 o))
    /\ (forall name, name ∉ (fst <$> entries) -> index_ r !! name = None).
Proof.
  intros Hall Hlen file. pose proof (len_nonneg entries) as Hn0.
  set (hb := headerBytes LittleEndian (len entries)) in *.
  exists (mkReader (Stream.mk file (16 + len (entryBytes entries)))
            (mkHeader SIG 0 (len entries) 0 LittleEndian) (indexOf entries ∅)).
  split; [|split; [reflexivity|split; [reflexivity|split]]].
  - unfold NewReader. unfold bind at 1.
    rewrite (parseHeader_spec LittleEndian (len entries)
               (entryBytes entries ++ rest)); [|lia|reflexivity].
    unfold parseIndex.
    unfold bind at 1, setIndex. cbn [reader hdr index_].
    unfold bind at 1, Count, bind, getHdr, ret. cbn [hdr hcount].
    unfold len at 1. rewrite Nat2Z.id.
    destruct (parseIndexLoop_spec entries rest file 16
                (mkHeader SIG 0 (len entries) 0 LittleEndian) ∅) as [Hloop _].
    + reflexivity.
    + lia.
    + exact Hall.
    + unfold file. replace (Z.to_nat 16) with (length hb) by reflexivity.
      apply drop_app_length.
    + fold file. rewrite Hloop. reflexivity.
  - intros pre name o suf -> Hn. cbn [index_]. apply indexOf_last. exact Hn.
  - intros name Hn. cbn [index_]. rewrite indexOf_notin by exact Hn.
    apply lookup_empty.
Qed.

Lemma NewReader_index_witness :
  exists r,
    NewReader (Stream.mk (headerBytes LittleEndian (len [(chr1, 7); (chr1, 900)])
                          ++ entryBytes [(chr1, 7); (chr1, 900)] ++ []) 0) = Ok r
    /\ index_ r !! chr1 = Some (uint32 900).
Proof.
  destruct (NewReader_index [(chr1, 7); (chr1, 900)] []) as (r & Hr & _ & _ & Hlast & _).
  - repeat constructor; vm_compute; discriminate.
  - vm_compute. reflexivity.
  - exists r. split; [exact Hr|].
    apply (Hlast [(chr1, 7)] chr1 900 []); [reflexivity|].
    rewrite fmap_nil. apply not_elem_of_nil.
Defined.

Lemma recordsBytes_length w names :
  (forall n, n ∈ names -> is_Some (w !! n)) ->
  exists recs, recordsBytes w names = Ok recs
    /\ len (entryBytes (entriesOf w names 0)) + len recs + 16 = fileSize w names.
Proof.
  unfold fileSize.
  assert (G : forall off,
    (forall n, n ∈ names -> is_Some (w !! n)) ->
    exists recs, recordsBytes w names = Ok recs
      /\ len (entryBytes (entriesOf w names off)) + len recs
         = fold_right (fun name n => entrySize w name + n) 0 names).
  { induction names as [|n names IH]; intros off Hin.
    - exists []. split; reflexivity.
    - destruct (Hin n) as [rec Hrec]; [left|].
      destruct (IH (off + size rec)) as (recs & Hrecs & Hl);
        [intros; apply Hin; right; assumption|].
      exists (recordBytes rec ++ recs). cbn [recordsBytes]. unfold getRecord.
      rewrite Hrec. cbn [rbind]. rewrite Hrecs. cbn [rbind].
      split; [reflexivity|].
      cbn [entriesOf fold_right]. rewrite Hrec.
      rewrite entryBytes_length in *. cbn [fold_right fst].
      rewrite len_app, recordBytes_length. unfold entrySize at 1. rewrite Hrec.
      lia. }
  intros Hin. destruct (G 0 Hin) as (recs & Hrecs & Hl).
  exists recs. split; [exact Hrecs|]. lia.
Qed.

Lemma entriesOf_length w names off off' :
  len (entryBytes (entriesOf w names off)) = len (entryBytes (entriesOf w names off')).
Proof.
  pose proof (idxSize_entries w names 0 off). pose proof (idxSize_entries w names 0 off').
  lia.
Qed.

Lemma fileSize_perm w names names' :
  names ≡ₚ names' -> fileSize w names = fileSize w names'.
Proof.
  unfold fileSize. intros HP. f_equal.
  induction HP; cbn [fold_right]; lia.
Qed.

Lemma WriteTo_ok w names :
  rangeOrder w names ->
  exists file, WriteTo w names = Ok file /\ len file = fileSize w names
    /\ take 16 file = headerBytes LittleEndian (uint32 (Z.of_nat (base.size w))).
Proof.
  intros [Hnd Hin].
  assert (Hall : forall n, n ∈ names -> is_Some (w !! n)) by (intros n; apply Hin).
  destruct (recordsBytes_length w names Hall) as (recs & Hrecs & Hl).
  set (off0 := 16 + fold_left (fun acc name => acc + (5 + len name)) names 0).
  set (hb := headerBytes LittleEndian (uint32 (Z.of_nat (base.size w)))).
  exists (hb ++ entryBytes (entriesOf w names off0) ++ recs).
  split; [|split].
  - unfold WriteTo. fold off0. rewrite indexBytes_ok by exact Hall. cbn [rbind].
    rewrite Hrecs. cbn [rbind]. unfold hb, headerBytes, putUint32.
    rewrite <- !app_assoc. reflexivity.
  - rewrite !len_app. change (len hb) with 16.
    rewrite (entriesOf_length w names off0 0). lia.
  - apply (take_app_length hb).
Qed.

(** X19 -- [WriteTo] on any writer: it succeeds, the file starts with the
    little-endian header of the record count, and its length is 16 bytes
    plus, for every record, 5 bytes, the length of the name and the
    [size()] of the record; the order in which the map is visited changes
    the bytes but not this length. *)
Theorem WriteTo_length (w : Writer) (names names' : list (list Z)) :
  rangeOrder w names -> rangeOrder w names' ->
  exists file file',
    WriteTo w names = Ok file /\ WriteTo w names' = Ok file'
    /\ len file = fileSize w names /\ len file' = len file
    /\ take 16 file = headerBytes LittleEndian (uint32 (Z.of_nat (base.size w)))
    /\ take 16 file' = take 16 file.
Proof.
  intros Hro Hro'.
  destruct (WriteTo_ok w names Hro) as (file & Hf & Hl & Hh).
  destruct (WriteTo_ok w names' Hro') as (file' & Hf' & Hl' & Hh').
  exists file, file'. repeat split; try assumption.
  - rewrite Hl, Hl'. apply fileSize_perm.
    destruct Hro as [Hnd Hin], Hro' as [Hnd' Hin'].
    apply NoDup_Permutation; try assumption.
    intros n. rewrite Hin, Hin'. reflexivity.
  - rewrite Hh, Hh'. reflexivity.
Qed.

Lemma rangeOrder_perm (w : Writer) names names' :
  names ≡ₚ names' -> rangeOrder w names -> rangeOrder w names'.
Proof.
  intros HP [Hnd Hin]. split.
  - rewrite <- HP. exact Hnd.
  - intros n. rewrite <- HP. apply Hin.
Qed.

Lemma WriteTo_length_witness :
  exists file file',
    WriteTo (<[bytes_of "chrM" := tenA]> (<[chr1 := tenA]> NewWriter))
            [bytes_of "chrM"; chr1] = Ok file
    /\ WriteTo (<[bytes_of "chrM" := tenA]> (<[chr1 := tenA]> NewWriter))
               [chr1; bytes_of "chrM"] = Ok file'
    /\ len file
       = fileSize (<[bytes_of "chrM" := tenA]> (<[chr1 := tenA]> NewWriter))
                  [bytes_of "chrM"; chr1]
    /\ len file' = len file
    /\ take 16 file
       = headerBytes LittleEndian
           (uint32 (Z.of_nat (base.size
              (<[bytes_of "chrM" := tenA]> (<[chr1 := tenA]> NewWriter)))))
    /\ take 16 file' = take 16 file.
Proof.
  apply (WriteTo_length (<[bytes_of "chrM" := tenA]> (<[chr1 := tenA]> NewWriter))
           [bytes_of "chrM"; chr1] [chr1; bytes_of "chrM"]).
  - apply example_rangeOrder.
  - apply (rangeOrder_perm _ [bytes_of "chrM"; chr1]);
      [apply Permutation_swap | apply example_rangeOrder].
Defined.

(** ** An index that ends too early *)

Lemma parseIndexLoop_add n m : forall r,
  parseIndexLoop (n + m) r = bind (parseIndexLoop n) (fun _ => parseIndexLoop m) r.
Proof.
  induction n as [|n IH]; intros r; [reflexivity|].
  cbn [Nat.add parseIndexLoop]. unfold bind, getHdr, getIndex, setIndex, fail.
  destruct (read (make 1) r) as [[[[s1 n1] e1]| |] r1]; try reflexivity.
  destruct e1; [reflexivity|].
  destruct (read (make (hd 0 s1)) r1) as [[[[s2 n2] e2]| |] r2]; try reflexivity.
  destruct e2; [reflexivity|].
  destruct (read (make 4) r2) as [[[[s3 n3] e3]| |] r3]; try reflexivity.
  destruct e3; [reflexivity|].
  rewrite IH. reflexivity.
Qed.

(** A read that finds fewer bytes than the buffer holds: the rest of the
    buffer stays as it was and no error is reported. *)
Lemma read_short b chunk data pos h ix :
  0 <= pos -> drop (Z.to_nat pos) data = chunk -> chunk <> [] ->
  (length chunk <= length b)%nat ->
  read b (mkReader (Stream.mk data pos) h ix)
  = (Ok (chunk ++ drop (length chunk) b, len chunk, false),
     mkReader (Stream.mk data (pos + len chunk)) h ix).
Proof.
  intros Hpos Hdrop Hne Hle.
  assert (Hlen : len data - pos = len chunk /\ 0 < len chunk).
  { apply (f_equal length) in Hdrop. rewrite length_drop in Hdrop.
    destruct chunk; [congruence|]. cbn [length] in *. unfold len. cbn [length]. lia. }
  unfold read. cbn [reader hdr index_]. unfold Stream.Read. cbn [Stream.i Stream.s].
  replace (pos >=? len data) with false
    by (symmetry; rewrite Z.geb_leb; apply Z.leb_gt; lia).
  rewrite Hdrop.
  replace (Z.min (len b) (len chunk)) with (len chunk) by (unfold len; lia).
  replace (Z.to_nat (len chunk)) with (length chunk) by (unfold len; lia).
  rewrite take_ge by lia. reflexivity.
Qed.

(** X20 -- an index that ends too early: when the header announces more
    entries than the file holds and the file ends right behind an entry,
    [NewReader] fails with the index error; but when the file ends inside
    the offset of the last entry, [NewReader] accepts it and takes the
    missing bytes of the offset as 0. *)
Theorem index_truncated (entries : list (list Z * Z)) :
  Forall (fun e => len (fst e) <= 255) entries ->
  (forall k, 0 < k -> len entries + k < 4294967296 ->
     NewReader (Stream.mk (headerBytes LittleEndian (len entries + k)
                           ++ entryBytes entries) 0)
     = Err FailedReadIndex)
  /\ (forall name b0 b1, len name <= 255 -> len entries + 1 < 4294967296 ->
        let file := headerBytes LittleEndian (len entries + 1)
                    ++ entryBytes entries
                    ++ [uint8 (len name)] ++ name ++ [b0; b1] in
        NewReader (Stream.mk file 0)
        = Ok (mkReader (Stream.mk file (len file))
                (mkHeader SIG 0 (len entries + 1) 0 LittleEndian)
                (<[name := b0 + 256 * b1 + 65536 * 0 + 16777216 * 0]>
                   (indexOf entries ∅)))).
Proof.
  intros Hall. pose proof (len_nonneg entries) as Hn0. split.
  - intros k Hk Hlen.
    set (hb := headerBytes LittleEndian (len entries + k)).
    unfold NewReader. unfold bind at 1.
    rewrite (parseHeader_spec LittleEndian (len entries + k) (entryBytes entries));
      [|lia|reflexivity].
    unfold parseIndex.
    unfold bind at 1, setIndex. cbn [reader hdr index_].
    unfold bind at 1, Count, bind, getHdr, ret. cbn [hdr hcount].
    replace (Z.to_nat (len entries + k))
      with (length entries + S (Z.to_nat (k - 1)))%nat by (unfold len; lia).
    rewrite parseIndexLoop_add. unfold bind at 1.
    destruct (parseIndexLoop_spec entries [] (hb ++ entryBytes entries) 16
                (mkHeader SIG 0 (len entries + k) 0 LittleEndian) ∅)
      as [Hloop Hd].
    + reflexivity.
    + lia.
    + exact Hall.
    + rewrite app_nil_r. replace (Z.to_nat 16) with (length hb) by reflexivity.
      apply drop_app_length.
    + fold hb. rewrite Hloop. cbn [parseIndexLoop]. unfold bind at 1.
      rewrite read_eof; [reflexivity|].
      apply drop_nil_len; [pose proof (len_nonneg (entryBytes entries)); lia|exact Hd].
  - intros name b0 b1 Hname Hlen file.
    set (hb := headerBytes LittleEndian (len entries + 1)) in *.
    pose proof (len_nonneg name) as Hnm. pose proof (len_nonneg (entryBytes entries)) as He0.
    assert (Hfl : len file = 16 + len (entryBytes entries) + 1 + len name + 2).
    { unfold file. rewrite !len_app. change (len hb) with 16.
      change (len [uint8 (len name)]) with 1. change (len [b0; b1]) with 2. lia. }
    unfold NewReader. unfold bind at 1.
    rewrite (parseHeader_spec LittleEndian (len entries + 1)
               (entryBytes entries ++ [uint8 (len name)] ++ name ++ [b0; b1]));
      [|lia|reflexivity].
    unfold parseIndex.
    unfold bind at 1, setIndex. cbn [reader hdr index_].
    unfold bind at 1, Count, bind, getHdr, ret. cbn [hdr hcount].
    replace (Z.to_nat (len entries + 1))
      with (length entries + 1)%nat by (unfold len; lia).
    rewrite parseIndexLoop_add. unfold bind at 1.
    destruct (parseIndexLoop_spec entries ([uint8 (len name)] ++ name ++ [b0; b1])
                file 16 (mkHeader SIG 0 (len entries + 1) 0 LittleEndian) ∅)
      as [Hloop Hd].
    + reflexivity.
    + lia.
    + exact Hall.
    + unfold file. replace (Z.to_nat 16) with (length hb) by reflexivity.
      apply drop_app_length.
    + fold hb. fold file. rewrite Hloop. cbn [parseIndexLoop].
      set (p := 16 + len (entryBytes entries)) in *.
      destruct (read_chunk (make 1) [uint8 (len name)] _ file p
                  (mkHeader SIG 0 (len entries + 1) 0 LittleEndian)
                  (indexOf entries ∅) ltac:(lia) Hd eq_refl) as [Hr1 Hd1];
        [discriminate|].
      change (len [uint8 (len name)]) with 1 in *.
      unfold bind at 1. rewrite Hr1. cbv beta iota. cbn [hd].
      assert (Hu8 : uint8 (len name) = len name)
        by (unfold uint8; apply Z.mod_small; lia).
      rewrite Hu8.
      destruct (read_chunk (make (len name)) name _ file (p + 1)
                  (mkHeader SIG 0 (len entries + 1) 0 LittleEndian)
                  (indexOf entries ∅) ltac:(lia) Hd1) as [Hr2 Hd2].
      { unfold make. rewrite length_replicate. unfold len. lia. }
      { destruct name; discriminate. }
      unfold bind at 1. rewrite Hr2. cbv beta iota.
      unfold bind at 1.
      rewrite (read_short (make 4) [b0; b1] file (p + 1 + len name));
        [|lia|exact Hd2|discriminate
         |unfold make; rewrite length_replicate; cbn [length]; lia].
      cbv beta iota.
      unfold bind at 1, getHdr. cbn [hdr byteOrder].
      unfold bind at 1, getIndex. cbn [index_].
      unfold bind at 1, setIndex. cbn [reader hdr index_].
      unfold ret.
      change (len [b0; b1]) with 2.
      replace (p + 1 + len name + 2) with (len file) by lia.
      reflexivity.
Qed.

Lemma index_truncated_witness :
  NewReader (Stream.mk (headerBytes LittleEndian (len [(chr1, 25)] + 1)
                        ++ entryBytes [(chr1, 25)]) 0)
  = Err FailedReadIndex.
Proof.
  apply (proj1 (index_truncated [(chr1, 25)]
                  ltac:(repeat constructor; vm_compute; discriminate)) 1); 
    [lia | vm_compute; reflexivity].
Defined.

Lemma Add_outcomes_witness :
  Add NewWriter chr1 [65; 88; 67] = Err (UnsupportedBase 88).
Proof.
  apply (proj1 (proj2 (Add_outcomes NewWriter chr1 [65; 88; 67]))
           ltac:(vm_compute; discriminate) [65] 88 [67]).
  - reflexivity.
  - repeat constructor.
  - reflexivity.
Defined.
